(** * kitchen-sync: staging, deployment and tree diffing

    A shallow embedding of the core of [kitchen_sync]: the tree differ and
    collector of [sync.py], the staging engine ([prepare_staging],
    [_copy_dir]), the local adapter ([LocalEnvironment.deploy] and
    [LocalEnvironment.clean]) and the per-target body of the [install]
    command of [cli.py]. *)

From Stdlib Require Import Ascii.
From stdpp Require Import gmap strings list fin_maps sorting.

(** ** Strings and their order

    Python compares [str] values by code point.  Strings are modelled by
    their UTF-8 bytes, on which the byte-wise lexicographic order of
    [String.compare] coincides with the code-point order. *)

Definition str_le (a b : string) : Prop := String.leb a b = true.
Definition str_lt (a b : string) : Prop := String.ltb a b = true.

#[global] Instance str_le_dec a b : Decision (str_le a b).
Proof. unfold str_le. apply _. Defined.

(** ** Dictionaries

    A [dict[str, str]] keeps its keys in insertion order; a snapshot is
    modelled as the list of its items, in the order in which the keys were
    first inserted. *)

Definition dict : Type := list (string * string).

Fixpoint dict_get (d : dict) (k : string) : option string :=
  match d with
  | [] => None
  | (k', v) :: d' => if decide (k' = k) then Some v else dict_get d' k
  end.

(** [d.get(k, dflt)] *)
Definition dict_get_default (d : dict) (k dflt : string) : string :=
  default dflt (dict_get d k).

(** [k in d] *)
Definition dict_contains (d : dict) (k : string) : bool :=
  bool_decide (is_Some (dict_get d k)).

(** [d[k] = v]: an existing key keeps its position, a new one goes last. *)
Fixpoint dict_set (k v : string) (d : dict) : dict :=
  match d with
  | [] => [(k, v)]
  | (k', v') :: d' =>
      if decide (k' = k) then (k, v) :: d' else (k', v') :: dict_set k v d'
  end.

(** [set(d)]: the keys, as a set. *)
Definition dict_keyset (d : dict) : gset string := list_to_set (d.*1).

(** [sorted(s)] for a set of strings. *)
Definition sorted (s : gset string) : list string :=
  merge_sort str_le (elements s).

(** ** The tree differ ([sync.diff_trees]) *)

Section diff.
(** [str.splitlines(keepends=True)] and [difflib.unified_diff] belong to
    the Python library; the differ is parametric in them. *)
Variable splitlines : string → list string.
Variable unified_diff :
  list string → list string → string → string → list string.

(** The body of the [for path in all_paths] loop: [None] stands for an
    iteration that appends nothing. *)
Definition diff_path (local_files remote_files : dict) (path : string)
    : option string :=
  let local_content := dict_get_default local_files path "" in
  let remote_content := dict_get_default remote_files path "" in
  if decide (local_content = remote_content) then None
  else if negb (dict_contains remote_files path) then
    Some ("  + " +:+ path +:+ " (local only)")
  else if negb (dict_contains local_files path) then
    Some ("  - " +:+ path +:+ " (remote only)")
  else
    let diff_lines :=
      unified_diff (splitlines remote_content) (splitlines local_content)
                   ("remote/" +:+ path) ("local/" +:+ path) in
    let diff_text := String.concat "" diff_lines in
    if decide (diff_text = "") then None else Some diff_text.

Definition all_paths (local_files remote_files : dict) : list string :=
  sorted (dict_keyset local_files ∪ dict_keyset remote_files).

Definition diff_trees (local_files remote_files : dict) : list string :=
  omap (diff_path local_files remote_files)
       (all_paths local_files remote_files).

(** The same loop, each record paired with the path it was emitted for. *)
Definition diff_records (local_files remote_files : dict)
    : list (string * string) :=
  omap (λ path, (path,.) <$> diff_path local_files remote_files path)
       (all_paths local_files remote_files).
End diff.

(** ** The file system

    A path is the list of its components below the root.  The file system
    is a finite map from the real (link-free) path of every entry to its
    node; the root directory is the entry at [[]]. *)

Abbreviation path := (list string).

Inductive node :=
| File (perm : bool) (data : string)   (* owner may read and write; bytes *)
| Link (target : string)               (* symbolic link and its target string *)
| Dir.

#[global] Instance node_eq_dec : EqDecision node.
Proof. solve_decision. Defined.

Abbreviation fs := (gmap path node).

(** The exceptions of the Python library that the modelled calls raise.
    All but [RecursionError], [RuntimeError] and [ValueError] are
    subclasses of [OSError]; [NameTooLong] is the [OSError] of a name or
    path that is too long (ENAMETOOLONG). *)
Inductive exn :=
| FileExistsError | FileNotFoundError | NotADirectoryError | IsADirectoryError
| PermissionError | SameFileError | ShutilError | OSError | RecursionError
| RuntimeError | ValueError | NameTooLong.

#[global] Instance exn_eq_dec : EqDecision exn.
Proof. solve_decision. Defined.

(** A computation either returns a value or raises; in both cases the file
    system it leaves behind is part of the outcome. *)
Inductive outcome (A : Type) :=
| Ok (x : A) (s : fs)
| Raise (e : exn) (s : fs).
Arguments Ok {A} x s.
Arguments Raise {A} e s.

Definition M (A : Type) : Type := fs → outcome A.

#[global] Instance M_ret : MRet M := λ A x s, Ok x s.
#[global] Instance M_bind : MBind M := λ A B f m s,
  match m s with
  | Ok x s' => f x s'
  | Raise e s' => Raise e s'
  end.

Definition raise {A} (e : exn) : M A := λ s, Raise e s.
Definition gets {A} (f : fs → A) : M A := λ s, Ok (f s) s.
Definition modify (f : fs → fs) : M unit := λ s, Ok () (f s).

Definition final {A} (o : outcome A) : fs :=
  match o with Ok _ s => s | Raise _ s => s end.

(** [for x in l: body x] *)
Fixpoint for_each {A} (l : list A) (body : A → M unit) : M unit :=
  match l with
  | [] => mret ()
  | x :: l' => _ ← body x; for_each l' body
  end.

(** *** Path resolution *)

Fixpoint split_slash (s : string) : list string :=
  match s with
  | EmptyString => [EmptyString]
  | String c s' =>
      if Ascii.eqb c "/"%char then EmptyString :: split_slash s'
      else match split_slash s' with
           | [] => [String c EmptyString]
           | w :: ws => String c w :: ws
           end
  end.

Definition is_absolute (s : string) : bool :=
  match s with
  | String c _ => Ascii.eqb c "/"%char
  | EmptyString => false
  end.

(** Where a path leads: to an entry, to a free name in an existing
    directory, or nowhere (with the error the kernel reports). *)
Inductive located :=
| Found (p : path)
| Vacant (p : path)
| Missing (e : exn).

Inductive walk_step :=
| Stop (r : located)
| Jump (cur : path) (rest : list string).

(** One pass over the components [rest], starting in the directory with
    real path [cur], up to the first symbolic link that has to be followed.
    The last component is followed only when [follow] is set. *)
Fixpoint walk1 (s : fs) (follow : bool) (cur : path) (rest : list string)
    : walk_step :=
  match rest with
  | [] => Stop (Found cur)
  | c :: rest' =>
      if decide (c = "" ∨ c = ".") then walk1 s follow cur rest'
      else if decide (c = "..") then walk1 s follow (removelast cur) rest'
      else
        match s !! (cur ++ [c]) with
        | None =>
            Stop (match rest' with
                  | [] => Vacant (cur ++ [c])
                  | _ => Missing FileNotFoundError
                  end)
        | Some Dir => walk1 s follow (cur ++ [c]) rest'
        | Some (File _ _) =>
            Stop (match rest' with
                  | [] => Found (cur ++ [c])
                  | _ => Missing NotADirectoryError
                  end)
        | Some (Link t) =>
            match rest', follow with
            | [], false => Stop (Found (cur ++ [c]))
            | _, _ =>
                Jump (if is_absolute t then [] else cur)
                     (split_slash t ++ rest')
            end
        end
  end.

(** At most [fuel] symbolic links are followed (ELOOP beyond that). *)
Fixpoint walk (fuel : nat) (s : fs) (follow : bool) (cur : path)
    (rest : list string) : located :=
  match walk1 s follow cur rest with
  | Stop r => r
  | Jump cur' rest' =>
      match fuel with
      | 0 => Missing OSError
      | S n => walk n s follow cur' rest'
      end
  end.

Definition MAXSYMLINKS : nat := 40.
Arguments MAXSYMLINKS : simpl never.

(** Resolution as [os.stat] does it, and as [os.lstat] does it. *)
Definition locate (s : fs) (p : path) : located := walk MAXSYMLINKS s true [] p.
Definition llocate (s : fs) (p : path) : located := walk MAXSYMLINKS s false [] p.

Definition node_at (s : fs) (r : located) : option node :=
  match r with
  | Found q => s !! q
  | _ => None
  end.

Definition stat (s : fs) (p : path) : option node := node_at s (locate s p).
Definition lstat (s : fs) (p : path) : option node := node_at s (llocate s p).

(** [Path.exists], [Path.is_file], [Path.is_dir], [Path.is_symlink] *)
Definition exists_ (s : fs) (p : path) : bool :=
  match stat s p with Some _ => true | None => false end.
Definition is_file (s : fs) (p : path) : bool :=
  match stat s p with Some (File _ _) => true | _ => false end.
Definition is_dir (s : fs) (p : path) : bool :=
  match stat s p with Some Dir => true | _ => false end.
Definition is_symlink (s : fs) (p : path) : bool :=
  match lstat s p with Some (Link _) => true | _ => false end.

(** [Path.resolve] of a path the kernel can resolve. *)
Definition resolve (s : fs) (p : path) : option path :=
  match locate s p with
  | Found q => Some q
  | _ => None
  end.

Definition parent (p : path) : path := removelast p.
Definition basename (p : path) : string := List.last p "".

(** The names in the directory with real path [d] ([os.listdir]); the
    order in which the kernel lists them is arbitrary, they are taken in
    sorted order. *)
Fixpoint strip (d q : path) : option path :=
  match d, q with
  | [], _ => Some q
  | x :: d', y :: q' => if decide (x = y) then strip d' q' else None
  | _ :: _, [] => None
  end.

Definition children (s : fs) (d : path) : list string :=
  merge_sort str_le
    (omap (λ q, match strip d q with Some [n] => Some n | _ => None end)
          (map_to_list s).*1).

(** *** Library calls *)

(** [os.mkdir] *)
Definition os_mkdir (p : path) : M unit := λ s,
  match llocate s p with
  | Found _ => Raise FileExistsError s
  | Vacant q => Ok () (<[q := Dir]> s)
  | Missing e => Raise e s
  end.

(** [Path.mkdir(parents=False, exist_ok=True)] *)
Definition mkdir_exist_ok (p : path) : M unit := λ s,
  match os_mkdir p s with
  | Ok x s' => Ok x s'
  | Raise FileNotFoundError s' => Raise FileNotFoundError s'
  | Raise e s' => if is_dir s' p then Ok () s' else Raise e s'
  end.

(** [Path.mkdir(parents=True, exist_ok=True)]; [n] bounds the number of
    missing ancestors and is the length of the path at the call sites. *)
Fixpoint mkdir_parents_aux (n : nat) (p : path) : M unit := λ s,
  match os_mkdir p s with
  | Ok x s' => Ok x s'
  | Raise FileNotFoundError s' =>
      match n with
      | S n' =>
          if decide (parent p = p) then Raise FileNotFoundError s'
          else (_ ← mkdir_parents_aux n' (parent p); mkdir_exist_ok p) s'
      | 0 => Raise FileNotFoundError s'
      end
  | Raise e s' => if is_dir s' p then Ok () s' else Raise e s'
  end.

Definition mkdir_parents (p : path) : M unit :=
  mkdir_parents_aux (length p) p.

(** [os.makedirs(p)] with [exist_ok=False] *)
Fixpoint makedirs_aux (n : nat) (p : path) : M unit :=
  _ ← (λ s,
        match n, p with
        | S n', _ :: _ =>
            if exists_ s (parent p) then Ok () s
            else match makedirs_aux n' (parent p) s with
                 | Raise FileExistsError s' => Ok () s'
                 | o => o
                 end
        | _, _ => Ok () s
        end);
  os_mkdir p.

Definition makedirs (p : path) : M unit := makedirs_aux (length p) p.

(** [os.readlink] *)
Definition readlink (p : path) : M string := λ s,
  match llocate s p with
  | Found q =>
      match s !! q with
      | Some (Link t) => Ok t s
      | Some _ => Raise OSError s
      | None => Raise FileNotFoundError s
      end
  | Vacant _ => Raise FileNotFoundError s
  | Missing e => Raise e s
  end.

(** [os.symlink(target, dst)] *)
Definition os_symlink (target : string) (dst : path) : M unit := λ s,
  match llocate s dst with
  | Found _ => Raise FileExistsError s
  | Vacant q => Ok () (<[q := Link target]> s)
  | Missing e => Raise e s
  end.

(** [shutil.copy2(src, dst)]: a destination that is a directory receives
    the file under the source's base name; source and destination are
    followed through symbolic links; the permission bits travel with the
    content. *)
Definition copy2 (src dst : path) : M unit := λ s,
  let dst := if is_dir s dst then dst ++ [basename src] else dst in
  match locate s src, locate s dst with
  | Found a, Found b =>
      if decide (a = b) then Raise SameFileError s
      else match s !! a, s !! b with
           | Some (File true data), Some (File true _) =>
               Ok () (<[b := File true data]> s)
           | Some (File true _), Some (File false _) => Raise PermissionError s
           | Some (File true _), Some Dir => Raise IsADirectoryError s
           | Some (File true _), _ => Raise FileNotFoundError s
           | Some (File false _), _ => Raise PermissionError s
           | Some Dir, _ => Raise IsADirectoryError s
           | _, _ => Raise FileNotFoundError s
           end
  | Found a, Vacant b =>
      match s !! a with
      | Some (File true data) => Ok () (<[b := File true data]> s)
      | Some (File false _) => Raise PermissionError s
      | Some Dir => Raise IsADirectoryError s
      | _ => Raise FileNotFoundError s
      end
  | Found a, Missing e =>
      match s !! a with
      | Some (File true _) => Raise e s
      | Some (File false _) => Raise PermissionError s
      | Some Dir => Raise IsADirectoryError s
      | _ => Raise FileNotFoundError s
      end
  | Vacant _, _ => Raise FileNotFoundError s
  | Missing e, _ => Raise e s
  end.

(** [os.scandir] / [Path.iterdir]: the names in a directory. *)
Definition listdir (p : path) : M (list string) := λ s,
  match locate s p with
  | Found q =>
      match s !! q with
      | Some Dir => Ok (children s q) s
      | Some _ => Raise NotADirectoryError s
      | None => Raise FileNotFoundError s
      end
  | Vacant _ => Raise FileNotFoundError s
  | Missing e => Raise e s
  end.

(** Python's recursion limit bounds the depth of every recursive copy. *)
Definition recursion_limit : nat := 1000.
Arguments recursion_limit : simpl never.

(** [shutil.copytree(src, dst)] with its defaults: symbolic links are
    followed, the destination must not exist, and the errors of the entries
    are collected and raised together once every entry was tried. *)
Fixpoint collect_errors (names : list string) (body : string → M unit)
    (errors : bool) : M bool := λ s,
  match names with
  | [] => Ok errors s
  | name :: names' =>
      match body name s with
      | Ok _ s' => collect_errors names' body errors s'
      | Raise RecursionError s' => Raise RecursionError s'
      | Raise _ s' => collect_errors names' body true s'
      end
  end.

Fixpoint copytree_aux (depth : nat) (src dst : path) : M unit :=
  match depth with
  | 0 => raise RecursionError
  | S depth' =>
      names ← listdir src;
      _ ← makedirs dst;
      errors ← collect_errors names (λ name,
                 let srcname := src ++ [name] in
                 let dstname := dst ++ [name] in
                 λ s,
                   if is_dir s srcname
                   then copytree_aux depth' srcname dstname s
                   else copy2 srcname dstname s) false;
      if errors : bool then raise ShutilError else mret ()
  end.

Definition copytree (src dst : path) : M unit :=
  copytree_aux recursion_limit src dst.

(** [shutil.rmtree(p)] and [shutil.rmtree(p, ignore_errors=True)] *)
Definition rmtree (p : path) : M unit := λ s,
  match llocate s p with
  | Found q =>
      match s !! q with
      | Some Dir => Ok () (filter (λ kv, ¬ q `prefix_of` kv.1) s)
      | Some (Link _) => Raise OSError s
      | Some (File _ _) => Raise NotADirectoryError s
      | None => Raise FileNotFoundError s
      end
  | Vacant _ => Raise FileNotFoundError s
  | Missing e => Raise e s
  end.

Definition rmtree_ignore_errors (p : path) : M unit := λ s,
  match rmtree p s with
  | Ok x s' => Ok x s'
  | Raise _ s' => Ok () s'
  end.

(** [Path.unlink] *)
Definition unlink (p : path) : M unit := λ s,
  match llocate s p with
  | Found q =>
      match s !! q with
      | Some Dir => Raise IsADirectoryError s
      | Some _ => Ok () (delete q s)
      | None => Raise FileNotFoundError s
      end
  | Vacant _ => Raise FileNotFoundError s
  | Missing e => Raise e s
  end.

(** [tempfile.mkdtemp]: [staging] is the fresh name that the call picks. *)
Definition mkdtemp (staging : path) : M path :=
  _ ← os_mkdir staging; mret staging.

(** ** The staging engine ([sync.prepare_staging], [sync._copy_dir])

    A sync path is modelled by its components, as [pathlib] splits the
    relative path string; [source_dir / sp] is [source_dir ++ sp]. *)

Fixpoint _copy_dir (depth : nat) (src dst : path) (resolve_symlinks : bool)
    : M unit :=
  match depth with
  | 0 => raise RecursionError
  | S depth' =>
      _ ← mkdir_parents dst;
      names ← listdir src;
      for_each names (λ name,
        let item := src ++ [name] in
        let item_dst := dst ++ [name] in
        λ s,
          if is_symlink s item then
            if resolve_symlinks then
              (* [item.resolve()] raises on a symbolic-link loop *)
              match locate s item with
              | Found real =>
                  if is_dir s real then copytree real item_dst s
                  else if is_file s real then copy2 real item_dst s
                  else Ok () s
              | Missing OSError => Raise RuntimeError s
              | _ => Ok () s   (* Skip broken symlinks *)
              end
            else (t ← readlink item; os_symlink t item_dst) s
          else if is_dir s item then
            _copy_dir depth' item item_dst resolve_symlinks s
          else if is_file s item then copy2 item item_dst s
          else Ok () s)
  end.

Definition prepare_staging_path (source_dir staging : path)
    (resolve_symlinks : bool) (sp : path) : M unit := λ s,
  let src := source_dir ++ sp in
  if negb (exists_ s src) then Ok () s
  else
    let dst := staging ++ sp in
    if is_file s src || (is_symlink s src && negb (is_dir s src)) then
      (_ ← mkdir_parents (parent dst);
       (λ s,
         if resolve_symlinks && is_symlink s src then
           match resolve s src with
           | Some real =>
               if is_dir s real then copytree real dst s
               else copy2 real dst s
           | None => Raise FileNotFoundError s
           end
         else if is_symlink s src && negb resolve_symlinks then
           (t ← readlink src; os_symlink t dst) s
         else copy2 src dst s) : M unit) s
    else if is_dir s src then
      _copy_dir recursion_limit src dst resolve_symlinks s
    else Ok () s.

Definition prepare_staging (tmp source_dir : path) (sync_paths : list path)
    (resolve_symlinks : bool) : M path :=
  staging ← mkdtemp tmp;
  _ ← for_each sync_paths
        (prepare_staging_path source_dir staging resolve_symlinks);
  mret staging.

(** ** The tree collector ([sync.collect_files]) *)

(** [str(p)] for a relative path *)
Definition str (p : path) : string := String.concat "/" p.

(** Paths compare component by component. *)
Fixpoint path_leb (p q : path) : bool :=
  match p, q with
  | [], _ => true
  | _ :: _, [] => false
  | a :: p', b :: q' =>
      if decide (a = b) then path_leb p' q' else String.leb a b
  end.

(** [src.rglob("*")]: every entry strictly below [src] that is reached
    through real directories; links below [src] are listed, not entered. *)
Definition rglob (s : fs) (src : path) : list path :=
  match locate s src with
  | Found d =>
      omap (λ q,
        match strip d q with
        | Some (n :: r) =>
            if forallb (λ k, bool_decide (s !! (d ++ take k (n :: r)) = Some Dir))
                       (seq 0 (length (n :: r)))
            then Some (src ++ n :: r) else None
        | _ => None
        end) (map_to_list s).*1
  | _ => []
  end.

Fixpoint fold_each {A B} (l : list A) (body : B → A → M B) (acc : B) : M B :=
  match l with
  | [] => mret acc
  | x :: l' => acc' ← body acc x; fold_each l' body acc'
  end.

Section collect.
(** Decoding of file bytes as text in the locale's encoding. *)
Variable decode : string → option string.

(** [Path.read_text]; [None] stands for the [UnicodeDecodeError] or
    [PermissionError] that [collect_files] catches. *)
Definition read_text (p : path) : M (option string) := λ s,
  match locate s p with
  | Found q =>
      match s !! q with
      | Some (File true data) => Ok (decode data) s
      | Some (File false _) => Ok None s
      | Some Dir => Raise IsADirectoryError s
      | _ => Raise FileNotFoundError s
      end
  | Vacant _ => Raise FileNotFoundError s
  | Missing e => Raise e s
  end.

Definition read_or_binary (p : path) : M string :=
  r ← read_text p; mret (default "<binary>" r).

(** The collector on a tree in which the user may enter every directory,
    for a sync path that is given by its parts: what [collect_path] below
    does when no directory is locked ([collect_path_unlocked]). *)
Definition collect_path_open (base_dir : path) (files : dict) (sp : path)
    : M dict := λ s,
  let src := base_dir ++ sp in
  if negb (exists_ s src) then Ok files s
  else if is_file s src then
    (c ← read_or_binary src; mret (dict_set (str sp) c files)) s
  else if is_dir s src then
    fold_each (merge_sort path_leb (rglob s src))
      (λ files f, (λ s,
         if is_file s f then
           let rel := str (default [] (strip base_dir f)) in
           (c ← read_or_binary f; mret (dict_set rel c files)) s
         else Ok files s) : M dict)
      files s
  else Ok files s.

Definition collect_files_open (base_dir : path) (sync_paths : list path)
    : M dict :=
  fold_each sync_paths (collect_path_open base_dir) [].
End collect.

(** *** Directories that may not be entered, and the limits of the system

    [Path.exists], [Path.is_file] and [Path.is_dir] (Python 3.11) return
    [False] for a path that does not exist, that leads through a file or
    that loops (ENOENT, ENOTDIR, ELOOP), and re-raise every other error of
    [stat]: that of a path which leads through a directory that the user
    may not search (EACCES, a [PermissionError]), and that of a name or a
    path which is too long (ENAMETOOLONG).  [open] fails in the same way.
    [locked] is the set of the real paths of the directories that the user
    may neither list nor search. *)

(** The bytes that the kernel takes in a name, and in a path with its
    final zero. *)
Definition NAME_MAX : nat := 255.
Definition PATH_MAX : nat := 4096.

(** The bytes of the string of an absolute path. *)
Fixpoint path_length (p : path) : nat :=
  match p with
  | [] => 0
  | c :: p' => S (String.length c) + path_length p'
  end.

Fixpoint pwalk1 (locked : gset path) (s : fs) (follow : bool) (cur : path)
    (rest : list string) : walk_step :=
  match rest with
  | [] => Stop (Found cur)
  | c :: rest' =>
      if decide (c = "") then pwalk1 locked s follow cur rest'
      else if decide (cur ∈ locked) then Stop (Missing PermissionError)
      else if decide (c = ".") then pwalk1 locked s follow cur rest'
      else if decide (c = "..")
      then pwalk1 locked s follow (removelast cur) rest'
      else if decide (NAME_MAX < String.length c)
      then Stop (Missing NameTooLong)
      else
        match s !! (cur ++ [c]) with
        | None =>
            Stop (match rest' with
                  | [] => Vacant (cur ++ [c])
                  | _ => Missing FileNotFoundError
                  end)
        | Some Dir => pwalk1 locked s follow (cur ++ [c]) rest'
        | Some (File _ _) =>
            Stop (match rest' with
                  | [] => Found (cur ++ [c])
                  | _ => Missing NotADirectoryError
                  end)
        | Some (Link t) =>
            match rest', follow with
            | [], false => Stop (Found (cur ++ [c]))
            | _, _ =>
                Jump (if is_absolute t then [] else cur)
                     (split_slash t ++ rest')
            end
        end
  end.

Fixpoint pwalk (fuel : nat) (locked : gset path) (s : fs) (follow : bool)
    (cur : path) (rest : list string) : located :=
  match pwalk1 locked s follow cur rest with
  | Stop r => r
  | Jump cur' rest' =>
      match fuel with
      | 0 => Missing OSError
      | S n => pwalk n locked s follow cur' rest'
      end
  end.

Definition plocate (locked : gset path) (s : fs) (p : path) : located :=
  if decide (PATH_MAX ≤ path_length p) then Missing NameTooLong
  else pwalk MAXSYMLINKS locked s true [] p.

(** A test on what [stat] finds, as [pathlib] makes it. *)
Definition path_test (test : option node → bool) (locked : gset path)
    (p : path) : M bool := λ s,
  match plocate locked s p with
  | Missing PermissionError => Raise PermissionError s
  | Missing NameTooLong => Raise NameTooLong s
  | r => Ok (test (node_at s r)) s
  end.

Definition path_exists : gset path → path → M bool :=
  path_test (λ nd, match nd with Some _ => true | None => false end).
Definition path_is_file : gset path → path → M bool :=
  path_test (λ nd, match nd with Some (File _ _) => true | _ => false end).
Definition path_is_dir : gset path → path → M bool :=
  path_test (λ nd, match nd with Some Dir => true | _ => false end).

(** Each level of directories that [rglob] descends takes a frame of the
    interpreter's stack; fewer than [rglob_depth] levels fit below the
    frames of the callers of [collect_files]. *)
Definition rglob_depth : nat := recursion_limit - 100.

(** The entries below the directory with real path [d], by their paths
    relative to [d]: those that are reached through real directories
    which may be listed.  A directory that may not be listed is skipped
    without an error. *)
Definition entries_below (locked : gset path) (s : fs) (d : path)
    : list path :=
  omap (λ q,
    match strip d q with
    | Some (n :: r) =>
        if forallb (λ k,
             bool_decide (s !! (d ++ take k (n :: r)) = Some Dir) &&
             bool_decide (d ++ take k (n :: r) ∉ locked))
             (seq 0 (length (n :: r)))
        then Some (n :: r) else None
    | _ => None
    end) (map_to_list s).*1.

(** [src.rglob("*")].  The walk enters the real directories that it lists
    (a directory nested too deep ends it with a [RecursionError], one
    whose path is too long with the error of [scandir]), and it examines
    the links that it lists with [stat]; a link that leads through a
    locked directory ends the walk of the directory that holds it, and is
    taken to be listed last there. *)
Definition path_rglob (locked : gset path) (src : path) : M (list path) :=
  isd ← path_is_dir locked src;
  if isd : bool then (λ s,
    match plocate locked s src with
    | Found d =>
        let rels := entries_below locked s d in
        if existsb (λ rel,
             bool_decide (s !! (d ++ rel) = Some Dir) &&
             bool_decide (rglob_depth ≤ length rel)) rels
        then Raise RecursionError s
        else if existsb (λ rel,
             match s !! (d ++ rel) with
             | Some Dir | Some (Link _) =>
                 match plocate locked s (src ++ rel) with
                 | Missing NameTooLong => true
                 | _ => false
                 end
             | _ => false
             end) rels
        then Raise NameTooLong s
        else Ok ((src ++.) <$> rels) s
    | _ => Ok [] s
    end) : M (list path)
  else mret [].

(** The parts of a sync path string, as [pathlib] splits it: empty and
    [.] components are dropped. *)
Definition sync_parts (sp : string) : path :=
  filter (λ c, c ≠ "" ∧ c ≠ ".") (split_slash sp).

Section collect_files.
Variable decode : string → option string.
Variable locked : gset path.

(** [Path.read_text] inside the [try] of [collect_files]; [None] stands
    for the [UnicodeDecodeError] or [PermissionError] that is caught. *)
Definition path_read_text (p : path) : M (option string) := λ s,
  match plocate locked s p with
  | Found q =>
      match s !! q with
      | Some (File true data) => Ok (decode data) s
      | Some (File false _) => Ok None s
      | Some Dir => Raise IsADirectoryError s
      | _ => Raise FileNotFoundError s
      end
  | Vacant _ => Raise FileNotFoundError s
  | Missing PermissionError => Ok None s
  | Missing e => Raise e s
  end.

Definition path_read_or_binary (p : path) : M string :=
  r ← path_read_text p; mret (default "<binary>" r).

(** The body of the loop over the sync paths.  A sync path is the string
    of the configuration: [base_dir / sp] is [sp] itself when [sp] is
    absolute, and the file of a sync path is recorded under the string
    [sp]. *)
Definition collect_path (base_dir : path) (files : dict) (sp : string)
    : M dict :=
  let src := if is_absolute sp then sync_parts sp
             else base_dir ++ sync_parts sp in
  e ← path_exists locked src;
  if negb e then mret files
  else
    f ← path_is_file locked src;
    if f : bool then
      c ← path_read_or_binary src; mret (dict_set sp c files)
    else
      d ← path_is_dir locked src;
      if d : bool then
        l ← path_rglob locked src;
        fold_each (merge_sort path_leb l)
          (λ files f,
             isf ← path_is_file locked f;
             if isf : bool then
               match strip base_dir f with
               | Some rel =>
                   c ← path_read_or_binary f;
                   mret (dict_set (str rel) c files)
               | None => raise ValueError   (* [f.relative_to(base_dir)] *)
               end
             else mret files)
          files
      else mret files.

Definition collect_files (base_dir : path) (sync_paths : list string)
    : M dict :=
  fold_each sync_paths (collect_path base_dir) [].
End collect_files.

(** ** The local adapter ([adapters.local.LocalEnvironment]) *)

Definition deploy_path (staging_dir target : path) (deployed : list path)
    (sp : path) : M (list path) := λ s,
  let src := staging_dir ++ sp in
  if negb (exists_ s src) then Ok deployed s
  else
    let dst := target ++ sp in
    (_ ← (if is_dir s src then
            _ ← (λ s, if exists_ s dst then rmtree dst s else Ok () s) : M unit;
            copytree src dst
          else
            _ ← mkdir_parents (parent dst);
            copy2 src dst);
     mret (deployed ++ [sp])) s.

Definition deploy (staging_dir target_dir : path) (sync_paths : list path)
    : M (list path) :=
  _ ← mkdir_parents target_dir;
  fold_each sync_paths (deploy_path staging_dir target_dir) [].

Definition clean_path (target : path) (sp : path) : M unit := λ s,
  let p := target ++ sp in
  if is_dir s p then rmtree p s
  else if exists_ s p then unlink p s
  else Ok () s.

Definition clean (target_dir : path) (sync_paths : list path) : M unit :=
  for_each sync_paths (clean_path target_dir).

(** ** The install command ([cli.install])

    The adapter interface of [adapters.base.Environment], restricted to
    the operations that [install] calls. *)
Record Environment := {
  is_available : M bool;
  env_deploy : path → path → list path → M (list path);
  env_clean : path → list path → M unit;
}.

Definition LocalEnvironment : Environment := {|
  is_available := mret true;
  env_deploy := deploy;
  env_clean := clean;
|}.

(** One configured target of an environment, together with the name that
    [mkdtemp] picks for its staging directory. *)
Record target_config := {
  local_path : path;
  sync_paths : list path;
  target_dir : path;
  resolve_symlinks : bool;
  tmp_name : path;
}.

(** The body of the loop over the targets of the environment.  Messages to
    the terminal and the symlink count, which is only displayed, are left
    out. *)
Definition install_target (adapter : Environment) (dry_run : bool)
    (t : target_config) : M unit :=
  present ← gets (λ s, exists_ s (local_path t));
  if negb present then mret ()
  else
    staging ← prepare_staging (tmp_name t) (local_path t) (sync_paths t)
                              (resolve_symlinks t);
    garnish ← gets (λ s,
      filter (λ sp, exists_ s (staging ++ sp) = true) (sync_paths t));
    match garnish with
    | [] => rmtree_ignore_errors staging
    | _ :: _ =>
        if dry_run then rmtree_ignore_errors staging
        else
          _ ← env_clean adapter (target_dir t) (sync_paths t);
          deployed ← env_deploy adapter staging (target_dir t) (sync_paths t);
          rmtree_ignore_errors staging
    end.

Definition install (adapter : Environment) (dry_run : bool)
    (targets : list target_config) : M unit :=
  available ← is_available adapter;
  if negb available then mret ()
  else for_each targets (install_target adapter dry_run).

(** ** Example file systems *)

(** A home directory in which [skills] is a symbolic link to a shared
    directory, and a source tree with a [skills] directory. *)
Definition linked_home : fs := list_to_map [
  ([], Dir); (["tmp"], Dir);
  (["src"], Dir); (["src"; "skills"], Dir);
  (["src"; "skills"; "a.md"], File true "a");
  (["home"], Dir); (["home"; "shared"], Dir);
  (["home"; "skills"], Link "shared")].

Definition linked_home_target : target_config := {|
  local_path := ["src"]; sync_paths := [["skills"]];
  target_dir := ["home"]; resolve_symlinks := false;
  tmp_name := ["tmp"; "ksync-0"] |}.

(** A staging area in which [commands] is a regular file, and a target
    directory in which [commands] is a directory with a file in it. *)
Definition file_over_dir : fs := list_to_map [
  ([], Dir); (["tmp"], Dir); (["tmp"; "staging"], Dir);
  (["tmp"; "staging"; "commands"], File true "new");
  (["home"], Dir); (["home"; "commands"], Dir);
  (["home"; "commands"; "old.md"], File true "old")].

(** ** Well-formed names

    A file name is not empty and holds no slash. *)

Fixpoint has_slash (s : string) : bool :=
  match s with
  | EmptyString => false
  | String c s' => Ascii.eqb c "/"%char || has_slash s'
  end.

Definition valid_name (c : string) : Prop := c ≠ "" ∧ has_slash c = false.
Definition valid_path (p : path) : Prop := Forall valid_name p.
Definition valid_fs (s : fs) : Prop :=
  map_Forall (λ q _, valid_path q) s.

#[global] Instance valid_name_dec c : Decision (valid_name c).
Proof. unfold valid_name. apply _. Defined.
#[global] Instance valid_path_dec p : Decision (valid_path p).
Proof. unfold valid_path. apply _. Defined.
#[global] Instance valid_fs_dec s : Decision (valid_fs s).
Proof. unfold valid_fs. apply _. Defined.

(** The record that the collector is expected to hold for the file that
    [p] names: its text, or the sentinel when the bytes do not decode or
    may not be read. *)
Definition expected_record (decode : string → option string) (s : fs)
    (p : path) : string :=
  match stat s p with
  | Some (File true data) => default "<binary>" (decode data)
  | _ => "<binary>"
  end.

(** Every record is keyed by the string of a well-formed relative path and
    holds what is expected for the file of that path. *)
Definition records_ok (decode : string → option string) (s : fs)
    (base_dir : path) (files : dict) : Prop :=
  ∀ k v, dict_get files k = Some v →
    ∃ p, valid_path p ∧ k = str p ∧
         v = expected_record decode s (base_dir ++ p).

(** A source tree with a text file, a file that does not decode and a
    file that may not be read; [decode_ascii] refuses the byte 255. *)
Definition decode_ascii (data : string) : option string :=
  if decide (data = String (Ascii.ascii_of_nat 255) "") then None else Some data.

Definition mixed_tree : fs := list_to_map [
  ([], Dir); (["src"], Dir);
  (["src"; "CLAUDE.md"], File true "# My Config");
  (["src"; "commands"], Dir);
  (["src"; "commands"; "logo.bin"], File true (String (Ascii.ascii_of_nat 255) ""));
  (["src"; "commands"; "secret.md"], File false "hidden")].

(** ** Well-formed paths and directories *)

(** A name that the kernel takes as the name of an entry. *)
Definition simple_name (c : string) : Prop := c ≠ "" ∧ c ≠ "." ∧ c ≠ "..".
Definition simple (p : path) : Prop := Forall simple_name p.
Definition simple_fs (s : fs) : Prop := map_Forall (λ q _, simple q) s.

#[global] Instance simple_name_dec c : Decision (simple_name c).
Proof. unfold simple_name. apply _. Defined.
#[global] Instance simple_dec p : Decision (simple p).
Proof. unfold simple. apply _. Defined.
#[global] Instance simple_fs_dec s : Decision (simple_fs s).
Proof. unfold simple_fs. apply _. Defined.

(** [p] and all the directories above it are real directories. *)
Definition real_dir (s : fs) (p : path) : Prop :=
  Forall (λ k, s !! take k p = Some Dir) (seq 0 (S (length p))).

#[global] Instance real_dir_dec s p : Decision (real_dir s p).
Proof. unfold real_dir. apply _. Defined.

(** Nothing exists at [p] or below it. *)
Definition free_below (s : fs) (p : path) : Prop :=
  map_Forall (λ q _, ¬ p `prefix_of` q) s.

#[global] Instance free_below_dec s p : Decision (free_below s p).
Proof. unfold free_below. apply _. Defined.

(** [p] is a free name in a real directory. *)
Definition vacant (s : fs) (p : path) : Prop :=
  p ≠ [] ∧ simple p ∧ real_dir s (parent p) ∧ free_below s p.

#[global] Instance vacant_dec s p : Decision (vacant s p).
Proof. unfold vacant. apply _. Defined.

(** [s'] is [s] with new entries at or below [dst], each with a simple
    path and within real directories. *)
Definition staged (dst : path) (s s' : fs) : Prop :=
  s ⊆ s' ∧
  ∀ q, is_Some (s' !! q) →
       is_Some (s !! q) ∨
       (dst `prefix_of` q ∧ simple q ∧ real_dir s' (parent q)).

(** ** The conditions under which staging is specified *)

(** No symbolic link has the name [n] as a component of its target. *)
Definition link_avoids (n : string) (nd : node) : Prop :=
  match nd with
  | Link t => n ∉ split_slash t
  | _ => True
  end.

#[global] Instance link_avoids_dec n nd : Decision (link_avoids n nd).
Proof. destruct nd; simpl; apply _. Defined.

Definition links_avoid (n : string) (s : fs) : Prop :=
  map_Forall (λ _ nd, link_avoids n nd) s.

#[global] Instance links_avoid_dec n s : Decision (links_avoid n s).
Proof. unfold links_avoid. apply _. Defined.

(** No sync path is a prefix of another one (nor equal to it). *)
Fixpoint incomparable (sps : list path) : Prop :=
  match sps with
  | [] => True
  | sp :: sps' =>
      Forall (λ sp', ¬ sp `prefix_of` sp' ∧ ¬ sp' `prefix_of` sp) sps' ∧
      incomparable sps'
  end.

#[global] Instance incomparable_dec sps : Decision (incomparable sps).
Proof. induction sps; simpl; apply _. Defined.

(** The staging directory [tmp] is a free name in a real directory, its
    name is fresh (no sync path, source path or link target mentions it),
    and the sync paths are non-empty, simple and pairwise incomparable. *)
Definition staging_ready (s : fs) (tmp source_dir : path)
    (sps : list path) : Prop :=
  simple_fs s ∧ vacant s tmp ∧
  links_avoid (basename tmp) s ∧ (basename tmp ∉ source_dir) ∧
  Forall (λ sp, sp ≠ [] ∧ simple sp ∧ (basename tmp ∉ sp)) sps ∧
  incomparable sps.

#[global] Instance staging_ready_dec s tmp source_dir sps :
  Decision (staging_ready s tmp source_dir sps).
Proof. unfold staging_ready. apply _. Defined.

(** What the staging area holds after the sync paths [done] were staged:
    [s] itself, the staging directory, and below it only the entries of
    staged sync paths and the directories above them. *)
Definition staging_inv (s : fs) (tmp : path) (done : list path)
    (sk : fs) : Prop :=
  s ⊆ sk ∧ simple_fs sk ∧ real_dir sk tmp ∧
  ∀ q, is_Some (sk !! q) →
    is_Some (s !! q) ∨
    (tmp `prefix_of` q ∧ real_dir sk (parent q) ∧
     ((∃ sp, sp ∈ done ∧ tmp ++ sp `prefix_of` q) ∨
      (sk !! q = Some Dir ∧
       (q = tmp ∨ ∃ sp, sp ∈ done ∧ q `prefix_of` tmp ++ sp)))).

(** The action of [prepare_staging] on a sync path that is a file or a
    symbolic link to one, at a free destination. *)
Definition stage_entry (rs : bool) (src dst : path) : M unit := λ s,
  if rs && is_symlink s src then
    match resolve s src with
    | Some real =>
        if is_dir s real then copytree real dst s
        else copy2 real dst s
    | None => Raise FileNotFoundError s
    end
  else if is_symlink s src && negb rs then
    (t ← readlink src; os_symlink t dst) s
  else copy2 src dst s.


(** A source tree with a regular file, a symbolic link to a file, a
    symbolic link to a directory and a directory, next to an empty
    temporary directory. *)
Definition dotfiles : fs := list_to_map [
  ([], Dir); (["tmp"], Dir); (["src"], Dir);
  (["src"; "CLAUDE.md"], File true "# My Config");
  (["src"; "shared"], Dir);
  (["src"; "shared"; "settings.json"], File true "{}");
  (["src"; "settings.json"], Link "shared/settings.json");
  (["src"; "skills"], Link "shared");
  (["src"; "commands"], Dir);
  (["src"; "commands"; "review.md"], File true "Review")].

Definition dotfiles_sync_paths : list path :=
  [["CLAUDE.md"]; ["settings.json"]; ["skills"]; ["commands"]; ["agents"]].

Definition dotfiles_target : target_config := {|
  local_path := ["src"]; sync_paths := dotfiles_sync_paths;
  target_dir := ["home"]; resolve_symlinks := true;
  tmp_name := ["tmp"; "ksync-0"] |}.


(** No entry on the way to [cur] is a symbolic link. *)
Definition link_free_chain (s : fs) (cur : path) : Prop :=
  ∀ c, c `prefix_of` cur → ∀ t, s !! c ≠ Some (Link t).

(** ** The remote snapshot of the diff command ([cli.diff])

    The loop that collects the files of the environment through the
    adapter's [list_files] and [read_file].  The answers of the adapter are
    functions of the path asked for: the environment does not change while
    the command runs. *)

Section remote.
Variable list_files : string → list string.
Variable read_file : string → option string.

Definition collect_remote_path (target_dir : string) (remote_files : dict)
    (sp : string) : dict :=
  let remote_path := target_dir +:+ "/" +:+ sp in
  let files_in_path := list_files remote_path in
  let remote_files :=
    foldl (λ remote_files rel,
             let full_rel := sp +:+ "/" +:+ rel in
             match read_file (remote_path +:+ "/" +:+ rel) with
             | Some content => dict_set full_rel content remote_files
             | None => remote_files
             end)
          remote_files files_in_path in
  (* Also try reading as a single file *)
  match read_file remote_path with
  | Some content =>
      if negb (dict_contains remote_files sp)
      then dict_set sp content remote_files
      else remote_files
  | None => remote_files
  end.

Definition collect_remote (target_dir : string) (sync_paths : list string)
    : dict :=
  foldl (collect_remote_path target_dir) [] sync_paths.

(** What a snapshot may hold: under a key the content that the adapter
    reads at that key below the target directory, and only keys that come
    from the sync paths [sps]. *)
Definition remote_ok (target_dir : string) (sps : list string) (d : dict)
    : Prop :=
  ∀ k c, dict_get d k = Some c →
    read_file (target_dir +:+ "/" +:+ k) = Some c ∧
    ∃ sp, sp ∈ sps ∧
      (k = sp ∨ ∃ rel, rel ∈ list_files (target_dir +:+ "/" +:+ sp) ∧
                       k = sp +:+ "/" +:+ rel).
End remote.


(** ** The SSH and Docker adapters: reading the environment
    ([adapters.ssh.SshEnvironment], [adapters.docker.DockerEnvironment])

    [subprocess.run] is the command runner of the Python library; what a
    command line returns is a parameter. *)

Record CompletedProcess := {
  returncode : Z;
  stdout : string;
  stderr : string;
}.

(** [line[n:]] *)
Fixpoint string_drop (n : nat) (s : string) : string :=
  match n, s with
  | 0, _ => s
  | S n', String _ s' => string_drop n' s'
  | S _, EmptyString => EmptyString
  end.

(** [s.lstrip("/")] *)
Fixpoint lstrip_slash (s : string) : string :=
  match s with
  | String c s' => if Ascii.eqb c "/"%char then lstrip_slash s' else s
  | EmptyString => EmptyString
  end.

(** The loop of [list_files] over the lines that [find path -type f]
    printed; it is the same in both adapters. *)
Definition find_files (path : string) (lines : list string) : list string :=
  omap (λ line,
    if String.prefix path line then
      let rel := lstrip_slash (string_drop (String.length path) line) in
      if decide (rel = "") then None else Some rel
    else None) lines.

Section remote_adapters.
Variable subprocess_run : list string → CompletedProcess.
(** [str.strip] and [str.splitlines] *)
Variable strip : string → string.
Variable splitlines : string → list string.

Definition ssh_run (host : string) (cmd : list string) : CompletedProcess :=
  subprocess_run (["ssh"; host] ++ cmd).

Definition ssh_read_file (host path : string) : option string :=
  let result := ssh_run host ["cat"; path] in
  if decide (returncode result = 0%Z) then Some (stdout result) else None.

Definition ssh_list_files (host path : string) : list string :=
  let result := ssh_run host ["find"; path; "-type"; "f"] in
  if decide (returncode result ≠ 0%Z) then []
  else merge_sort str_le
         (find_files path (splitlines (strip (stdout result)))).

(** [DockerEnvironment.run], given what [container_id] returned; [None]
    stands for the [RuntimeError] raised when there is no container. *)
Definition docker_run (cid : option string) (cmd : list string)
    : option CompletedProcess :=
  match cid with
  | None | Some "" => None
  | Some c => Some (subprocess_run (["docker"; "exec"; c] ++ cmd))
  end.

Definition docker_read_file (cid : option string) (path : string)
    : option (option string) :=
  result ← docker_run cid ["cat"; path];
  Some (if decide (returncode result = 0%Z) then Some (stdout result) else None).

Definition docker_list_files (cid : option string) (path : string)
    : option (list string) :=
  result ← docker_run cid ["find"; path; "-type"; "f"];
  Some (if decide (returncode result ≠ 0%Z) then []
        else merge_sort str_le
               (find_files path (splitlines (strip (stdout result))))).
End remote_adapters.

(** A name that [find] prints below the directory it was asked for: not
    empty, and not starting with a slash. *)
Definition relative_name (rel : string) : Prop :=
  match rel with
  | EmptyString => False
  | String c _ => c ≠ "/"%char
  end.

#[global] Instance relative_name_dec rel : Decision (relative_name rel).
Proof. destruct rel; simpl; apply _. Defined.

(** A run of slashes. *)
Definition slashes (sep : string) : Prop := lstrip_slash sep = "".


(** ** The git wrappers ([sync.git_push], [sync.git_pull])

    Every command runs in the repository directory with the same
    environment; what a command returns may depend on the commands that
    ran before it.  A computation threads the list of the command lines
    run so far, oldest first. *)

Inductive git_exn :=
| CalledProcessError (cmd : list string) (rc : Z).

Inductive git_outcome (A : Type) :=
| Returned (x : A) (log : list (list string))
| Failed (e : git_exn) (log : list (list string)).
Arguments Returned {A} x log.
Arguments Failed {A} e log.

Definition G (A : Type) : Type := list (list string) → git_outcome A.

Definition G_ret {A} (x : A) : G A := λ log, Returned x log.
Definition G_bind {A B} (f : A → G B) (m : G A) : G B := λ log,
  match m log with
  | Returned x log' => f x log'
  | Failed e log' => Failed e log'
  end.

#[global] Instance G_mret : MRet G := @G_ret.
#[global] Instance G_mbind : MBind G := @G_bind.

Definition commands {A} (o : git_outcome A) : list (list string) :=
  match o with Returned _ log => log | Failed _ log => log end.

(** The result of [git_push]: the dictionary with the keys [commit_hash]
    and [files_staged]. *)
Record push_result := {
  commit_hash : option string;
  files_staged : list string;
}.

(** [x or y] on strings *)
Definition str_or (x y : string) : string := if decide (x = "") then y else x.

Section git.
Variable subprocess_run : list (list string) → list string → CompletedProcess.
Variable strip : string → string.
Variable splitlines : string → list string.

(** [subprocess.run(cmd, check=check, ...)] *)
Definition git_run (check : bool) (cmd : list string) : G CompletedProcess :=
  λ log,
    let result := subprocess_run log cmd in
    if check && bool_decide (returncode result ≠ 0%Z)
    then Failed (CalledProcessError cmd (returncode result)) (log ++ [cmd])
    else Returned result (log ++ [cmd]).

Definition git_push (sync_paths : list string) (message : string)
    (dry_run : bool) : G push_result :=
  (* Stage files *)
  _ ← git_run true (["git"; "add"; "--"] ++ sync_paths);
  (* Check if there's anything to commit *)
  result ← git_run false ["git"; "diff"; "--cached"; "--name-only"];
  let staged := filter (λ f, f ≠ "") (splitlines (strip (stdout result))) in
  if decide (staged = []) then
    mret {| commit_hash := None; files_staged := [] |}
  else if dry_run then
    (* Unstage *)
    _ ← git_run false (["git"; "reset"; "HEAD"; "--"] ++ sync_paths);
    mret {| commit_hash := Some "(dry-run)"; files_staged := staged |}
  else
    _ ← git_run true ["git"; "commit"; "-m"; message];
    result ← git_run false ["git"; "rev-parse"; "--short"; "HEAD"];
    let hash := strip (stdout result) in
    _ ← git_run true ["git"; "push"];
    mret {| commit_hash := Some hash; files_staged := staged |}.

Definition git_pull (dry_run : bool) : G string :=
  if dry_run then
    result ← git_run false ["git"; "fetch"; "--dry-run"];
    mret (str_or (strip (stderr result)) "Already up to date.")
  else
    result ← git_run true ["git"; "pull"];
    mret (str_or (strip (stdout result)) "Already up to date.").
End git.


(** Every record of a snapshot is for a regular file at or below one of the
    sync paths [sps]; it is keyed by the file's path relative to
    [base_dir] and holds what is expected for that file. *)
Definition records_sound (decode : string → option string) (s : fs)
    (base_dir : path) (sps : list path) (files : dict) : Prop :=
  ∀ k v, dict_get files k = Some v →
    ∃ sp rel, sp ∈ sps ∧ sp `prefix_of` rel ∧ k = str rel ∧
              is_file s (base_dir ++ rel) = true ∧
              v = expected_record decode s (base_dir ++ rel).


(** ** The local adapter: reading the environment
    ([LocalEnvironment.read_file], [LocalEnvironment.list_files]) *)

Section local_reading.
Variable decode : string → option string.

(** [None] stands for the [None] that [read_file] returns. *)
Definition local_read_file (p : path) : M (option string) := λ s,
  if exists_ s p && is_file s p then read_text decode p s
  else Ok None s.
End local_reading.

Definition local_list_files (base : path) : M (list string) := λ s,
  if negb (exists_ s base) then Ok [] s
  else
    Ok (omap (λ f, if is_file s f
                   then Some (str (default [] (strip base f)))
                   else None)
             (merge_sort path_leb (rglob s base))) s.


(** ** The configuration file ([config.py])

    The file holds one JSON document.  [json.dumps] and [json.loads]
    belong to the Python library and are inverse to each other on the
    values below; [save_config] is modelled by the document it builds and
    [load_config] by what it makes of a document.  Fields hold Python
    values, which are not checked against the annotations of the
    dataclasses. *)

Module config.

(** JSON values, as Python sees them ([None], [bool], [int], [str],
    [list], [dict] in insertion order). *)
Unset Elimination Schemes.
Inductive json :=
| JNull
| JBool (b : bool)
| JNum (n : Z)
| JStr (s : string)
| JArr (l : list json)
| JObj (kvs : list (string * json)).
Set Elimination Schemes.

(** Truth value of a Python value. *)
Definition truthy (v : json) : bool :=
  match v with
  | JNull => false
  | JBool b => b
  | JNum n => negb (Z.eqb n 0)
  | JStr s => negb (String.eqb s "")
  | JArr l => match l with [] => false | _ => true end
  | JObj kvs => match kvs with [] => false | _ => true end
  end.

(** [v is True] *)
Definition is_True (v : json) : bool :=
  match v with JBool true => true | _ => false end.

(** Dictionaries with string keys, in insertion order. *)
Fixpoint lookup_key {V} (k : string) (d : list (string * V)) : option V :=
  match d with
  | [] => None
  | (k', v) :: d' => if decide (k' = k) then Some v else lookup_key k d'
  end.

(** [d[k] = v] *)
Fixpoint set_key {V} (k : string) (v : V) (d : list (string * V))
    : list (string * V) :=
  match d with
  | [] => [(k, v)]
  | (k', v') :: d' =>
      if decide (k' = k) then (k, v) :: d' else (k', v') :: set_key k v d'
  end.

(** [None] stands for the exception that Python raises ([KeyError],
    [TypeError], [AttributeError]). *)

(** [v[k]] *)
Definition getitem (v : json) (k : string) : option json :=
  match v with
  | JObj kvs => lookup_key k kvs
  | _ => None
  end.

(** [v.get(k, dflt)] *)
Definition get (v : json) (k : string) (dflt : json) : option json :=
  match v with
  | JObj kvs => Some (default dflt (lookup_key k kvs))
  | _ => None
  end.

(** [v.items()] *)
Definition items (v : json) : option (list (string * json)) :=
  match v with
  | JObj kvs => Some kvs
  | _ => None
  end.

(** [for x in v] *)
Definition iter (v : json) : option (list json) :=
  match v with
  | JArr l => Some l
  | JObj kvs => Some (JStr <$> kvs.*1)
  | JStr s => Some ((λ c, JStr (String c "")) <$> String.list_ascii_of_string s)
  | _ => None
  end.

Record TargetConfig := {
  name : json;
  profile : json;
  repo : json;
  local_dir : json;
  sync_paths : json;
  git_env : json;
}.

Record EnvTargetConfig := {
  target_dir : json;
  resolve_symlinks : json;
}.

Record EnvironmentConfig := {
  env_name : json;
  type : json;
  env_targets : list (string * EnvTargetConfig);
  image : json;
  host : json;
}.

Record Config := {
  version : json;
  targets : list TargetConfig;
  environments : list (string * EnvironmentConfig);
}.

Definition CONFIG_VERSION : json := JNum 1.

(** [t.name == name] for a name that is a string *)
Definition name_is (t : TargetConfig) (n : string) : bool :=
  match name t with
  | JStr s => String.eqb s n
  | _ => false
  end.

Definition get_target (c : Config) (n : string) : option TargetConfig :=
  List.find (λ t, name_is t n) (targets c).

Definition get_environment (c : Config) (n : string)
    : option EnvironmentConfig :=
  lookup_key n (environments c).

Definition _env_target_from_dict (d : json) : option EnvTargetConfig :=
  td ← getitem d "target_dir";
  rs ← get d "resolve_symlinks" (JBool true);
  Some {| target_dir := td; resolve_symlinks := rs |}.

Definition _environment_from_dict (ename : string) (d : json)
    : option EnvironmentConfig :=
  tgts ← get d "targets" (JObj []);
  tgts ← items tgts;
  targets ← foldl (λ acc '(tname, tconf),
                     targets ← acc;
                     t ← _env_target_from_dict tconf;
                     Some (set_key tname t targets))
                  (Some []) tgts;
  ty ← getitem d "type";
  img ← get d "image" JNull;
  hst ← get d "host" JNull;
  Some {| env_name := JStr ename; type := ty; env_targets := targets;
          image := img; host := hst |}.

(** [load_config], from the document that [json.loads] returns. *)
Definition load_config (data : json) : option Config :=
  ts ← get data "targets" (JArr []);
  ts ← iter ts;
  targets ← foldl (λ acc t,
                     targets ← acc;
                     n ← getitem t "name";
                     p ← getitem t "profile";
                     r ← getitem t "repo";
                     l ← getitem t "local_dir";
                     sp ← get t "sync_paths" (JArr []);
                     ge ← get t "git_env" (JObj []);
                     Some (targets ++ [{| name := n; profile := p; repo := r;
                                          local_dir := l; sync_paths := sp;
                                          git_env := ge |}]))
                  (Some []) ts;
  es ← get data "environments" (JObj []);
  es ← items es;
  environments ← foldl (λ acc '(ename, econf),
                          environments ← acc;
                          e ← _environment_from_dict ename econf;
                          Some (set_key ename e environments))
                       (Some []) es;
  v ← get data "version" CONFIG_VERSION;
  Some {| version := v; targets := targets; environments := environments |}.

(** [save_config]: the document that is handed to [json.dumps]. *)
Definition save_target (t : TargetConfig) : json :=
  let td := [("name", name t); ("profile", profile t); ("repo", repo t);
             ("local_dir", local_dir t); ("sync_paths", sync_paths t)] in
  JObj (if truthy (git_env t) then set_key "git_env" (git_env t) td else td).

Definition save_env_target (tconf : EnvTargetConfig) : json :=
  let etd := [("target_dir", target_dir tconf)] in
  JObj (if negb (is_True (resolve_symlinks tconf))
        then set_key "resolve_symlinks" (resolve_symlinks tconf) etd
        else etd).

Definition save_environment (env : EnvironmentConfig) : json :=
  let ed := [("type", type env); ("targets", JObj [])] in
  let ed := if truthy (image env) then set_key "image" (image env) ed else ed in
  let ed := if truthy (host env) then set_key "host" (host env) ed else ed in
  let tgts :=
    foldl (λ acc '(tname, tconf), set_key tname (save_env_target tconf) acc)
          [] (env_targets env) in
  JObj (set_key "targets" (JObj tgts) ed).

Definition save_config (c : Config) : json :=
  JObj [("version", version c);
        ("targets", JArr (save_target <$> targets c));
        ("environments",
         JObj (foldl (λ acc '(ename, env),
                        set_key ename (save_environment env) acc)
                     [] (environments c)))].

(** A configuration that the file can hold as it is: an empty [git_env] is
    the empty dictionary, an image or host that is not set is [None], and
    an environment carries the name it is filed under. *)
Definition storable_target (t : TargetConfig) : Prop :=
  truthy (git_env t) = false → git_env t = JObj [].

Definition storable_environment (ename : string) (env : EnvironmentConfig)
    : Prop :=
  env_name env = JStr ename ∧
  (truthy (image env) = false → image env = JNull) ∧
  (truthy (host env) = false → host env = JNull) ∧
  NoDup (env_targets env).*1.

Definition storable (c : Config) : Prop :=
  Forall storable_target (targets c) ∧
  Forall (λ kv, storable_environment kv.1 kv.2) (environments c) ∧
  NoDup (environments c).*1.

End config.


(** A target directory in which [a] is a symbolic link to the directory
    [x] beside it. *)
Definition aliased_home : fs := list_to_map [
  ([], Dir); (["home"], Dir); (["home"; "a"], Link "x");
  (["home"; "x"], Dir); (["home"; "x"; "b"], File true "b");
  (["home"; "keep.md"], File true "keep")].


(** ** Trees within the limits of the system *)

Definition short_name (c : string) : Prop := String.length c ≤ NAME_MAX.

#[global] Instance short_name_dec c : Decision (short_name c).
Proof. unfold short_name. apply _. Defined.

Definition link_target_short (nd : node) : Prop :=
  match nd with
  | Link t => Forall short_name (split_slash t)
  | _ => True
  end.

#[global] Instance link_target_short_dec nd : Decision (link_target_short nd).
Proof. destruct nd; apply _. Defined.

(** No name of the tree, of a link target or of a sync path is longer than
    [NAME_MAX]; no path that the collector forms is as long as [PATH_MAX];
    and no entry lies [rglob_depth] levels deep. *)
Definition within_limits (s : fs) (base_dir : path)
    (sync_paths : list string) : Prop :=
  Forall (λ sp, Forall short_name (base_dir ++ sync_parts sp) ∧
                path_length (base_dir ++ sync_parts sp) < PATH_MAX)
         sync_paths ∧
  map_Forall (λ q nd,
    Forall short_name q ∧ link_target_short nd ∧ length q < rglob_depth ∧
    Forall (λ sp, path_length (base_dir ++ sync_parts sp ++ q) < PATH_MAX)
           sync_paths) s.

#[global] Instance within_limits_dec s base_dir sync_paths :
  Decision (within_limits s base_dir sync_paths).
Proof. unfold within_limits. apply _. Defined.

(** The record of a regular file with the given permission and bytes: its
    text, or the sentinel when the bytes may not be read or do not
    decode. *)
Definition record (decode : string → option string) (perm : bool)
    (data : string) : string :=
  if perm then default "<binary>" (decode data) else "<binary>".

(** A source tree with a directory that the user may not enter. *)
Definition vault_tree : fs := list_to_map [
  ([], Dir); (["src"], Dir);
  (["src"; "notes.md"], File true "notes");
  (["src"; "vault"], Dir);
  (["src"; "vault"; "key.txt"], File true "k")].

Definition vault_locked : gset path := {[ ["src"; "vault"] ]}.

(** A name as it stands in a normalised path: not empty, not [.], and
    without a slash. *)
Definition part (c : string) : Prop := (c ≠ "" ∧ c ≠ ".") ∧ has_slash c = false.

(** Every key names a regular file below the base directory, and its
    record holds what is expected for that file. *)
Definition records_fit (decode : string → option string) (s : fs)
    (base_dir : path) (files : dict) : Prop :=
  ∀ k v, dict_get files k = Some v →
    is_file s (base_dir ++ sync_parts k) = true ∧
    v = expected_record decode s (base_dir ++ sync_parts k).

(** * Properties *)

(** The bounds stay folded in proofs. *)
Opaque MAXSYMLINKS recursion_limit.

(** ** The order on strings *)

Lemma ascii_compare_refl a : Ascii.compare a a = Eq.
Proof. unfold Ascii.compare. apply N.compare_refl. Qed.

Lemma ascii_compare_lt_trans a b c :
  Ascii.compare a b = Lt → Ascii.compare b c = Lt → Ascii.compare a c = Lt.
Proof.
  unfold Ascii.compare. rewrite !N.compare_lt_iff. apply N.lt_trans.
Qed.

Lemma str_compare_refl a : String.compare a a = Eq.
Proof.
  induction a as [|c a IH]; simpl; [done|]. by rewrite ascii_compare_refl.
Qed.

Lemma str_compare_lt_trans a b c :
  String.compare a b = Lt → String.compare b c = Lt → String.compare a c = Lt.
Proof.
  revert b c. induction a as [|x a IH]; intros [|y b] [|z c]; simpl; try done.
  destruct (Ascii.compare x y) eqn:Hxy; try done.
  - apply Ascii.compare_eq_iff in Hxy as ->.
    destruct (Ascii.compare y z); try done. apply IH.
  - destruct (Ascii.compare y z) eqn:Hyz; try done.
    + apply Ascii.compare_eq_iff in Hyz as <-. by rewrite Hxy.
    + by rewrite (ascii_compare_lt_trans _ _ _ Hxy Hyz).
Qed.

Lemma str_le_alt a b : str_le a b ↔ a = b ∨ str_lt a b.
Proof.
  unfold str_le, str_lt, String.leb, String.ltb.
  destruct (String.compare a b) eqn:H; split; try done; auto.
  - intros _. left. by apply String.compare_eq_iff.
  - intros [->|?]; [|done]. by rewrite str_compare_refl in H.
Qed.

Lemma str_lt_irrefl a : ¬ str_lt a a.
Proof. unfold str_lt, String.ltb. by rewrite str_compare_refl. Qed.

Lemma str_lt_trans a b c : str_lt a b → str_lt b c → str_lt a c.
Proof.
  unfold str_lt, String.ltb.
  destruct (String.compare a b) eqn:H1; try done.
  destruct (String.compare b c) eqn:H2; try done.
  by rewrite (str_compare_lt_trans _ _ _ H1 H2).
Qed.

#[global] Instance str_le_trans : Transitive str_le.
Proof.
  intros a b c. rewrite !str_le_alt.
  intros [->|H1] [->|H2]; eauto using str_lt_trans.
Qed.

#[global] Instance str_le_total : Total str_le.
Proof. intros a b. apply String.leb_total. Qed.

#[global] Instance str_le_antisym : AntiSymm (=) str_le.
Proof. intros a b. apply String.leb_antisym. Qed.

(** ** Dictionaries *)

Lemma dict_get_set (d : dict) k v k' :
  dict_get (dict_set k v d) k' = if decide (k = k') then Some v else dict_get d k'.
Proof.
  induction d as [|[k0 v0] d IH]; simpl.
  - done.
  - destruct (decide (k0 = k)) as [->|Hne]; simpl.
    + by destruct (decide (k = k')).
    + rewrite IH. destruct (decide (k0 = k')) as [->|]; [|done].
      by rewrite decide_False.
Qed.

Lemma elem_of_dict_keyset (d : dict) k :
  k ∈ dict_keyset d ↔ is_Some (dict_get d k).
Proof.
  unfold dict_keyset. rewrite elem_of_list_to_set.
  induction d as [|[k0 v0] d IH]; simpl.
  - rewrite elem_of_nil. split; [done|]. by intros [? ?].
  - rewrite elem_of_cons, IH. destruct (decide (k0 = k)) as [->|]; [split; eauto|].
    split; [intros [?|?]; done|by right].
Qed.

Lemma dict_keyset_ext (d1 d2 : dict) :
  (∀ k, dict_get d1 k = dict_get d2 k) → dict_keyset d1 = dict_keyset d2.
Proof.
  intros H. apply set_eq. intros k. by rewrite !elem_of_dict_keyset, H.
Qed.

(** ** The sorted list of keys *)

Lemma sorted_StronglySorted (s : gset string) :
  StronglySorted str_le (sorted s).
Proof. apply StronglySorted_merge_sort; apply _. Qed.

Lemma sorted_NoDup (s : gset string) : NoDup (sorted s).
Proof.
  unfold sorted. rewrite merge_sort_Permutation. apply NoDup_elements.
Qed.

Lemma elem_of_sorted (s : gset string) k : k ∈ sorted s ↔ k ∈ s.
Proof. unfold sorted. by rewrite merge_sort_Permutation, elem_of_elements. Qed.

(** Whatever the order in which a set is iterated, sorting gives one list. *)
Lemma sorted_iteration_order (s : gset string) (l : list string) :
  l ≡ₚ elements s → merge_sort str_le l = sorted s.
Proof.
  intros Hl. apply (StronglySorted_unique str_le).
  - apply StronglySorted_merge_sort; apply _.
  - apply sorted_StronglySorted.
  - unfold sorted. by rewrite !merge_sort_Permutation.
Qed.

Lemma StronglySorted_le_lt (l : list string) :
  StronglySorted str_le l → NoDup l → StronglySorted str_lt l.
Proof.
  induction 1 as [|x l Hl IH Hx]; intros Hnd; constructor.
  - apply IH. by apply NoDup_cons in Hnd as [_ ?].
  - apply NoDup_cons in Hnd as [Hx' _].
    apply Forall_forall. intros y Hy.
    rewrite Forall_forall in Hx. destruct (proj1 (str_le_alt x y) (Hx y Hy)) as [->|]; done.
Qed.

Lemma StronglySorted_omap_fst {A} (R : relation string) (f : string → option A)
    (l : list string) :
  StronglySorted R l →
  StronglySorted R (omap (λ k, (k,.) <$> f k) l).*1.
Proof.
  induction 1 as [|x l Hl IH Hx]; simpl; [constructor|].
  destruct (f x) as [y|]; simpl; [|done].
  constructor; [done|].
  rewrite Forall_forall in Hx |- *. intros k Hk. apply Hx.
  apply list_elem_of_fmap in Hk as [[k' y'] [-> Hk]].
  apply list_elem_of_omap in Hk as [k'' [Hk'' Heq]].
  destruct (f k''); simplify_eq/=. done.
Qed.

(** ** The tree differ *)

Section diff_properties.
Variable splitlines : string → list string.
Variable unified_diff :
  list string → list string → string → string → list string.


Lemma diff_path_ext (l1 r1 l2 r2 : dict) p :
  (∀ k, dict_get l1 k = dict_get l2 k) →
  (∀ k, dict_get r1 k = dict_get r2 k) →
  diff_path splitlines unified_diff l1 r1 p = diff_path splitlines unified_diff l2 r2 p.
Proof.
  intros Hl Hr. unfold diff_path.
  unfold dict_get_default, dict_contains. by rewrite !Hl, !Hr.
Qed.

Lemma diff_records_snd (l r : dict) : (diff_records splitlines unified_diff l r).*2 = diff_trees splitlines unified_diff l r.
Proof.
  unfold diff_records, diff_trees.
  induction (all_paths l r) as [|p ps IH]; simpl; [done|].
  destruct (diff_path splitlines unified_diff l r p); simpl; [f_equal|]; exact IH.
Qed.

Lemma all_paths_sorted (l r : dict) : StronglySorted str_lt (all_paths l r).
Proof.
  apply StronglySorted_le_lt; [apply sorted_StronglySorted|apply sorted_NoDup].
Qed.

Lemma elem_of_all_paths (l r : dict) p :
  p ∈ all_paths l r ↔ is_Some (dict_get l p) ∨ is_Some (dict_get r p).
Proof.
  unfold all_paths.
  by rewrite elem_of_sorted, elem_of_union, !elem_of_dict_keyset.
Qed.

(** What one iteration appends, by the four cases of the path. *)
Lemma diff_path_local_only (l r : dict) p c :
  dict_get l p = Some c → dict_get r p = None → c ≠ "" →
  diff_path splitlines unified_diff l r p = Some ("  + " +:+ p +:+ " (local only)").
Proof.
  intros Hl Hr Hc. unfold diff_path.
  unfold dict_get_default, dict_contains. rewrite Hl, Hr. simpl.
  by rewrite decide_False.
Qed.

Lemma diff_path_remote_only (l r : dict) p c :
  dict_get l p = None → dict_get r p = Some c → c ≠ "" →
  diff_path splitlines unified_diff l r p = Some ("  - " +:+ p +:+ " (remote only)").
Proof.
  intros Hl Hr Hc. unfold diff_path.
  unfold dict_get_default, dict_contains. rewrite Hl, Hr. simpl.
  by rewrite decide_False.
Qed.

Lemma diff_path_identical (l r : dict) p c :
  dict_get l p = Some c → dict_get r p = Some c → diff_path splitlines unified_diff l r p = None.
Proof.
  intros Hl Hr. unfold diff_path.
  unfold dict_get_default. rewrite Hl, Hr. simpl. by rewrite decide_True.
Qed.

(** C1 (failing input).  A path that is present only in the local
    snapshot, with empty content, gets no record: the lookup default [""]
    makes the absent side compare equal, and the loop continues before
    the membership test.  The same happens on the remote side. *)
Theorem diff_trees_drops_empty_one_sided :
  diff_trees splitlines unified_diff [("empty.txt", "")] [] = [] ∧
  diff_trees splitlines unified_diff [] [("empty.txt", "")] = [].
Proof. split; vm_compute; reflexivity. Qed.

(** C7.  Diffing a snapshot against itself returns the empty sequence. *)
Theorem diff_trees_self (s : dict) : diff_trees splitlines unified_diff s s = [].
Proof.
  unfold diff_trees.
  induction (all_paths s s) as [|p ps IH]; simpl; [done|].
  unfold diff_path at 1. by rewrite decide_True.
Qed.

(** C8.  The records come out in strictly increasing order of the paths
    they were emitted for, and two pairs of snapshots that hold the same
    key-to-content mappings, whatever the insertion order of their keys,
    give the same output. *)
Theorem diff_trees_deterministic_order (l1 r1 l2 r2 : dict) :
  (∀ k, dict_get l1 k = dict_get l2 k) →
  (∀ k, dict_get r1 k = dict_get r2 k) →
  (diff_records splitlines unified_diff l1 r1).*2 = diff_trees splitlines unified_diff l1 r1 ∧
  StronglySorted str_lt (diff_records splitlines unified_diff l1 r1).*1 ∧
  diff_trees splitlines unified_diff l1 r1 = diff_trees splitlines unified_diff l2 r2.
Proof.
  intros Hl Hr. split; [apply diff_records_snd|]. split.
  - apply StronglySorted_omap_fst, all_paths_sorted.
  - unfold diff_trees, all_paths.
    rewrite (dict_keyset_ext _ _ Hl), (dict_keyset_ext _ _ Hr).
    apply list_omap_ext. apply Forall2_same_length_lookup_2; [done|].
    intros i x y Hx Hy. simplify_eq. by apply diff_path_ext.
Qed.
End diff_properties.

Lemma diff_trees_deterministic_order_witness :
  let l1 := [("b.md", "2"); ("a.md", "1")] in
  let l2 := [("a.md", "1"); ("b.md", "2")] in
  let r := [("c.md", "3")] in
  let sl := λ _ : string, @nil string in
  let ud := λ (_ _ : list string) (_ _ : string), @nil string in
  (diff_records sl ud l1 r).*2 = diff_trees sl ud l1 r ∧
  StronglySorted str_lt (diff_records sl ud l1 r).*1 ∧
  diff_trees sl ud l1 r = diff_trees sl ud l2 r.
Proof.
  intros l1 l2 r sl ud.
  apply (diff_trees_deterministic_order sl ud l1 r l2 r).
  - intros k. simpl. repeat case_decide; congruence.
  - reflexivity.
Defined.

(** ** The install flow *)

(** C4 (failing input).  [LocalEnvironment.clean] raises on a destination
    that is a symbolic link to a directory ([shutil.rmtree] refuses it);
    the exception leaves [install] before the [shutil.rmtree(staging)] that
    follows the deploy, and the staging directory stays behind with its
    content. *)
Theorem install_leaks_staging_on_adapter_error :
  ∃ s', install LocalEnvironment false [linked_home_target] linked_home
        = Raise OSError s' ∧
        s' !! ["tmp"; "ksync-0"] = Some Dir ∧
        s' !! ["tmp"; "ksync-0"; "skills"; "a.md"] = Some (File true "a").
Proof. eexists. split; [vm_compute; reflexivity|]. split; reflexivity. Qed.

(** ** The local adapter on a destination of another kind *)

(** C6 (failing input).  Deploying a staged regular file onto an existing
    destination directory reports the sync path as deployed, keeps the
    directory and its old content, and puts the file inside it. *)
Theorem deploy_file_onto_directory_merges :
  ∃ s', deploy ["tmp"; "staging"] ["home"] [["commands"]] file_over_dir
        = Ok [["commands"]] s' ∧
        s' !! ["home"; "commands"] = Some Dir ∧
        s' !! ["home"; "commands"; "old.md"] = Some (File true "old") ∧
        s' !! ["home"; "commands"; "commands"] = Some (File true "new").
Proof. eexists. split; [vm_compute; reflexivity|]. repeat split; reflexivity. Qed.

(** ** Path resolution in a smaller file system *)

Lemma walk1_subseteq (s' s : fs) follow cur rest :
  s' ⊆ s →
  match walk1 s' follow cur rest with
  | Stop (Found p) => walk1 s follow cur rest = Stop (Found p)
  | Jump c r => walk1 s follow cur rest = Jump c r
  | _ => True
  end.
Proof.
  intros Hsub. revert cur. induction rest as [|c rest IH]; intros cur; simpl.
  - done.
  - destruct (decide (c = "" ∨ c = ".")); [apply IH|].
    destruct (decide (c = "..")); [apply IH|].
    destruct (s' !! (cur ++ [c])) as [nd|] eqn:Hlk.
    + rewrite (lookup_weaken _ _ _ _ Hlk Hsub).
      destruct nd as [perm data|t|]; [| |apply IH].
      * by destruct rest.
      * by destruct rest, follow.
    + by destruct rest.
Qed.

Lemma walk_subseteq (n : nat) (s' s : fs) follow cur rest p :
  s' ⊆ s → walk n s' follow cur rest = Found p →
  walk n s follow cur rest = Found p.
Proof.
  intros Hsub. revert cur rest. induction n as [|n IH]; intros cur rest; simpl;
    pose proof (walk1_subseteq s' s follow cur rest Hsub) as H1;
    destruct (walk1 s' follow cur rest) as [[p'| |]|c r]; try done.
  - rewrite H1. done.
  - rewrite H1. done.
  - rewrite H1. apply IH.
Qed.

(** ** The local adapter: what [clean] touches *)

Lemma rmtree_effect p s :
  final (rmtree p s) = s ∨
  ∃ r, llocate s p = Found r ∧
       final (rmtree p s) = filter (λ kv, ¬ r `prefix_of` kv.1) s.
Proof.
  unfold rmtree. destruct (llocate s p) as [r| |]; simpl; auto.
  destruct (s !! r) as [[| |]|]; simpl; eauto.
Qed.

Lemma unlink_effect p s :
  final (unlink p s) = s ∨
  ∃ r, llocate s p = Found r ∧ final (unlink p s) = delete r s.
Proof.
  unfold unlink. destruct (llocate s p) as [r| |]; simpl; auto.
  destruct (s !! r) as [[| |]|]; simpl; eauto.
Qed.

Lemma clean_path_effect target sp s :
  final (clean_path target sp s) ⊆ s ∧
  ∀ q, final (clean_path target sp s) !! q ≠ s !! q →
       ∃ r, llocate s (target ++ sp) = Found r ∧ r `prefix_of` q.
Proof.
  unfold clean_path.
  destruct (is_dir s (target ++ sp)).
  { destruct (rmtree_effect (target ++ sp) s) as [->|(r & Hr & ->)]; [done|].
    split; [apply map_filter_subseteq|].
    intros q Hq. exists r. split; [done|].
    destruct (decide (r `prefix_of` q)) as [|Hn]; [done|]. destruct Hq.
    destruct (s !! q) as [nd|] eqn:Hlk.
    - by apply map_lookup_filter_Some_2.
    - apply map_lookup_filter_None. by left. }
  destruct (exists_ s (target ++ sp)); [|done].
  destruct (unlink_effect (target ++ sp) s) as [->|(r & Hr & ->)]; [done|].
  split; [apply delete_subseteq|].
  intros q Hq. exists r. split; [done|].
  destruct (decide (r = q)) as [->|Hn]; [done|]. destruct Hq.
  by rewrite lookup_delete_ne.
Qed.

Lemma for_each_final_cons {A} (x : A) l body s :
  final (for_each (x :: l) body s) =
  match body x s with
  | Ok _ s' => final (for_each l body s')
  | Raise _ s' => s'
  end.
Proof. simpl. unfold mbind, M_bind. by destruct (body x s). Qed.



(** C10 (the claim as written).  Resolution follows a symbolic link in the
    directory part of [target_dir/sp]: cleaning the sync path [a/b] where
    [a] is a link to [x] removes [x/b], an entry of the target directory
    whose path is neither [a/b] nor below it. *)
Lemma clean_removes_through_link :
  ¬ (∀ (target : path) (sps : list path) (s : fs) (q : path),
       (∀ sp, sp ∈ sps → ¬ target ++ sp `prefix_of` q) →
       final (clean target sps s) !! q = s !! q).
Proof.
  intros H.
  specialize (H ["home"] [["a"; "b"]] aliased_home ["home"; "x"; "b"]).
  assert (final (clean ["home"] [["a"; "b"]] aliased_home) !! ["home"; "x"; "b"]
          = None) as Hgone by (vm_compute; reflexivity).
  rewrite Hgone in H. discriminate H.
  intros sp Hsp. apply list_elem_of_singleton in Hsp as ->. by intros [k ?].
Qed.

(** ** Paths and their strings *)

Lemma strip_app (d r : path) : strip d (d ++ r) = Some r.
Proof. induction d as [|x d IH]; simpl; [done|]. by rewrite decide_True. Qed.

Lemma strip_Some (d q r : path) : strip d q = Some r → q = d ++ r.
Proof.
  revert q. induction d as [|x d IH]; intros [|y q]; simpl; try done.
  - by intros [= ->].
  - by intros [= ->].
  - destruct (decide (x = y)) as [->|]; [|done]. intros H. by rewrite (IH q H).
Qed.

Lemma has_slash_app a b : has_slash (a +:+ String "/" b) = true.
Proof.
  induction a as [|c a IH]; simpl; [done|]. rewrite IH. by destruct (Ascii.eqb _ _).
Qed.

Lemma append_slash_inj x y a b :
  has_slash x = false → has_slash y = false →
  x +:+ String "/" a = y +:+ String "/" b → x = y ∧ a = b.
Proof.
  revert y. induction x as [|c x IH]; intros [|c' y]; simpl.
  - intros _ _ [= ->]. done.
  - intros _ Hy [= <- _]. done.
  - intros Hx _ [= -> _]. done.
  - intros Hx Hy [= -> Heq].
    apply orb_false_iff in Hx as [_ Hx]. apply orb_false_iff in Hy as [_ Hy].
    destruct (IH y Hx Hy Heq) as [-> ->]. done.
Qed.

Lemma str_cons_cons x y p : str (x :: y :: p) = x +:+ String "/" (str (y :: p)).
Proof. done. Qed.

Lemma str_inj (p q : path) :
  valid_path p → valid_path q → str p = str q → p = q.
Proof.
  revert q. induction p as [|x p IH]; intros q Hp Hq Heq.
  - destruct q as [|y q]; [done|]. apply Forall_cons in Hq as [[Hy _] _].
    destruct q; unfold str in Heq; simpl in Heq; [by subst|]. by destruct y.
  - apply Forall_cons in Hp as [[Hx Hxs] Hp].
    destruct q as [|y q].
    { destruct p; unfold str in Heq; simpl in Heq; [by subst|]. by destruct x. }
    apply Forall_cons in Hq as [[Hy Hys] Hq].
    destruct p as [|x' p], q as [|y' q].
    + unfold str in Heq. simpl in Heq. by subst.
    + rewrite str_cons_cons in Heq. unfold str in Heq at 1. simpl in Heq. subst x.
      by rewrite has_slash_app in Hxs.
    + rewrite str_cons_cons in Heq. unfold str in Heq at 2. simpl in Heq. subst y.
      by rewrite has_slash_app in Hys.
    + rewrite !str_cons_cons in Heq.
      destruct (append_slash_inj _ _ _ _ Hxs Hys Heq) as [-> Heq'].
      f_equal. by apply IH.
Qed.

(** ** The tree collector *)

Lemma elem_of_rglob (s : fs) (src f : path) :
  f ∈ rglob s src →
  ∃ d n r, locate s src = Found d ∧ f = src ++ n :: r ∧
           is_Some (s !! (d ++ n :: r)).
Proof.
  unfold rglob. destruct (locate s src) as [d| |]; try by rewrite elem_of_nil.
  intros Hf. apply list_elem_of_omap in Hf as (q & Hq & Hf).
  destruct (strip d q) as [[|n r]|] eqn:Hs; try done.
  destruct (forallb _ _); [|done]. injection Hf as <-.
  apply strip_Some in Hs. subst q.
  apply list_elem_of_fmap in Hq as ([q' nd] & Heq & Hq). simpl in Heq. subst q'.
  apply elem_of_map_to_list in Hq. exists d, n, r. eauto.
Qed.

Section collect_properties.
Variable decode : string → option string.
Variable s : fs.
Variable base_dir : path.

Lemma read_or_binary_file (p : path) :
  is_file s p = true →
  read_or_binary decode p s = Ok (expected_record decode s p) s.
Proof.
  unfold is_file, read_or_binary, read_text, expected_record, stat, node_at.
  unfold mbind, M_bind.
  destruct (locate s p) as [q| |]; try done.
  destruct (s !! q) as [[[] data| |]|]; done.
Qed.

Lemma records_ok_set (files : dict) (p : path) :
  records_ok decode s base_dir files → valid_path p →
  records_ok decode s base_dir (dict_set (str p) (expected_record decode s (base_dir ++ p)) files).
Proof.
  intros Hok Hp k v. rewrite dict_get_set.
  destruct (decide (str p = k)) as [<-|]; [|apply Hok].
  intros [= <-]. eauto.
Qed.

Lemma dict_set_keeps (files : dict) k v k' :
  is_Some (dict_get files k') → is_Some (dict_get (dict_set k v files) k').
Proof. rewrite dict_get_set. destruct (decide (k = k')); eauto. Qed.

Lemma collect_dir_entries (sp : path) (l : list path) (files : dict) :
  records_ok decode s base_dir files →
  (∀ f, f ∈ l → ∃ r, f = base_dir ++ sp ++ r ∧ valid_path (sp ++ r)) →
  ∃ files',
    fold_each l
      (λ files f, (λ s,
         if is_file s f then
           let rel := str (default [] (strip base_dir f)) in
           (c ← read_or_binary decode f; mret (dict_set rel c files)) s
         else Ok files s) : M dict)
      files s = Ok files' s ∧
    records_ok decode s base_dir files' ∧
    (∀ k, is_Some (dict_get files k) → is_Some (dict_get files' k)) ∧
    (∀ f, f ∈ l → is_file s f = true →
       ∃ rel, f = base_dir ++ rel ∧ valid_path rel ∧
              is_Some (dict_get files' (str rel))).
Proof.
  revert files. induction l as [|f l IH]; intros files Hok Hl; simpl.
  - exists files. repeat split; try done. intros f Hf. by apply elem_of_nil in Hf.
  - destruct (Hl f) as (r & Hf & Hv); [left|].
    assert (strip base_dir f = Some (sp ++ r)) as Hstrip.
    { rewrite Hf. apply strip_app. }
    unfold mbind at 1, M_bind at 1.
    destruct (is_file s f) eqn:Hfile.
    + unfold mbind at 1, M_bind at 1. rewrite read_or_binary_file by done.
      simpl. rewrite Hstrip. simpl.
      destruct (IH (dict_set (str (sp ++ r)) (expected_record decode s f) files))
        as (files' & Hrun & Hok' & Hmono & Hrec).
      { rewrite Hf. by apply records_ok_set. }
      { intros f' Hf'. apply Hl. by right. }
      exists files'. split; [done|]. split; [done|]. split.
      * intros k Hk. by apply Hmono, dict_set_keeps.
      * intros f' Hf' Hfile'. apply elem_of_cons in Hf' as [->|Hf']; [|by apply Hrec].
        exists (sp ++ r). split; [done|]. split; [done|].
        apply Hmono. rewrite dict_get_set, decide_True by done. eauto.
    + destruct (IH files) as (files' & Hrun & Hok' & Hmono & Hrec); [done|..].
      { intros f' Hf'. apply Hl. by right. }
      exists files'. split; [done|]. split; [done|]. split; [done|].
      intros f' Hf' Hfile'. apply elem_of_cons in Hf' as [->|Hf']; [|by apply Hrec].
      congruence.
Qed.

Lemma collect_path_open_spec (files : dict) (sp : path) :
  valid_fs s → valid_path sp → records_ok decode s base_dir files →
  ∃ files',
    collect_path_open decode base_dir files sp s = Ok files' s ∧
    records_ok decode s base_dir files' ∧
    (∀ k, is_Some (dict_get files k) → is_Some (dict_get files' k)) ∧
    (is_file s (base_dir ++ sp) = true → is_Some (dict_get files' (str sp))) ∧
    (is_dir s (base_dir ++ sp) = true →
     ∀ f, f ∈ rglob s (base_dir ++ sp) → is_file s f = true →
       ∃ rel, f = base_dir ++ rel ∧ valid_path rel ∧
              is_Some (dict_get files' (str rel))).
Proof.
  intros Hfs Hsp Hok. unfold collect_path_open.
  assert (stat s (base_dir ++ sp) = stat s (base_dir ++ sp)) as Hstat by done.
  unfold exists_, is_file, is_dir.
  destruct (stat s (base_dir ++ sp)) as [[perm data|t|]|] eqn:Hst; simpl.
  - unfold mbind, M_bind. rewrite read_or_binary_file.
    2:{ unfold is_file. by rewrite Hst. }
    simpl. eexists. split; [done|]. split; [by apply records_ok_set|].
    split; [intros k; apply dict_set_keeps|]. split; [|done].
    intros _. rewrite dict_get_set, decide_True by done. eauto.
  - exists files. by repeat split.
  - destruct (collect_dir_entries sp
                (merge_sort path_leb (rglob s (base_dir ++ sp))) files Hok)
      as (files' & Hrun & Hok' & Hmono & Hrec).
    { intros f Hf. rewrite merge_sort_Permutation in Hf.
      apply elem_of_rglob in Hf as (d & n & r & _ & -> & [nd Hnd]).
      exists (n :: r). split; [by rewrite <-app_assoc|].
      apply Forall_app. split; [done|].
      apply (Forall_app _ d). exact (Hfs _ _ Hnd). }
    exists files'. split; [done|]. split; [done|]. split; [done|].
    split; [done|]. intros _ f Hf. apply Hrec. by rewrite merge_sort_Permutation.
  - exists files. by repeat split.
Qed.

(** The collector on an open tree does not raise, and it holds a record
    for every regular file that a sync path names or that lies below a
    sync path that is a directory. *)
Lemma collect_open_records (sps : list path) :
  valid_fs s → Forall valid_path sps →
  ∃ files,
    collect_files_open decode base_dir sps s = Ok files s ∧
    ∀ sp, sp ∈ sps →
      (is_file s (base_dir ++ sp) = true →
       dict_get files (str sp)
       = Some (expected_record decode s (base_dir ++ sp))) ∧
      (is_dir s (base_dir ++ sp) = true →
       ∀ f, f ∈ rglob s (base_dir ++ sp) → is_file s f = true →
         ∃ rel, f = base_dir ++ rel ∧
                dict_get files (str rel) = Some (expected_record decode s f)).
Proof.
  intros Hfs Hsps. unfold collect_files_open.
  assert (∀ files0, records_ok decode s base_dir files0 →
    ∃ files,
      fold_each sps (collect_path_open decode base_dir) files0 s = Ok files s ∧
      records_ok decode s base_dir files ∧
      (∀ k, is_Some (dict_get files0 k) → is_Some (dict_get files k)) ∧
      ∀ sp, sp ∈ sps →
        (is_file s (base_dir ++ sp) = true → is_Some (dict_get files (str sp))) ∧
        (is_dir s (base_dir ++ sp) = true →
         ∀ f, f ∈ rglob s (base_dir ++ sp) → is_file s f = true →
           ∃ rel, f = base_dir ++ rel ∧ valid_path rel ∧
                  is_Some (dict_get files (str rel)))) as Hfold.
  { induction Hsps as [|sp sps Hsp Hsps IH]; intros files0 Hok0; simpl.
    - exists files0. repeat split; try done; by apply elem_of_nil in H.
    - destruct (collect_path_open_spec files0 sp Hfs Hsp Hok0)
        as (files1 & Hrun1 & Hok1 & Hmono1 & Hfile1 & Hdir1).
      unfold mbind, M_bind. rewrite Hrun1.
      destruct (IH files1 Hok1) as (files & Hrun & Hok & Hmono & Hrec).
      exists files. split; [done|]. split; [done|].
      split; [by intros k Hk; apply Hmono, Hmono1|].
      intros sp' Hsp'. apply elem_of_cons in Hsp' as [->|Hsp']; [|by apply Hrec].
      split; [by intros ?; apply Hmono, Hfile1|].
      intros Hd f Hf Hff. destruct (Hdir1 Hd f Hf Hff) as (rel & ? & ? & ?).
      exists rel. eauto. }
  destruct (Hfold []) as (files & Hrun & Hok & _ & Hrec).
  { by intros k v. }
  exists files. split; [done|]. intros sp Hsp.
  destruct (Hrec sp Hsp) as [Hfile Hdir].
  assert (∀ p, valid_path p → is_Some (dict_get files (str p)) →
    dict_get files (str p) = Some (expected_record decode s (base_dir ++ p)))
    as Hval.
  { intros p Hp [v Hv]. rewrite Hv.
    destruct (Hok _ _ Hv) as (p' & Hp' & Heq & ->).
    by rewrite (str_inj p p' Hp Hp' Heq). }
  split.
  - intros Hf. apply Hval; [|by apply Hfile].
    by apply (proj1 (Forall_forall _ _) Hsps).
  - intros Hd f Hf Hff. destruct (Hdir Hd f Hf Hff) as (rel & -> & Hrel & Hsome).
    exists rel. split; [done|]. by apply Hval.
Qed.
End collect_properties.

Lemma mixed_tree_valid : valid_fs mixed_tree.
Proof. apply (bool_decide_unpack (valid_fs mixed_tree)). vm_compute. exact I. Qed.

(** ** Resolution through real directories *)

Lemma real_dir_prefix (s : fs) (p q : path) :
  real_dir s p → q `prefix_of` p → s !! q = Some Dir.
Proof.
  intros Hp [k ->]. unfold real_dir in Hp. rewrite Forall_forall in Hp.
  specialize (Hp (length q)). rewrite take_app_length in Hp. apply Hp.
  apply elem_of_seq. rewrite length_app. lia.
Qed.

Lemma real_dir_intro (s : fs) (p : path) :
  (∀ q, q `prefix_of` p → s !! q = Some Dir) → real_dir s p.
Proof.
  intros H. apply Forall_forall. intros k _. apply H, prefix_take.
Qed.

Lemma real_dir_parent (s : fs) (p q : path) :
  real_dir s p → q `prefix_of` p → real_dir s q.
Proof.
  intros Hp Hq. apply real_dir_intro. intros q' Hq'.
  apply (real_dir_prefix s p); [done|]. by etrans.
Qed.

Lemma real_dir_snoc (s : fs) (p : path) c :
  real_dir s p → s !! (p ++ [c]) = Some Dir → real_dir s (p ++ [c]).
Proof.
  intros Hp Hc. apply real_dir_intro. intros q [k Hk].
  destruct k as [|x k _] using rev_ind.
  - rewrite app_nil_r in Hk. by subst.
  - rewrite app_assoc in Hk. apply app_inj_tail in Hk as [-> _].
    apply (real_dir_prefix s (q ++ k)); [done|]. by apply prefix_app_r.
Qed.

Lemma real_dir_mono (s s' : fs) (p : path) :
  s ⊆ s' → real_dir s p → real_dir s' p.
Proof.
  intros Hsub Hp. apply real_dir_intro. intros q Hq.
  eapply lookup_weaken; [|done]. by eapply real_dir_prefix.
Qed.

Lemma simple_name_not_dot c : simple_name c → ¬ (c = "" ∨ c = ".").
Proof. intros (? & ? & ?) [?|?]; done. Qed.

Lemma walk1_dirs (s : fs) follow (cur pre rest : list string) :
  simple pre →
  (∀ k, k < length pre → s !! (cur ++ take (S k) pre) = Some Dir) →
  walk1 s follow cur (pre ++ rest) = walk1 s follow (cur ++ pre) rest.
Proof.
  revert cur. induction pre as [|c pre IH]; intros cur Hs Hd.
  - by rewrite app_nil_r.
  - apply Forall_cons in Hs as [Hc Hs]. simpl.
    rewrite decide_False by by apply simple_name_not_dot.
    rewrite decide_False by apply Hc.
    specialize (Hd 0) as Hd0. simpl in Hd0. rewrite take_0 in Hd0.
    rewrite Hd0 by lia.
    rewrite IH; [by rewrite <-app_assoc|done|].
    intros k Hk. rewrite <-app_assoc. simpl. apply (Hd (S k)). simpl. lia.
Qed.

Lemma walk1_real_dir (s : fs) follow (p rest : list string) :
  real_dir s p → simple p →
  walk1 s follow [] (p ++ rest) = walk1 s follow p rest.
Proof.
  intros Hp Hs. apply (walk1_dirs s follow [] p rest Hs).
  intros k Hk. simpl. apply (real_dir_prefix s p); [done|]. apply prefix_take.
Qed.

Lemma walk_real_dir (n : nat) (s : fs) follow (p rest : list string) :
  real_dir s p → simple p →
  walk n s follow [] (p ++ rest) = walk n s follow p rest.
Proof. intros Hp Hs. destruct n; simpl; by rewrite walk1_real_dir. Qed.

Lemma llocate_child (s : fs) (p : path) c :
  real_dir s p → simple p → simple_name c →
  llocate s (p ++ [c]) =
  match s !! (p ++ [c]) with
  | None => Vacant (p ++ [c])
  | Some _ => Found (p ++ [c])
  end.
Proof.
  intros Hp Hs Hc. unfold llocate. rewrite walk_real_dir by done.
  generalize MAXSYMLINKS. intros [|n]; simpl;
    rewrite decide_False by (by apply simple_name_not_dot);
    rewrite decide_False by apply Hc;
    by destruct (s !! (p ++ [c])) as [[| |]|].
Qed.

Lemma locate_child (s : fs) (p : path) c :
  real_dir s p → simple p → simple_name c →
  (∀ t, s !! (p ++ [c]) ≠ Some (Link t)) →
  locate s (p ++ [c]) =
  match s !! (p ++ [c]) with
  | None => Vacant (p ++ [c])
  | Some _ => Found (p ++ [c])
  end.
Proof.
  intros Hp Hs Hc Hl. unfold locate. rewrite walk_real_dir by done.
  generalize MAXSYMLINKS. intros [|n]; simpl;
    rewrite decide_False by (by apply simple_name_not_dot);
    rewrite decide_False by apply Hc;
    (destruct (s !! (p ++ [c])) as [[|t|]|]; try done; by destruct (Hl t)).
Qed.

Lemma locate_real_dir (s : fs) (p : path) :
  real_dir s p → simple p → locate s p = Found p ∧ llocate s p = Found p.
Proof.
  intros Hp Hs. unfold locate, llocate.
  rewrite <-(app_nil_r p) at 1 3. by rewrite !walk_real_dir.
Qed.

Lemma is_dir_real_dir (s : fs) (p : path) :
  real_dir s p → simple p → is_dir s p = true ∧ exists_ s p = true.
Proof.
  intros Hp Hs. unfold is_dir, exists_, stat.
  rewrite (proj1 (locate_real_dir s p Hp Hs)). simpl.
  by rewrite (real_dir_prefix s p p).
Qed.

(** ** Writing at a free name *)

Lemma free_below_lookup (s : fs) (p q : path) :
  free_below s p → p `prefix_of` q → s !! q = None.
Proof.
  intros Hf Hpq. destruct (s !! q) as [nd|] eqn:Hq; [|done].
  by destruct (Hf q nd Hq).
Qed.

Lemma free_below_intro (s : fs) (p : path) :
  (∀ q, p `prefix_of` q → s !! q = None) → free_below s p.
Proof. intros H q nd Hq Hpq. by rewrite (H q Hpq) in Hq. Qed.

Lemma parent_snoc (p : path) c : parent (p ++ [c]) = p.
Proof. apply removelast_last. Qed.

Lemma basename_snoc (p : path) c : basename (p ++ [c]) = c.
Proof. apply last_last. Qed.

Lemma path_snoc_inv (p : path) : p ≠ [] → ∃ d c, p = d ++ [c].
Proof.
  destruct p as [|c p _] using rev_ind; [done|]. eauto.
Qed.

Lemma vacant_inv (s : fs) (p : path) :
  vacant s p →
  ∃ d c, p = d ++ [c] ∧ real_dir s d ∧ simple d ∧ simple_name c ∧
         s !! p = None.
Proof.
  intros (Hne & Hs & Hd & Hf).
  destruct (path_snoc_inv p Hne) as (d & c & ->).
  rewrite parent_snoc in Hd. apply Forall_app in Hs as [Hs Hc].
  rewrite Forall_singleton in Hc.
  exists d, c. do 4 (split; [done|]). by apply (free_below_lookup s (d ++ [c])).
Qed.

Lemma vacant_llocate (s : fs) (p : path) : vacant s p → llocate s p = Vacant p.
Proof.
  intros Hv. destruct (vacant_inv s p Hv) as (d & c & -> & Hd & Hs & Hc & Hn).
  rewrite llocate_child by done. by rewrite Hn.
Qed.

Lemma vacant_locate (s : fs) (p : path) : vacant s p → locate s p = Vacant p.
Proof.
  intros Hv. destruct (vacant_inv s p Hv) as (d & c & -> & Hd & Hs & Hc & Hn).
  rewrite locate_child; [by rewrite Hn|done..|]. intros t. by rewrite Hn.
Qed.

Lemma os_mkdir_vacant (s : fs) (p : path) :
  vacant s p → os_mkdir p s = Ok () (<[p := Dir]> s).
Proof. intros Hv. unfold os_mkdir. by rewrite vacant_llocate. Qed.

Lemma os_symlink_vacant (s : fs) (t : string) (p : path) :
  vacant s p → os_symlink t p s = Ok () (<[p := Link t]> s).
Proof. intros Hv. unfold os_symlink. by rewrite vacant_llocate. Qed.

Lemma makedirs_vacant (s : fs) (p : path) :
  vacant s p → makedirs p s = Ok () (<[p := Dir]> s).
Proof.
  intros Hv. pose proof Hv as (Hne & Hs & Hd & Hf).
  destruct (path_snoc_inv p Hne) as (d & c & ->).
  rewrite parent_snoc in Hd. apply Forall_app in Hs as [Hs Hc].
  unfold makedirs. rewrite length_app. simpl. rewrite Nat.add_1_r. simpl.
  unfold mbind, M_bind.
  destruct (d ++ [c]) as [|x l] eqn:Heq; [by destruct d|]. rewrite <-Heq in *.
  rewrite parent_snoc.
  rewrite (proj2 (is_dir_real_dir s d Hd Hs)). by apply os_mkdir_vacant.
Qed.

Lemma copy2_vacant (src dst : path) (s : fs) :
  vacant s dst →
  copy2 src dst s =
  match stat s src with
  | Some (File true data) => Ok () (<[dst := File true data]> s)
  | Some (File false _) => Raise PermissionError s
  | Some Dir => Raise IsADirectoryError s
  | Some (Link _) => Raise FileNotFoundError s
  | None =>
      Raise (match locate s src with Missing e => e | _ => FileNotFoundError end) s
  end.
Proof.
  intros Hv. unfold copy2, is_dir, stat.
  rewrite (vacant_locate s dst Hv). simpl. rewrite ?(vacant_locate s dst Hv).
  destruct (locate s src) as [a| |]; simpl; try done.
Qed.

(** ** Growth of the staging area *)

Lemma staged_refl (dst : path) (s : fs) : staged dst s s.
Proof. split; [done|]. auto. Qed.

Lemma staged_trans (d d1 d2 : path) (s s1 s2 : fs) :
  d `prefix_of` d1 → d `prefix_of` d2 →
  staged d1 s s1 → staged d2 s1 s2 → staged d s s2.
Proof.
  intros Hd1 Hd2 [Hsub1 H1] [Hsub2 H2]. split; [by etrans|].
  intros q Hq. destruct (H2 q Hq) as [Hq1|(Hpre & Hs & Hr)].
  - destruct (H1 q Hq1) as [?|(Hpre & Hs & Hr)]; [by left|].
    right. split; [by trans d1|]. split; [done|]. by eapply real_dir_mono.
  - right. split; [by trans d2|]. done.
Qed.

Lemma staged_insert (s : fs) (p : path) (nd : node) :
  vacant s p → staged p s (<[p := nd]> s).
Proof.
  intros Hv. pose proof Hv as (Hne & Hs & Hd & Hf). split.
  - apply insert_subseteq. by apply (free_below_lookup s p).
  - intros q Hq. destruct (decide (p = q)) as [<-|Hpq].
    + right. split; [done|]. split; [done|].
      eapply real_dir_mono; [|done].
      apply insert_subseteq. by apply (free_below_lookup s p).
    + rewrite lookup_insert_ne in Hq by done. by left.
Qed.

Lemma staged_free_below (dst p : path) (s s' : fs) :
  staged dst s s' → free_below s p →
  ¬ dst `prefix_of` p → ¬ p `prefix_of` dst → free_below s' p.
Proof.
  intros [Hsub H] Hf Hn1 Hn2. apply free_below_intro. intros q Hpq.
  destruct (s' !! q) as [nd|] eqn:Hq; [|done].
  destruct (H q) as [[nd' Hq']|(Hpre & _)]; [by eauto|..].
  - by rewrite (free_below_lookup s p q) in Hq'.
  - destruct (prefix_weak_total _ _ _ Hpre Hpq); done.
Qed.

Lemma staged_simple_fs (dst : path) (s s' : fs) :
  staged dst s s' → simple_fs s → simple_fs s'.
Proof.
  intros [Hsub H] Hs q nd Hq.
  destruct (H q) as [[nd' Hq']|(_ & ? & _)]; [by eauto| |done].
  by apply (Hs q nd').
Qed.

(** ** Directory listings *)

Lemma NoDup_omap_inj {A B} (f : A → option B) (l : list A) :
  (∀ x y z, f x = Some z → f y = Some z → x = y) →
  NoDup l → NoDup (omap f l).
Proof.
  intros Hinj. induction 1 as [|x l Hx Hl IH]; simpl; [constructor|].
  destruct (f x) as [z|] eqn:Hfx; [|done].
  constructor; [|done]. intros Hz.
  apply list_elem_of_omap in Hz as (y & Hy & Hfy).
  by rewrite (Hinj x y z Hfx Hfy) in Hx.
Qed.

Lemma strip_child (d q : path) (n : string) :
  strip d q = Some [n] ↔ q = d ++ [n].
Proof.
  split; [apply strip_Some|]. intros ->. apply strip_app.
Qed.

Lemma elem_of_children (s : fs) (d : path) (n : string) :
  n ∈ children s d ↔ is_Some (s !! (d ++ [n])).
Proof.
  unfold children. rewrite merge_sort_Permutation, list_elem_of_omap. split.
  - intros (q & Hq & Hn). destruct (strip d q) as [[|n' [|??]]|] eqn:Hs; try done.
    injection Hn as ->. apply strip_child in Hs as ->.
    apply list_elem_of_fmap in Hq as ([q nd] & Heq & Hq). simpl in Heq. subst q.
    apply elem_of_map_to_list in Hq. eauto.
  - intros [nd Hnd]. exists (d ++ [n]). split.
    + apply list_elem_of_fmap. exists (d ++ [n], nd). split; [done|].
      by apply elem_of_map_to_list.
    + by rewrite strip_app.
Qed.

Lemma NoDup_children (s : fs) (d : path) : NoDup (children s d).
Proof.
  unfold children. rewrite merge_sort_Permutation.
  apply NoDup_omap_inj; [|apply NoDup_fst_map_to_list].
  intros q1 q2 n H1 H2.
  destruct (strip d q1) as [[|n1 [|??]]|] eqn:Hs1; try done.
  destruct (strip d q2) as [[|n2 [|??]]|] eqn:Hs2; try done.
  apply strip_child in Hs1, Hs2. congruence.
Qed.

Lemma children_simple (s : fs) (d : path) :
  simple_fs s → Forall simple_name (children s d).
Proof.
  intros Hs. apply Forall_forall. intros n Hn.
  apply elem_of_children in Hn as [nd Hnd].
  specialize (Hs _ _ Hnd). simpl in Hs.
  apply Forall_app in Hs as [_ Hs]. by rewrite Forall_singleton in Hs.
Qed.

Lemma listdir_names (p : path) (s : fs) :
  simple_fs s →
  (∃ e, listdir p s = Raise e s) ∨
  (∃ names, listdir p s = Ok names s ∧ NoDup names ∧ Forall simple_name names).
Proof.
  intros Hs. unfold listdir. destruct (locate s p) as [q| |]; eauto.
  destruct (s !! q) as [[| |]|]; eauto.
  right. eexists. split; [done|]. split; [apply NoDup_children|].
  by apply children_simple.
Qed.

(** ** Creating the missing directories of a path *)

Lemma walk_missing (n : nat) (s : fs) (follow : bool) (a : path)
    (x y : string) (rest : list string) :
  real_dir s a → simple a → simple_name x → s !! (a ++ [x]) = None →
  walk n s follow [] (a ++ x :: y :: rest) = Missing FileNotFoundError.
Proof.
  intros Ha Hs Hx Hn. rewrite walk_real_dir by done.
  destruct n; simpl;
    rewrite decide_False by (by apply simple_name_not_dot);
    rewrite decide_False by apply Hx; by rewrite Hn.
Qed.

Lemma mkdir_parents_aux_spec (b a : path) (n : nat) (s : fs) :
  length b ≤ n → simple (a ++ b) → real_dir s a →
  (∀ x b', b = x :: b' → free_below s (a ++ [x])) →
  ∃ s', mkdir_parents_aux n (a ++ b) s = Ok () s' ∧
        real_dir s' (a ++ b) ∧ s ⊆ s' ∧
        ∀ q, is_Some (s' !! q) →
             is_Some (s !! q) ∨ (a `prefix_of` q ∧ q ≠ a ∧ q `prefix_of` a ++ b).
Proof.
  revert n s. induction b as [|c b IH] using rev_ind; intros n s Hn Hs Ha Hfree.
  - rewrite app_nil_r in *. exists s.
    assert (mkdir_parents_aux n a s = Ok () s) as ->.
    { destruct n; simpl; unfold os_mkdir;
        rewrite (proj2 (locate_real_dir s a Ha Hs));
        by rewrite (proj1 (is_dir_real_dir s a Ha Hs)). }
    split; [done|]. split; [done|]. split; [done|]. auto.
  - rewrite app_assoc in *. apply Forall_app in Hs as [Hs Hc].
    rewrite Forall_singleton in Hc. rewrite length_app in Hn. simpl in Hn.
    destruct b as [|x b].
    + rewrite app_nil_r in *.
      assert (vacant s (a ++ [c])) as Hv.
      { split; [by destruct a|]. split; [apply Forall_app; by rewrite Forall_singleton|].
        rewrite parent_snoc. split; [done|]. by apply (Hfree c []). }
      exists (<[a ++ [c] := Dir]> s).
      assert (mkdir_parents_aux n (a ++ [c]) s = Ok () (<[a ++ [c] := Dir]> s)) as ->.
      { destruct n; simpl; by rewrite os_mkdir_vacant. }
      destruct (staged_insert s (a ++ [c]) Dir Hv) as [Hsub _].
      split; [done|]. split.
      { apply real_dir_snoc; [by eapply real_dir_mono|]. apply lookup_insert_eq. }
      split; [done|]. intros q Hq.
      destruct (decide (a ++ [c] = q)) as [<-|Hne].
      * right. split; [by apply prefix_app_r|]. split; [|done].
        intros Heq. apply (f_equal length) in Heq. rewrite length_app in Heq.
        simpl in Heq. lia.
      * rewrite lookup_insert_ne in Hq by done. by left.
    + assert (free_below s (a ++ [x])) as Hfx by (by eapply Hfree).
      assert (s !! (a ++ [x]) = None) as Hnx by (by apply (free_below_lookup s (a ++ [x]))).
      assert (simple_name x) as Hx.
      { apply Forall_app in Hs as [_ Hs]. by apply Forall_cons in Hs as [? _]. }
      assert (simple a) as Hsa by (by apply Forall_app in Hs as [? _]).
      assert (llocate s ((a ++ x :: b) ++ [c]) = Missing FileNotFoundError) as Hloc.
      { unfold llocate. rewrite <-app_assoc.
        destruct b as [|y b].
        - by apply (walk_missing MAXSYMLINKS s false a x c []).
        - by apply (walk_missing MAXSYMLINKS s false a x y (b ++ [c])). }
      destruct n as [|n]; [simpl in Hn; lia|].
      destruct (IH n s) as (s1 & Hrun & Hreal & Hsub & Hnew).
      { simpl in *. lia. } { done. } { done. }
      { intros x' b' [= <- <-]. done. }
      assert (vacant s1 ((a ++ x :: b) ++ [c])) as Hv.
      { split; [by destruct (a ++ x :: b)|].
        split; [apply Forall_app; by rewrite Forall_singleton|].
        rewrite parent_snoc. split; [done|].
        apply free_below_intro. intros q Hq.
        destruct (s1 !! q) as [nd|] eqn:Hq1; [|done].
        destruct (Hnew q) as [[nd' Hq']|(_ & _ & Hqp)]; [by eauto|..].
        - rewrite (free_below_lookup s (a ++ [x]) q Hfx) in Hq'; [done|].
          trans ((a ++ x :: b) ++ [c]); [|done].
          rewrite <-app_assoc. simpl. apply prefix_app, prefix_cons, prefix_nil.
        - assert (length ((a ++ x :: b) ++ [c]) ≤ length (a ++ x :: b)) as Hlen.
          { etrans; [by apply prefix_length|]. by apply prefix_length. }
          rewrite length_app in Hlen. simpl in Hlen. lia. }
      exists (<[(a ++ x :: b) ++ [c] := Dir]> s1).
      destruct (staged_insert s1 _ Dir Hv) as [Hsub1 _].
      split.
      { simpl. unfold os_mkdir at 1. rewrite Hloc.
        rewrite decide_False.
        2:{ rewrite parent_snoc. intros Heq. apply (f_equal length) in Heq.
            rewrite (length_app _ [c]) in Heq. simpl in Heq. lia. }
        rewrite parent_snoc. unfold mbind, M_bind. rewrite Hrun.
        unfold mkdir_exist_ok. by rewrite os_mkdir_vacant. }
      split.
      { apply real_dir_snoc; [by eapply real_dir_mono|]. apply lookup_insert_eq. }
      split; [by etrans|]. intros q Hq.
      destruct (decide ((a ++ x :: b) ++ [c] = q)) as [<-|Hne].
      * right. split; [rewrite <-app_assoc; by apply prefix_app_r|]. split; [|done].
        intros Heq. apply (f_equal length) in Heq. rewrite !length_app in Heq.
        simpl in Heq. lia.
      * rewrite lookup_insert_ne in Hq by done.
        destruct (Hnew q Hq) as [?|(? & ? & ?)]; [by left|].
        right. split; [done|]. split; [done|]. by apply prefix_app_r.
Qed.

(** ** Recursive copies only add entries below their destination *)

Lemma final_bind {A B} (m : M A) (f : A → M B) (s : fs) :
  final ((m ≫= f) s) =
  match m s with
  | Ok x s' => final (f x s')
  | Raise _ s' => s'
  end.
Proof. unfold mbind, M_bind. by destruct (m s). Qed.

Lemma prefix_snoc_ne (dst : path) (n m : string) (q : path) :
  n ≠ m → dst ++ [n] `prefix_of` q → ¬ dst ++ [m] `prefix_of` q.
Proof.
  intros Hne [k1 ->] [k2 Hk]. rewrite <-!app_assoc in Hk.
  apply app_inv_head in Hk. simpl in Hk. congruence.
Qed.

Lemma vacant_child (s : fs) (dst : path) (n : string) :
  simple dst → simple_name n → real_dir s dst → free_below s (dst ++ [n]) →
  vacant s (dst ++ [n]).
Proof.
  intros Hs Hn Hd Hf. split; [by destruct dst|].
  split; [apply Forall_app; by rewrite Forall_singleton|].
  by rewrite parent_snoc.
Qed.

Lemma staged_child_keeps (dst : path) (n : string) (names : list string)
    (s s' : fs) :
  staged (dst ++ [n]) s s' → real_dir s dst → n ∉ names →
  (∀ m, m ∈ names → free_below s (dst ++ [m])) →
  real_dir s' dst ∧ ∀ m, m ∈ names → free_below s' (dst ++ [m]).
Proof.
  intros Hst Hd Hn Hf. split; [eapply real_dir_mono; [apply Hst|done]|].
  intros m Hm. eapply staged_free_below; [done|by apply Hf|..].
  - intros Hp. eapply (prefix_snoc_ne dst n m); [|done..]. by intros ->.
  - intros Hp. eapply (prefix_snoc_ne dst m n); [|done..]. by intros ->.
Qed.

Section loops.
Variable dst : path.
Variable body : string → M unit.
Hypothesis dst_simple : simple dst.
Hypothesis body_staged : ∀ name s,
  simple_fs s → vacant s (dst ++ [name]) →
  staged (dst ++ [name]) s (final (body name s)).

Lemma collect_errors_staged (names : list string) (errs : bool) (s : fs) :
  NoDup names → Forall simple_name names → simple_fs s → real_dir s dst →
  (∀ n, n ∈ names → free_below s (dst ++ [n])) →
  staged dst s (final (collect_errors names body errs s)).
Proof.
  intros Hnd. revert errs s.
  induction Hnd as [|n names Hn Hnd IH]; intros errs s Hsn Hs Hd Hf; simpl.
  - apply staged_refl.
  - apply Forall_cons in Hsn as [Hsn Hsns].
    assert (vacant s (dst ++ [n])) as Hv.
    { apply vacant_child; try done. apply Hf. left. }
    pose proof (body_staged n s Hs Hv) as Hst.
    destruct (staged_child_keeps dst n names s _ Hst Hd Hn) as [Hd' Hf'].
    { intros m Hm. apply Hf. by right. }
    pose proof (staged_simple_fs _ _ _ Hst Hs) as Hs'.
    assert (∀ e, staged dst s (final (collect_errors names body e (final (body n s)))))
      as Hrest.
    { intros e. eapply (staged_trans dst (dst ++ [n]) dst); [by apply prefix_app_r|done|done|].
      by apply IH. }
    destruct (body n s) as [[] s'|e s']; simpl in *; [apply Hrest|].
    destruct e; try apply Hrest.
    eapply (staged_trans dst (dst ++ [n]) dst); [by apply prefix_app_r|done|done|].
    apply staged_refl.
Qed.

Lemma for_each_staged (names : list string) (s : fs) :
  NoDup names → Forall simple_name names → simple_fs s → real_dir s dst →
  (∀ n, n ∈ names → free_below s (dst ++ [n])) →
  staged dst s (final (for_each names body s)).
Proof.
  intros Hnd. revert s.
  induction Hnd as [|n names Hn Hnd IH]; intros s Hsn Hs Hd Hf.
  - apply staged_refl.
  - apply Forall_cons in Hsn as [Hsn Hsns].
    assert (vacant s (dst ++ [n])) as Hv.
    { apply vacant_child; try done. apply Hf. left. }
    pose proof (body_staged n s Hs Hv) as Hst.
    destruct (staged_child_keeps dst n names s _ Hst Hd Hn) as [Hd' Hf'].
    { intros m Hm. apply Hf. by right. }
    pose proof (staged_simple_fs _ _ _ Hst Hs) as Hs'.
    rewrite for_each_final_cons.
    eapply (staged_trans dst (dst ++ [n]) dst); [by apply prefix_app_r|done|done|].
    destruct (body n s) as [[] s'|e s']; simpl in *; [by apply IH|apply staged_refl].
Qed.
End loops.

Lemma copy2_vacant_staged (src dst : path) (s : fs) :
  vacant s dst → staged dst s (final (copy2 src dst s)).
Proof.
  intros Hv. rewrite copy2_vacant by done.
  destruct (stat s src) as [[[] data|t|]|]; simpl;
    try apply staged_refl. by apply staged_insert.
Qed.

Lemma free_below_insert_above (s : fs) (dst : path) (n : string) (nd : node) :
  free_below s dst → free_below (<[dst := nd]> s) (dst ++ [n]).
Proof.
  intros Hf. apply free_below_intro. intros q Hq.
  rewrite lookup_insert_ne.
  - apply (free_below_lookup s dst); [done|]. trans (dst ++ [n]); [|done].
    by apply prefix_app_r.
  - intros ->. apply prefix_length in Hq. rewrite length_app in Hq.
    simpl in Hq. lia.
Qed.

Lemma copytree_aux_staged (depth : nat) (src dst : path) (s : fs) :
  simple_fs s → vacant s dst →
  staged dst s (final (copytree_aux depth src dst s)) ∧
  ∀ u s', copytree_aux depth src dst s = Ok u s' → s' !! dst = Some Dir.
Proof.
  revert src dst s. induction depth as [|depth IH]; intros src dst s Hs Hv.
  { split; [apply staged_refl|done]. }
  pose proof Hv as (Hne & Hsd & Hpar & Hfree).
  simpl. unfold mbind, M_bind.
  destruct (listdir_names src s Hs) as [[e ->]|(names & -> & Hnd & Hsn)].
  { split; [apply staged_refl|done]. }
  rewrite makedirs_vacant by done.
  set (s1 := <[dst := Dir]> s).
  set (body := λ name : string, _).
  assert (staged dst s s1) as Hst1 by (by apply staged_insert).
  assert (staged dst s1 (final (collect_errors names body false s1))) as Hloop.
  { apply collect_errors_staged; try done.
    - intros name s0 Hs0 Hv0. unfold body.
      destruct (is_dir s0 (src ++ [name])).
      + by apply IH.
      + by apply copy2_vacant_staged.
    - by eapply staged_simple_fs.
    - destruct (vacant_inv s dst Hv) as (d & c & -> & Hd & _ & _ & _).
      apply real_dir_snoc; [eapply real_dir_mono; [apply Hst1|done]|].
      apply lookup_insert_eq.
    - intros n _. by apply free_below_insert_above. }
  destruct (collect_errors names body false s1) as [errs s2|e s2]; simpl in *.
  - assert (staged dst s s2) as Hst2.
    { by eapply (staged_trans dst dst dst). }
    destruct errs; simpl; (split; [done|]); [done|].
    intros [] s' [= <-]. eapply lookup_weaken; [|apply Hloop]. apply lookup_insert_eq.
  - split; [|done]. by eapply (staged_trans dst dst dst).
Qed.

Lemma prefix_between (a q : path) (x : string) (b : path) :
  a `prefix_of` q → q ≠ a → q `prefix_of` a ++ x :: b → a ++ [x] `prefix_of` q.
Proof.
  intros [k ->] Hne Hq. apply prefix_app_inv in Hq.
  destruct k as [|y k]; [by rewrite app_nil_r in Hne|].
  apply prefix_cons_inv_1 in Hq as ->.
  apply prefix_app, prefix_cons, prefix_nil.
Qed.

Lemma simple_prefix (p q : path) : simple p → q `prefix_of` p → simple q.
Proof. intros Hp [k ->]. by apply Forall_app in Hp as [? _]. Qed.

Lemma prefix_parent (q : path) : parent q `prefix_of` q.
Proof.
  destruct q as [|c q _] using rev_ind; [done|].
  rewrite parent_snoc. by apply prefix_app_r.
Qed.

Lemma mkdir_parents_staged (a : path) (x : string) (b : path) (s : fs) :
  simple (a ++ x :: b) → real_dir s a → free_below s (a ++ [x]) →
  ∃ s', mkdir_parents (a ++ x :: b) s = Ok () s' ∧
        staged (a ++ [x]) s s' ∧ real_dir s' (a ++ x :: b) ∧
        ∀ q, is_Some (s' !! q) → is_Some (s !! q) ∨ q `prefix_of` a ++ x :: b.
Proof.
  intros Hs Ha Hf. unfold mkdir_parents.
  destruct (mkdir_parents_aux_spec (x :: b) a (length (a ++ x :: b)) s)
    as (s' & Hrun & Hreal & Hsub & Hnew); try done.
  { rewrite length_app. lia. }
  { by intros ?? [= <- <-]. }
  exists s'. split; [done|]. split; [|split; [done|]].
  - split; [done|]. intros q Hq.
    destruct (Hnew q Hq) as [?|(Haq & Hne & Hqp)]; [by left|]. right.
    split; [by eapply prefix_between|]. split; [by eapply simple_prefix|].
    apply (real_dir_parent s' (a ++ x :: b)); [done|].
    trans q; [apply prefix_parent|done].
  - intros q Hq. destruct (Hnew q Hq) as [?|(_ & _ & ?)]; auto.
Qed.

Lemma readlink_final (p : path) (s : fs) :
  (∃ t, readlink p s = Ok t s) ∨ (∃ e, readlink p s = Raise e s).
Proof.
  unfold readlink. destruct (llocate s p) as [q| |]; eauto.
  destruct (s !! q) as [[| |]|]; eauto.
Qed.

Lemma copy_dir_staged (depth : nat) (src a : path) (x : string) (b : path)
    (rs : bool) (s : fs) :
  simple_fs s → simple (a ++ x :: b) → real_dir s a → free_below s (a ++ [x]) →
  staged (a ++ [x]) s (final (_copy_dir depth src (a ++ x :: b) rs s)) ∧
  (∀ q, is_Some (final (_copy_dir depth src (a ++ x :: b) rs s) !! q) →
        is_Some (s !! q) ∨
        (q `prefix_of` a ++ x :: b ∧
         final (_copy_dir depth src (a ++ x :: b) rs s) !! q = Some Dir) ∨
        a ++ x :: b `prefix_of` q) ∧
  ∀ u s', _copy_dir depth src (a ++ x :: b) rs s = Ok u s' →
          s' !! (a ++ x :: b) = Some Dir.
Proof.
  revert src a x b s.
  induction depth as [|depth IH]; intros src a x b s Hs Hsd Ha Hf.
  { split; [apply staged_refl|]. split; [by left|done]. }
  simpl. unfold mbind, M_bind.
  destruct (mkdir_parents_staged a x b s Hsd Ha Hf)
    as (s1 & -> & Hst1 & Hreal1 & Hnew1).
  pose proof (staged_simple_fs _ _ _ Hst1 Hs) as Hs1.
  destruct (listdir_names src s1 Hs1) as [[e ->]|(names & -> & Hnd & Hsn)].
  { split; [done|]. split; [|done]. simpl. intros q Hq.
    destruct (Hnew1 q Hq) as [?|Hqp]; [by left|]. right. left.
    split; [done|]. by apply (real_dir_prefix s1 (a ++ x :: b)). }
  set (dst := a ++ x :: b) in *.
  set (body := λ name : string, _).
  assert (a ++ [x] `prefix_of` dst) as Hax.
  { unfold dst. apply prefix_app, prefix_cons, prefix_nil. }
  assert (staged dst s1 (final (for_each names body s1))) as Hloop.
  { apply for_each_staged; try done.
    - intros name s0 Hs0 Hv0. unfold body.
      pose proof Hv0 as (_ & Hsi & Hri & Hfi). rewrite parent_snoc in Hri.
      destruct (is_symlink s0 (src ++ [name])).
      + destruct rs.
        * destruct (locate s0 (src ++ [name])) as [real| |[]];
            try apply staged_refl.
          destruct (is_dir s0 real); [by apply copytree_aux_staged|].
          destruct (is_file s0 real); [by apply copy2_vacant_staged|].
          apply staged_refl.
        * destruct (readlink_final (src ++ [name]) s0) as [[t ->]|[e ->]];
            [|apply staged_refl].
          rewrite os_symlink_vacant by done. by apply staged_insert.
      + destruct (is_dir s0 (src ++ [name])).
        * change (dst ++ [name]) with (dst ++ name :: []).
          apply (IH (src ++ [name]) dst name [] s0); done.
        * destruct (is_file s0 (src ++ [name])); [by apply copy2_vacant_staged|].
          apply staged_refl.
    - intros n _. apply free_below_intro. intros q Hq.
      destruct (s1 !! q) as [nd|] eqn:Hq1; [|done].
      destruct (Hnew1 q) as [[nd' Hq']|Hqp]; [by eauto|..].
      + rewrite (free_below_lookup s (a ++ [x]) q Hf) in Hq'; [done|].
        trans dst; [done|]. trans (dst ++ [n]); [by apply prefix_app_r|done].
      + assert (length (dst ++ [n]) ≤ length dst) as Hlen.
        { etrans; by apply prefix_length. }
        rewrite length_app in Hlen. simpl in Hlen. lia. }
  assert (staged (a ++ [x]) s (final (for_each names body s1))) as Hall.
  { by eapply (staged_trans (a ++ [x]) (a ++ [x]) dst). }
  split; [done|]. split.
  - intros q Hq. destruct Hloop as [Hsub Hloop].
    destruct (Hloop q Hq) as [Hq1|(? & _)]; [|by right; right].
    destruct (Hnew1 q Hq1) as [?|Hqp]; [by left|]. right. left.
    split; [done|]. eapply lookup_weaken; [|done].
    by apply (real_dir_prefix s1 dst).
  - intros [] s' Heq. rewrite Heq in Hloop. simpl in Hloop.
    eapply lookup_weaken; [|apply Hloop]. by apply (real_dir_prefix s1 dst).
Qed.

(** ** Resolution does not see a fresh name *)

Lemma not_elem_of_removelast (n : string) (p : path) : n ∉ p → n ∉ removelast p.
Proof.
  destruct p as [|c p _] using rev_ind; [done|].
  rewrite removelast_last. rewrite not_elem_of_app. by intros [? _].
Qed.

Section fresh.
Variable n : string.
Variables s s' : fs.
Hypothesis agree : ∀ q, n ∉ q → s' !! q = s !! q.
Hypothesis avoid : links_avoid n s.

Lemma walk1_fresh (follow : bool) (cur rest : list string) :
  n ∉ cur → n ∉ rest →
  walk1 s' follow cur rest = walk1 s follow cur rest ∧
  match walk1 s follow cur rest with
  | Stop (Found p) | Stop (Vacant p) => n ∉ p
  | Stop (Missing _) => True
  | Jump c r => (n ∉ c) ∧ (n ∉ r)
  end.
Proof.
  revert cur. induction rest as [|c rest IH]; intros cur Hcur Hrest; simpl.
  - done.
  - apply not_elem_of_cons in Hrest as [Hc Hrest].
    destruct (decide (c = "" ∨ c = ".")); [by apply IH|].
    destruct (decide (c = "..")); [apply IH; [by apply not_elem_of_removelast|done]|].
    assert (n ∉ cur ++ [c]) as Hcc.
    { apply not_elem_of_app. split; [done|].
      apply not_elem_of_cons. split; [done|apply not_elem_of_nil]. }
    rewrite (agree _ Hcc).
    destruct (s !! (cur ++ [c])) as [[perm data|t|]|] eqn:Hlk.
    + by destruct rest.
    + assert (n ∉ split_slash t ++ rest) as Ht.
      { apply not_elem_of_app. split; [|done]. exact (avoid _ _ Hlk). }
      assert (n ∉ (if is_absolute t then [] else cur)) as Hbase.
      { destruct (is_absolute t); [apply not_elem_of_nil|done]. }
      by destruct rest, follow.
    + by apply IH.
    + by destruct rest.
Qed.

Lemma walk_fresh (fuel : nat) (follow : bool) (cur rest : list string) :
  n ∉ cur → n ∉ rest →
  walk fuel s' follow cur rest = walk fuel s follow cur rest ∧
  match walk fuel s follow cur rest with
  | Found p | Vacant p => n ∉ p
  | Missing _ => True
  end.
Proof.
  revert cur rest. induction fuel as [|fuel IH]; intros cur rest Hcur Hrest; simpl;
    destruct (walk1_fresh follow cur rest Hcur Hrest) as [-> Hres];
    destruct (walk1 s follow cur rest) as [[p|p|e]|c r]; try done.
  destruct Hres. by apply IH.
Qed.

Lemma node_at_fresh (fuel : nat) (follow : bool) (p : path) :
  n ∉ p →
  walk fuel s' follow [] p = walk fuel s follow [] p ∧
  node_at s' (walk fuel s' follow [] p) = node_at s (walk fuel s follow [] p).
Proof.
  intros Hp. destruct (walk_fresh fuel follow [] p) as [-> Hres];
    [apply not_elem_of_nil|done|]. split; [done|].
  destruct (walk fuel s follow [] p); simpl; try done. by apply agree.
Qed.

Lemma stat_fresh (p : path) : n ∉ p → stat s' p = stat s p.
Proof. intros Hp. apply node_at_fresh, Hp. Qed.

Lemma lstat_fresh (p : path) : n ∉ p → lstat s' p = lstat s p.
Proof. intros Hp. apply node_at_fresh, Hp. Qed.

Lemma readlink_fresh (p : path) (t : string) :
  n ∉ p → lstat s p = Some (Link t) → readlink p s' = Ok t s'.
Proof.
  intros Hp Hl. unfold readlink, lstat, llocate in *.
  destruct (walk_fresh MAXSYMLINKS false [] p) as [-> Hres];
    [apply not_elem_of_nil|done|].
  destruct (walk MAXSYMLINKS s false [] p) as [q| |]; simpl in *; try done.
  by rewrite (agree q Hres), Hl.
Qed.
End fresh.

(** A path that [lstat] finds and that is no symbolic link is found by
    [stat] as well. *)
Lemma walk1_nofollow (s : fs) (cur rest : list string) :
  match walk1 s false cur rest with
  | Stop (Found p) =>
      (∃ t, s !! p = Some (Link t)) ∨ walk1 s true cur rest = Stop (Found p)
  | Stop r => walk1 s true cur rest = Stop r
  | Jump c r => walk1 s true cur rest = Jump c r
  end.
Proof.
  revert cur. induction rest as [|c rest IH]; intros cur; simpl; [by right|].
  destruct (decide (c = "" ∨ c = ".")); [apply IH|].
  destruct (decide (c = "..")); [apply IH|].
  destruct (s !! (cur ++ [c])) as [[perm data|t|]|] eqn:Hlk.
  - destruct rest; [by right|done].
  - destruct rest; [left; eauto|done].
  - apply IH.
  - by destruct rest.
Qed.

Lemma lstat_stat (s : fs) (p : path) (nd : node) :
  lstat s p = Some nd → (∀ t, nd ≠ Link t) → stat s p = Some nd.
Proof.
  unfold lstat, stat, llocate, locate. generalize MAXSYMLINKS. intros fuel.
  generalize (@nil string). revert p.
  induction fuel as [|fuel IH]; intros p cur; simpl;
    pose proof (walk1_nofollow s cur p) as H1;
    destruct (walk1 s false cur p) as [[q|q|e]|c r]; simpl; try done.
  - intros Hq Hnd. destruct H1 as [[t Ht]| ->]; [|done].
    rewrite Ht in Hq. injection Hq as <-. by destruct (Hnd t).
  - intros Hq Hnd. destruct H1 as [[t Ht]| ->]; [|done].
    rewrite Ht in Hq. injection Hq as <-. by destruct (Hnd t).
  - rewrite H1. apply IH.
Qed.

(** ** One staging step *)

Lemma subseteq_no_new (s s' : fs) :
  s ⊆ s' → (∀ q, is_Some (s' !! q) → is_Some (s !! q)) → s' = s.
Proof.
  intros Hsub Hnew. apply map_eq. intros q.
  destruct (s !! q) as [nd|] eqn:Hq.
  - by eapply lookup_weaken.
  - destruct (s' !! q) as [nd|] eqn:Hq'; [|done].
    destruct (Hnew q) as [nd' Hnd']; [by eauto|congruence].
Qed.

Lemma prefix_proper_parent (p q : path) :
  p `prefix_of` q → p ≠ q → p `prefix_of` parent q.
Proof.
  intros [k ->] Hne. destruct k as [|c k _] using rev_ind.
  - by rewrite app_nil_r in Hne.
  - rewrite app_assoc, parent_snoc. by apply prefix_app_r.
Qed.

Lemma longest_real_prefix (sk : fs) (b0 a0 : path) :
  real_dir sk a0 →
  (∀ q, a0 `prefix_of` q → q `prefix_of` a0 ++ b0 → is_Some (sk !! q) →
        sk !! q = Some Dir) →
  (∀ q, a0 `prefix_of` q → is_Some (sk !! q) → real_dir sk (parent q)) →
  sk !! (a0 ++ b0) = None →
  ∃ a x b, a0 ++ b0 = a ++ x :: b ∧ a0 `prefix_of` a ∧ real_dir sk a ∧
           free_below sk (a ++ [x]).
Proof.
  revert a0. induction b0 as [|x b IH]; intros a0 Ha Hdir Hpar Hnone.
  - rewrite app_nil_r in Hnone. by rewrite (real_dir_prefix sk a0 a0) in Hnone.
  - destruct (sk !! (a0 ++ [x])) as [nd|] eqn:Hx.
    + destruct (IH (a0 ++ [x])) as (a & x' & b' & Heq & Hpre & Hreal & Hfree).
      * apply real_dir_snoc; [done|]. apply Hdir; [by apply prefix_app_r| |by eauto].
        apply prefix_app, prefix_cons, prefix_nil.
      * intros q Hq1 Hq2. apply Hdir.
        -- trans (a0 ++ [x]); [by apply prefix_app_r|done].
        -- by rewrite <-app_assoc in Hq2.
      * intros q Hq. apply Hpar. trans (a0 ++ [x]); [by apply prefix_app_r|done].
      * by rewrite <-app_assoc.
      * exists a, x', b'. rewrite <-app_assoc in Heq. split; [done|].
        split; [|done]. trans (a0 ++ [x]); [by apply prefix_app_r|done].
    + exists a0, x, b. split; [done|]. split; [done|]. split; [done|].
      apply free_below_intro. intros q Hq.
      destruct (sk !! q) as [nd|] eqn:Hq'; [|done].
      destruct (decide (a0 ++ [x] = q)) as [<-|Hne]; [congruence|].
      assert (real_dir sk (parent q)) as Hr.
      { apply Hpar; [|by eauto]. trans (a0 ++ [x]); [by apply prefix_app_r|done]. }
      rewrite (real_dir_prefix sk (parent q) (a0 ++ [x]) Hr) in Hx; [done|].
      by apply prefix_proper_parent.
Qed.

Lemma mkdir_parent_vacant (a : path) (x : string) (b : path) (s : fs) :
  simple (a ++ x :: b) → real_dir s a → free_below s (a ++ [x]) →
  ∃ s1, mkdir_parents (parent (a ++ x :: b)) s = Ok () s1 ∧
        vacant s1 (a ++ x :: b) ∧ staged (a ++ [x]) s s1 ∧
        ∀ q, is_Some (s1 !! q) →
             is_Some (s !! q) ∨
             (q `prefix_of` a ++ x :: b ∧ s1 !! q = Some Dir).
Proof.
  intros Hs Ha Hf. destruct b as [|c b _] using rev_ind.
  - rewrite parent_snoc. unfold mkdir_parents.
    destruct (mkdir_parents_aux_spec [] a (length a) s)
      as (s1 & Hrun & _ & Hsub & Hnew); try done.
    { simpl. lia. }
    { rewrite app_nil_r. by eapply simple_prefix, prefix_app_r. }
    rewrite app_nil_r in *.
    assert (s1 = s) as ->.
    { apply subseteq_no_new; [done|]. intros q Hq.
      destruct (Hnew q Hq) as [?|(Haq & Hne & Hqa)]; [done|].
      destruct Hne. by apply (anti_symm prefix). }
    exists s. split; [done|]. split; [|split; [apply staged_refl|by left]].
    split; [by destruct a|]. by rewrite parent_snoc.
  - assert (a ++ x :: b ++ [c] = (a ++ x :: b) ++ [c]) as Heq.
    { by rewrite <-app_assoc. }
    rewrite Heq in *. rewrite parent_snoc.
    apply Forall_app in Hs as [Hs Hc].
    destruct (mkdir_parents_staged a x b s Hs Ha Hf)
      as (s1 & Hrun & Hst & Hreal & Hnew).
    exists s1. split; [done|]. split; [|split; [done|]].
    + split; [by destruct (a ++ x :: b)|]. split; [by apply Forall_app|].
      rewrite parent_snoc. split; [done|].
      apply free_below_intro. intros q Hq.
      destruct (s1 !! q) as [nd|] eqn:Hq1; [|done].
      destruct (Hnew q) as [[nd' Hq']|Hqp]; [by eauto|..].
      * rewrite (free_below_lookup s (a ++ [x]) q Hf) in Hq'; [done|].
        trans ((a ++ x :: b) ++ [c]); [|done]. rewrite <-app_assoc.
        apply prefix_app, prefix_cons, prefix_nil.
      * assert (length ((a ++ x :: b) ++ [c]) ≤ length (a ++ x :: b)) as Hlen.
        { etrans; by apply prefix_length. }
        rewrite (length_app _ [c]) in Hlen. simpl in Hlen. lia.
    + intros q Hq. destruct (Hnew q Hq) as [?|Hqp]; [by left|]. right.
      split; [by apply prefix_app_r|]. by apply (real_dir_prefix s1 (a ++ x :: b)).
Qed.

Lemma basename_elem_of (p : path) : p ≠ [] → basename p ∈ p.
Proof.
  intros Hne. destruct (path_snoc_inv p Hne) as (d & c & ->).
  rewrite basename_snoc. apply elem_of_app. right. left.
Qed.


(** What [stat] finds is a regular file or a directory. *)
Lemma real_dir_removelast (s : fs) (p : path) : real_dir s p → real_dir s (removelast p).
Proof. intros Hp. apply (real_dir_parent s p); [done|apply prefix_parent]. Qed.

Lemma walk1_found_kind (s : fs) (cur rest : list string) :
  real_dir s cur →
  match walk1 s true cur rest with
  | Stop (Found q) => (∃ perm data, s !! q = Some (File perm data)) ∨ s !! q = Some Dir
  | Stop _ => True
  | Jump c r => real_dir s c
  end.
Proof.
  revert cur. induction rest as [|c rest IH]; intros cur Hcur; simpl.
  - right. by apply (real_dir_prefix s cur).
  - destruct (decide (c = "" ∨ c = ".")); [by apply IH|].
    destruct (decide (c = "..")); [by apply IH, real_dir_removelast|].
    destruct (s !! (cur ++ [c])) as [[perm data|t|]|] eqn:Hlk.
    + destruct rest; [left; eauto|done].
    + assert (real_dir s (if is_absolute t then [] else cur)).
      { destruct (is_absolute t); [|done]. by apply (real_dir_parent s cur), prefix_nil. }
      by destruct rest.
    + by apply IH, real_dir_snoc.
    + by destruct rest.
Qed.

Lemma walk_found_kind (fuel : nat) (s : fs) (cur p : list string) (nd : node) :
  real_dir s cur → node_at s (walk fuel s true cur p) = Some nd →
  (∃ perm data, nd = File perm data) ∨ nd = Dir.
Proof.
  revert cur p. induction fuel as [|fuel IH]; intros cur p Hcur; simpl;
    pose proof (walk1_found_kind s cur p Hcur) as H1;
    destruct (walk1 s true cur p) as [[q|q|e]|c r]; simpl; try done.
  - intros Hq. rewrite Hq in H1. destruct H1 as [(perm & data & [= ->])|[= ->]]; eauto.
  - intros Hq. rewrite Hq in H1. destruct H1 as [(perm & data & [= ->])|[= ->]]; eauto.
  - by apply IH.
Qed.

Lemma stat_kind (s : fs) (p : path) (nd : node) :
  s !! [] = Some Dir → stat s p = Some nd →
  (∃ perm data, nd = File perm data) ∨ nd = Dir.
Proof.
  intros Hroot. apply walk_found_kind.
  apply real_dir_intro. intros q Hq. by apply prefix_nil_inv in Hq as ->.
Qed.

(** ** Resolved paths *)

(** What [lstat] finds that is not a symbolic link is what [stat] finds. *)
Lemma walk_nofollow (fuel : nat) (s : fs) (cur rest : list string) :
  match walk fuel s false cur rest with
  | Found p =>
      (∃ t, s !! p = Some (Link t)) ∨ walk fuel s true cur rest = Found p
  | r => walk fuel s true cur rest = r
  end.
Proof.
  revert cur rest. induction fuel as [|fuel IH]; intros cur rest; simpl;
    pose proof (walk1_nofollow s cur rest) as H1;
    destruct (walk1 s false cur rest) as [[q|q|e]|c r].
  - destruct H1 as [?| ->]; [by left|by right].
  - by rewrite H1.
  - by rewrite H1.
  - by rewrite H1.
  - destruct H1 as [?| ->]; [by left|by right].
  - by rewrite H1.
  - by rewrite H1.
  - rewrite H1. apply IH.
Qed.

(** What [stat] finds, [lstat] finds, or it finds a symbolic link. *)
Lemma stat_lstat (s : fs) (p : path) (nd : node) :
  stat s p = Some nd →
  ∃ q, llocate s p = Found q ∧
       ((∃ t, s !! q = Some (Link t)) ∨ (locate s p = Found q ∧ s !! q = Some nd)).
Proof.
  unfold stat, llocate, locate. intros Hst.
  pose proof (walk_nofollow MAXSYMLINKS s [] p) as H.
  destruct (walk MAXSYMLINKS s false [] p) as [q|q|e].
  - exists q. split; [done|]. destruct H as [?|H]; [by left|right].
    rewrite H in Hst. by rewrite H.
  - by rewrite H in Hst.
  - by rewrite H in Hst.
Qed.

(** The path that a walk finds is canonical: a regular file or a directory
    in a chain of real directories. *)
Lemma walk1_canonical (s : fs) (cur rest : list string) :
  simple_fs s → real_dir s cur → simple cur →
  match walk1 s true cur rest with
  | Stop (Found q) =>
      simple q ∧ real_dir s (parent q) ∧
      ∃ nd, s !! q = Some nd ∧ ∀ t, nd ≠ Link t
  | Stop _ => True
  | Jump c r => real_dir s c ∧ simple c
  end.
Proof.
  intros Hs. revert cur. induction rest as [|c rest IH]; intros cur Hcur Hsc; simpl.
  - split; [done|]. split; [by apply real_dir_removelast|].
    exists Dir. split; [by apply (real_dir_prefix s cur cur)|done].
  - destruct (decide (c = "" ∨ c = ".")); [by apply IH|].
    assert (simple (removelast cur)) as Hsr.
    { apply (simple_prefix cur); [done|apply prefix_parent]. }
    destruct (decide (c = "..")); [by apply IH; [apply real_dir_removelast|]|].
    destruct (s !! (cur ++ [c])) as [[perm data|t|]|] eqn:Hlk.
    + destruct rest; [|done]. split; [by apply (Hs _ _ Hlk)|].
      rewrite parent_snoc. split; [done|]. rewrite Hlk. eauto.
    + assert (real_dir s (if is_absolute t then [] else cur) ∧
              simple (if is_absolute t then [] else cur)).
      { destruct (is_absolute t); [|done].
        split; [by apply (real_dir_parent s cur), prefix_nil|by apply Forall_nil]. }
      by destruct rest.
    + apply IH; [by apply real_dir_snoc|by apply (Hs _ _ Hlk)].
    + by destruct rest.
Qed.

Lemma walk_canonical (fuel : nat) (s : fs) (cur rest : list string) (q : path) :
  simple_fs s → real_dir s cur → simple cur →
  walk fuel s true cur rest = Found q →
  simple q ∧ real_dir s (parent q) ∧ ∃ nd, s !! q = Some nd ∧ ∀ t, nd ≠ Link t.
Proof.
  intros Hs. revert cur rest.
  induction fuel as [|fuel IH]; intros cur rest Hcur Hsc; simpl;
    pose proof (walk1_canonical s cur rest Hs Hcur Hsc) as H1;
    destruct (walk1 s true cur rest) as [[q'|q'|e]|c r]; try done.
  - by intros [= <-].
  - by intros [= <-].
  - destruct H1. by apply IH.
Qed.

Lemma real_dir_root (s : fs) : s !! [] = Some Dir → real_dir s [].
Proof.
  intros Hroot. apply real_dir_intro. intros q Hq.
  by apply prefix_nil_inv in Hq as ->.
Qed.

(** [Path.resolve] is idempotent, and [stat] of a resolved path is the
    entry at that path. *)
Lemma locate_canonical (s : fs) (p q : path) :
  simple_fs s → s !! [] = Some Dir → locate s p = Found q →
  locate s q = Found q ∧ stat s q = s !! q ∧ stat s p = s !! q.
Proof.
  intros Hs Hroot Hp.
  assert (locate s q = Found q) as Hq.
  { destruct (walk_canonical MAXSYMLINKS s [] p q Hs)
      as (Hsq & Hpar & nd & Hnd & Hnl);
      [by apply real_dir_root|by apply Forall_nil|done|].
    destruct q as [|c d _] using rev_ind.
    - apply (locate_real_dir s []); [by apply real_dir_root|done].
    - rewrite parent_snoc in Hpar. apply Forall_app in Hsq as [Hsd Hc].
      rewrite Forall_singleton in Hc.
      rewrite locate_child; [by rewrite Hnd|done..|].
      intros t. rewrite Hnd. intros [= ->]. by destruct (Hnl t). }
  split; [done|]. unfold stat. by rewrite Hq, Hp.
Qed.

Lemma copy2_vacant_ok (src dst : path) (s : fs) (u : unit) (s' : fs) :
  vacant s dst → copy2 src dst s = Ok u s' →
  ∃ data, stat s src = Some (File true data) ∧ s' = <[dst := File true data]> s.
Proof.
  intros Hv. rewrite copy2_vacant by done.
  destruct (stat s src) as [[[] data|t|]|]; try done. intros [= <-]. eauto.
Qed.

Lemma stage_entry_staged (rs : bool) (src dst : path) (s : fs) :
  simple_fs s → vacant s dst →
  staged dst s (final (stage_entry rs src dst s)) ∧
  ∀ u s', stage_entry rs src dst s = Ok u s' → is_Some (s' !! dst).
Proof.
  intros Hs Hv. unfold stage_entry.
  destruct (rs && is_symlink s src).
  { destruct (resolve s src) as [real|]; [|split; [apply staged_refl|done]].
    destruct (is_dir s real).
    - destruct (copytree_aux_staged recursion_limit real dst s Hs Hv) as [H1 H2].
      split; [done|]. intros u s' Hok. rewrite (H2 u s' Hok). eauto.
    - split; [by apply copy2_vacant_staged|]. intros u s' Hok.
      destruct (copy2_vacant_ok _ _ _ _ _ Hv Hok) as (data & _ & ->).
      rewrite lookup_insert_eq. eauto. }
  destruct (is_symlink s src && negb rs).
  { unfold mbind, M_bind.
    destruct (readlink_final src s) as [[t ->]|[e ->]]; [|split; [apply staged_refl|done]].
    rewrite os_symlink_vacant by done. simpl. split; [by apply staged_insert|].
    intros u s' [= <- <-]. rewrite lookup_insert_eq. eauto. }
  split; [by apply copy2_vacant_staged|]. intros u s' Hok.
  destruct (copy2_vacant_ok _ _ _ _ _ Hv Hok) as (data & _ & ->).
  rewrite lookup_insert_eq. eauto.
Qed.

Lemma readlink_link (p : path) (s : fs) (t : string) :
  lstat s p = Some (Link t) → readlink p s = Ok t s.
Proof.
  unfold lstat, readlink. destruct (llocate s p) as [q| |]; try done. simpl.
  by intros ->.
Qed.

(** Staging a sync path that leads to a regular file, at a free
    destination: the file is copied, or the link is made again. *)
Lemma stage_entry_file (rs : bool) (src dst : path) (s : fs) (perm : bool)
    (data : string) :
  simple_fs s → s !! [] = Some Dir → vacant s dst →
  stat s src = Some (File perm data) →
  (perm = false ∧ stage_entry rs src dst s = Raise PermissionError s) ∨
  (∃ nd, stage_entry rs src dst s = Ok () (<[dst := nd]> s) ∧
     (∀ perm' data', lstat s src = Some (File perm' data') →
                     nd = File perm' data') ∧
     (rs = false → ∀ t, lstat s src = Some (Link t) → nd = Link t) ∧
     (rs = true → nd = File true data)).
Proof.
  intros Hs Hroot Hv Hst.
  assert (copy2 src dst s = if perm then Ok () (<[dst := File true data]> s)
                            else Raise PermissionError s) as Hcopy.
  { rewrite copy2_vacant by done. rewrite Hst. by destruct perm. }
  assert (∀ perm' data', lstat s src = Some (File perm' data') →
            perm' = perm ∧ data' = data) as Hplain.
  { intros perm' data' Hl. pose proof (lstat_stat _ _ _ Hl) as Hs2.
    rewrite Hst in Hs2. specialize (Hs2 ltac:(done)). by injection Hs2 as -> ->. }
  unfold stage_entry, is_symlink.
  destruct (lstat s src) as [[perm' data'|t|]|] eqn:Hl.
  - rewrite andb_false_r. simpl. rewrite Hcopy.
    destruct (Hplain perm' data' eq_refl) as [-> ->].
    destruct perm; [right|by left].
    exists (File true data). split; [done|]. split; [by intros ?? [= <- <-]|done].
  - destruct rs; simpl.
    + unfold stat in Hst. unfold resolve.
      destruct (locate s src) as [real| |] eqn:Hloc; try done.
      destruct (locate_canonical s src real Hs Hroot Hloc) as (_ & Hreal & _).
      simpl in Hst. unfold is_dir. rewrite Hreal, Hst.
      rewrite copy2_vacant by done. rewrite Hreal, Hst.
      destruct perm; [right|by left].
      exists (File true data). split; [done|]. split; [done|]. by split.
    + unfold mbind, M_bind. rewrite (readlink_link src s t Hl).
      rewrite os_symlink_vacant by done. right.
      exists (Link t). split; [done|]. split; [done|].
      split; [by intros _ t' [= ->]|done].
  - rewrite andb_false_r. simpl. rewrite Hcopy.
    destruct perm; [right|by left].
    exists (File true data). split; [done|]. split; [done|]. by split.
  - rewrite andb_false_r. simpl. rewrite Hcopy.
    destruct perm; [right|by left].
    exists (File true data). split; [done|]. split; [done|]. by split.
Qed.

Lemma prepare_staging_path_unfold (source_dir staging : path) (rs : bool)
    (sp : path) (s : fs) :
  prepare_staging_path source_dir staging rs sp s =
  let src := source_dir ++ sp in
  let dst := staging ++ sp in
  if negb (exists_ s src) then Ok () s
  else if is_file s src || (is_symlink s src && negb (is_dir s src)) then
    (_ ← mkdir_parents (parent dst); stage_entry rs src dst) s
  else if is_dir s src then _copy_dir recursion_limit src dst rs s
  else Ok () s.
Proof. done. Qed.

Section staging.
Variable s : fs.
Variables tmp source_dir : path.
Variable rs : bool.
Hypothesis s_simple : simple_fs s.
Hypothesis tmp_vacant : vacant s tmp.
Hypothesis s_avoids : links_avoid (basename tmp) s.
Hypothesis src_avoids : basename tmp ∉ source_dir.

Lemma under_tmp_fresh (q : path) : tmp `prefix_of` q → basename tmp ∈ q.
Proof.
  intros Hq. eapply elem_of_prefix; [|done].
  apply basename_elem_of, tmp_vacant.
Qed.

Lemma under_tmp_new (q : path) : tmp `prefix_of` q → s !! q = None.
Proof. apply free_below_lookup, tmp_vacant. Qed.

Lemma staging_inv_agree (P : list path) (sk : fs) (q : path) :
  staging_inv s tmp P sk → basename tmp ∉ q → sk !! q = s !! q.
Proof.
  intros (Hsub & _ & _ & Hcl) Hq.
  destruct (s !! q) as [nd|] eqn:Hsq; [by eapply lookup_weaken|].
  destruct (sk !! q) as [nd|] eqn:Hskq; [|done].
  destruct (Hcl q) as [[nd' ?]|(Htq & _)]; [by eauto|congruence|].
  destruct Hq. by apply under_tmp_fresh.
Qed.

Lemma staging_inv_init : staging_inv s tmp [] (<[tmp := Dir]> s).
Proof.
  destruct (staged_insert s tmp Dir tmp_vacant) as [Hsub Hnew].
  destruct (vacant_inv s tmp tmp_vacant) as (d & c & Heq & Hd & _).
  assert (real_dir (<[tmp := Dir]> s) tmp) as Hreal.
  { rewrite Heq in Hsub |- *. apply real_dir_snoc; [by eapply real_dir_mono|].
    apply lookup_insert_eq. }
  split; [done|]. split; [by eapply staged_simple_fs|]. split; [done|].
  intros q Hq. destruct (Hnew q Hq) as [?|(Hpre & _ & Hr)]; [by left|].
  destruct (decide (tmp = q)) as [<-|Hne].
  - right. split; [done|]. split; [done|]. right. split; [|by left].
    apply lookup_insert_eq.
  - rewrite lookup_insert_ne in Hq by done. by left.
Qed.

Lemma staging_inv_chain (P : list path) (sk : fs) (sp : path) :
  staging_inv s tmp P sk → sp ≠ [] →
  (∀ sp', sp' ∈ P → ¬ sp `prefix_of` sp' ∧ ¬ sp' `prefix_of` sp) →
  ∃ a x b, tmp ++ sp = a ++ x :: b ∧ tmp `prefix_of` a ∧ real_dir sk a ∧
           free_below sk (a ++ [x]).
Proof.
  intros (Hsub & Hsk & Hreal & Hcl) Hne Hinc.
  assert (∀ q, tmp `prefix_of` q → q `prefix_of` tmp ++ sp → is_Some (sk !! q) →
    q ≠ tmp ++ sp ∧ sk !! q = Some Dir) as Hbetween.
  { intros q Hq1 Hq2 Hq.
    destruct (Hcl q Hq) as [[nd Hnd]|(_ & _ & [(sp' & Hsp' & Hpre)|(Hd & Hanc)])].
    - by rewrite under_tmp_new in Hnd.
    - destruct (Hinc sp' Hsp') as [_ []].
      eapply prefix_app_inv. by trans q.
    - split; [|done]. intros ->.
      destruct Hanc as [Heq|(sp' & Hsp' & Hpre)].
      + rewrite <-(app_nil_r tmp) in Heq at 2. by apply app_inv_head in Heq.
      + destruct (Hinc sp' Hsp') as [[] _]. by eapply prefix_app_inv. }
  apply longest_real_prefix; [done|..].
  - intros q Hq1 Hq2 Hq. by apply Hbetween.
  - intros q Hq1 Hq.
    destruct (Hcl q Hq) as [[nd Hnd]|(_ & ? & _)]; [|done].
    by rewrite under_tmp_new in Hnd.
  - destruct (sk !! (tmp ++ sp)) as [nd|] eqn:Hd; [|done].
    destruct (Hbetween (tmp ++ sp)) as [[] _]; [by apply prefix_app_r|done|by eauto|done].
Qed.

Lemma staging_inv_extend (P : list path) (sk s' : fs) (sp : path) :
  staging_inv s tmp P sk → sk ⊆ s' → simple_fs s' →
  (∀ q, is_Some (s' !! q) →
     is_Some (sk !! q) ∨
     (tmp `prefix_of` q ∧ real_dir s' (parent q) ∧
      (tmp ++ sp `prefix_of` q ∨
       (s' !! q = Some Dir ∧ q `prefix_of` tmp ++ sp)))) →
  staging_inv s tmp (sp :: P) s'.
Proof.
  intros (Hsub & Hsk & Hreal & Hcl) Hsub' Hs' Hnew.
  split; [by etrans|]. split; [done|]. split; [by eapply real_dir_mono|].
  intros q Hq. destruct (Hnew q Hq) as [Hq'|(Htq & Hr & Hcase)].
  - destruct (Hcl q Hq') as [?|(Htq & Hr & Hcase)]; [by left|]. right.
    split; [done|]. split; [by eapply real_dir_mono|].
    destruct Hcase as [(sp' & Hsp' & Hpre)|(Hd & Hanc)].
    + left. exists sp'. split; [by right|done].
    + right. split; [by eapply lookup_weaken|].
      destruct Hanc as [?|(sp' & Hsp' & Hpre)]; [by left|].
      right. exists sp'. split; [by right|done].
  - right. split; [done|]. split; [done|].
    destruct Hcase as [Hpre|[Hd Hanc]].
    + left. exists sp. split; [left|done].
    + right. split; [done|]. right. exists sp. split; [left|done].
Qed.

Lemma staged_agree (d : path) (sk s1 : fs) :
  tmp `prefix_of` d → staged d sk s1 →
  (∀ q, basename tmp ∉ q → sk !! q = s !! q) →
  ∀ q, basename tmp ∉ q → s1 !! q = s !! q.
Proof.
  intros Hd [Hsub Hnew] Hag q Hq. rewrite <-(Hag q Hq).
  destruct (sk !! q) as [nd|] eqn:Hsq; [by eapply lookup_weaken|].
  destruct (s1 !! q) as [nd|] eqn:Hs1q; [|done].
  destruct (Hnew q) as [[nd' ?]|(Hdq & _)]; [by eauto|congruence|].
  destruct Hq. apply under_tmp_fresh. by trans d.
Qed.

Lemma staging_step (P : list path) (sk : fs) (sp : path) :
  staging_inv s tmp P sk → sp ≠ [] → simple sp → basename tmp ∉ sp →
  (∀ sp', sp' ∈ P → ¬ sp `prefix_of` sp' ∧ ¬ sp' `prefix_of` sp) →
  staged tmp sk (final (prepare_staging_path source_dir tmp rs sp sk)) ∧
  (exists_ s (source_dir ++ sp) = false →
   prepare_staging_path source_dir tmp rs sp sk = Ok () sk) ∧
  (exists_ s (source_dir ++ sp) = true →
   (∀ u s', prepare_staging_path source_dir tmp rs sp sk = Ok u s' →
      staging_inv s tmp (sp :: P) s' ∧ sk ⊆ s' ∧
      is_Some (s' !! (tmp ++ sp)) ∧
      (∀ perm data, lstat s (source_dir ++ sp) = Some (File perm data) →
                    s' !! (tmp ++ sp) = Some (File perm data)) ∧
      (rs = false → ∀ t, lstat s (source_dir ++ sp) = Some (Link t) →
                    is_file s (source_dir ++ sp) = true →
                    s' !! (tmp ++ sp) = Some (Link t)) ∧
      (rs = true → ∀ perm data,
                    stat s (source_dir ++ sp) = Some (File perm data) →
                    s' !! (tmp ++ sp) = Some (File true data)) ∧
      (is_dir s (source_dir ++ sp) = true → s' !! (tmp ++ sp) = Some Dir)) ∧
   (∀ data, stat s (source_dir ++ sp) = Some (File true data) →
      ∃ s', prepare_staging_path source_dir tmp rs sp sk = Ok () s')).
Proof.
  intros Hinv Hne Hsp Hfresh Hinc.
  pose proof (staging_inv_agree P sk) as Hag. specialize (λ q, Hag q Hinv).
  assert (basename tmp ∉ source_dir ++ sp) as Hp.
  { apply not_elem_of_app. by split. }
  pose proof (stat_fresh _ s sk Hag s_avoids _ Hp) as Hstat.
  pose proof (lstat_fresh _ s sk Hag s_avoids _ Hp) as Hlstat.
  rewrite prepare_staging_path_unfold. simpl.
  unfold exists_, is_file, is_dir, is_symlink. rewrite Hstat, Hlstat.
  destruct (stat s (source_dir ++ sp)) as [nd|] eqn:Hst; simpl;
    [|split; [apply staged_refl|done]].
  assert (s !! [] = Some Dir) as Hroot.
  { destruct tmp_vacant as (_ & _ & Hr & _).
    apply (real_dir_prefix s (parent tmp)); [done|apply prefix_nil]. }
  destruct (staging_inv_chain P sk sp Hinv Hne Hinc)
    as (a & x & b & Hdst & Hta & Hreal & Hfree).
  assert (simple (tmp ++ sp)) as Hsdst.
  { apply Forall_app. split; [apply tmp_vacant|done]. }
  pose proof Hinv as (Hsub & Hsk & Hrtmp & Hcl).
  assert (tmp `prefix_of` a ++ [x]) as Htax by (by apply prefix_app_r).
  assert (a ++ [x] `prefix_of` a ++ x :: b) as Hax.
  { apply prefix_app, prefix_cons, prefix_nil. }
  assert (stat s (source_dir ++ sp) = Some nd) as Hst' by done.
  destruct (stat_kind s _ nd Hroot Hst) as [(perm & data & ->)| ->]; simpl.
  - (* a regular file, possibly behind a symbolic link *)
    rewrite Hdst in *.
    destruct (mkdir_parent_vacant a x b sk) as (s1 & Hrun & Hv & Hst1 & Hnew1);
      [done..|].
    unfold mbind, M_bind. rewrite Hrun.
    pose proof (staged_simple_fs _ _ _ Hst1 Hsk) as Hs1.
    pose proof (staged_agree _ _ _ Htax Hst1 Hag) as Hag1.
    pose proof (stat_fresh _ s s1 Hag1 s_avoids _ Hp) as Hstat1.
    pose proof (lstat_fresh _ s s1 Hag1 s_avoids _ Hp) as Hlstat1.
    rewrite Hst' in Hstat1.
    assert (s1 !! [] = Some Dir) as Hroot1.
    { eapply lookup_weaken; [done|]. etrans; [done|apply Hst1]. }
    destruct (stage_entry_file rs (source_dir ++ sp) (a ++ x :: b) s1 perm data
                Hs1 Hroot1 Hv Hstat1)
      as [[-> ->]|(nd & -> & Hplain & Hlink & Hres)]; simpl.
    { split; [by eapply (staged_trans tmp (a ++ [x]) (a ++ [x]));
                [| |exact Hst1|apply staged_refl]|].
      split; [done|]. intros _. split; [done|]. by intros data' [= ?]. }
    pose proof (staged_insert s1 (a ++ x :: b) nd Hv) as Hst2.
    assert (staged (a ++ [x]) sk (<[a ++ x :: b := nd]> s1)) as Hall.
    { by eapply (staged_trans (a ++ [x]) (a ++ [x]) (a ++ x :: b)). }
    split; [|split; [done|intros _; split; [|by eauto]]].
    + eapply (staged_trans tmp (a ++ [x]) (a ++ x :: b));
        [done|by trans (a ++ [x])|exact Hst1|exact Hst2].
    + intros u s' [= <- <-].
      split; [|split; [apply Hall|split; [rewrite lookup_insert_eq; eauto|]]].
      * apply (staging_inv_extend P sk _ sp);
          [done|apply Hall|by eapply staged_simple_fs|]. rewrite Hdst.
        intros q Hq. destruct Hst2 as [Hsub2 Hnew2].
        destruct (Hnew2 q Hq) as [Hq1|(Hdq & _ & Hr)].
        -- destruct (Hnew1 q Hq1) as [?|[Hqd Hd]]; [by left|].
           destruct (decide (is_Some (sk !! q))) as [?|Hnot]; [by left|]. right.
           destruct Hst1 as [_ Hnew1'].
           destruct (Hnew1' q Hq1) as [?|(Haq & _ & Hr)]; [done|].
           split; [by trans (a ++ [x])|]. split; [by eapply real_dir_mono|].
           right. split; [by eapply lookup_weaken|done].
        -- right. split; [by trans (a ++ x :: b); [trans (a ++ [x])|]|].
           split; [done|]. by left.
      * rewrite lookup_insert_eq. rewrite Hlstat1 in Hplain, Hlink.
        split; [intros perm' data' Hl; by rewrite (Hplain perm' data' Hl)|].
        split; [intros Hrs t Hl _; by rewrite (Hlink Hrs t Hl)|].
        split; [|done]. intros Hrs perm' data' [= <- <-]. by rewrite (Hres Hrs).
  - (* a directory, possibly behind a symbolic link *)
    rewrite andb_false_r. simpl. rewrite Hdst.
    destruct (copy_dir_staged recursion_limit (source_dir ++ sp) a x b rs sk)
      as (Hst1 & Hnew1 & Hok1); [done..|by rewrite <-Hdst|done|done|].
    split; [|split; [done|intros _; split]].
    + eapply (staged_trans tmp (a ++ [x]) (a ++ [x]));
        [done|done|exact Hst1|apply staged_refl].
    + intros u s' Hrun. rewrite Hrun in Hst1, Hnew1. simpl in Hst1, Hnew1.
      split; [|split; [apply Hst1|split; [rewrite (Hok1 u s' Hrun); eauto|]]].
      * apply (staging_inv_extend P sk s' sp);
          [done|apply Hst1|by eapply staged_simple_fs|]. rewrite Hdst.
        intros q Hq. destruct (decide (is_Some (sk !! q))) as [?|Hnot]; [by left|].
        right. destruct Hst1 as [_ Hnew1'].
        destruct (Hnew1' q Hq) as [?|(Haq & _ & Hr)]; [done|].
        split; [by trans (a ++ [x])|]. split; [done|].
        destruct (Hnew1 q Hq) as [?|[[Hqd Hd]|Hdq]]; [done|by right|by left].
      * split; [|split; [by intros _ t _ Hf|split; [done|intros _; by apply (Hok1 u s')]]].
        intros perm data Hl. pose proof (lstat_stat _ _ _ Hl) as Hs2.
        rewrite Hst' in Hs2. by specialize (Hs2 ltac:(done)).
    + done.
Qed.

Lemma for_each_cons_run (sp : path) (sps : list path) (body : path → M unit)
    (sk : fs) :
  for_each (sp :: sps) body sk =
  match body sp sk with
  | Ok _ s' => for_each sps body s'
  | Raise e s' => Raise e s'
  end.
Proof. done. Qed.

Lemma staging_run (sps : list path) (P : list path) (sk : fs) :
  staging_inv s tmp P sk →
  Forall (λ sp, sp ≠ [] ∧ simple sp ∧ basename tmp ∉ sp) sps →
  incomparable sps →
  (∀ sp sp', sp ∈ sps → sp' ∈ P →
     ¬ sp `prefix_of` sp' ∧ ¬ sp' `prefix_of` sp) →
  staged tmp sk
    (final (for_each sps (prepare_staging_path source_dir tmp rs) sk)) ∧
  for_each sps (prepare_staging_path source_dir tmp rs) sk =
    for_each (filter (λ sp, exists_ s (source_dir ++ sp) = true) sps)
      (prepare_staging_path source_dir tmp rs) sk ∧
  (∀ u s', for_each sps (prepare_staging_path source_dir tmp rs) sk = Ok u s' →
     sk ⊆ s' ∧
     (∃ P', staging_inv s tmp P' s' ∧
        ∀ sp, sp ∈ P' →
          sp ∈ P ∨ (sp ∈ sps ∧ exists_ s (source_dir ++ sp) = true)) ∧
     ∀ sp, sp ∈ sps → exists_ s (source_dir ++ sp) = true →
       is_Some (s' !! (tmp ++ sp)) ∧
       (∀ perm data, lstat s (source_dir ++ sp) = Some (File perm data) →
                     s' !! (tmp ++ sp) = Some (File perm data)) ∧
       (rs = false → ∀ t, lstat s (source_dir ++ sp) = Some (Link t) →
                     is_file s (source_dir ++ sp) = true →
                     s' !! (tmp ++ sp) = Some (Link t)) ∧
       (rs = true → ∀ perm data,
                     stat s (source_dir ++ sp) = Some (File perm data) →
                     s' !! (tmp ++ sp) = Some (File true data)) ∧
       (is_dir s (source_dir ++ sp) = true → s' !! (tmp ++ sp) = Some Dir)) ∧
  ((∀ sp, sp ∈ sps → exists_ s (source_dir ++ sp) = true →
      ∃ data, stat s (source_dir ++ sp) = Some (File true data)) →
   ∃ s', for_each sps (prepare_staging_path source_dir tmp rs) sk = Ok () s').
Proof.
  revert P sk. induction sps as [|sp sps IH]; intros P sk Hinv Hall Hinc HP.
  { split; [apply staged_refl|]. split; [done|]. split; [|by eauto].
    intros u s' [= <- <-]. split; [done|]. split; [|by intros sp Hsp%elem_of_nil].
    exists P. split; [done|]. by left. }
  apply Forall_cons in Hall as [(Hne & Hsp & Hfresh) Hall].
  destruct Hinc as [Hinc1 Hinc].
  destruct (staging_step P sk sp Hinv Hne Hsp Hfresh) as (Hfin & Hskip & Hex).
  { intros sp' Hsp'. apply HP; [left|done]. }
  rewrite for_each_cons_run.
  destruct (exists_ s (source_dir ++ sp)) eqn:Hsrc.
  - rewrite filter_cons_True by done. rewrite for_each_cons_run.
    destruct (Hex eq_refl) as [Hok Htot].
    destruct (prepare_staging_path source_dir tmp rs sp sk) as [u1 s1|e s1] eqn:Hrun;
      simpl in Hfin.
    + destruct (Hok u1 s1 eq_refl) as (Hinv1 & Hsub1 & Hdst & Hfile & Hlink & Hrsv & Hdir).
      destruct (IH (sp :: P) s1 Hinv1 Hall Hinc) as (Hfin' & Heq & Hok' & Htot').
      { intros sp1 sp2 Hsp1 [->|Hsp2]%elem_of_cons.
        - rewrite Forall_forall in Hinc1. destruct (Hinc1 sp1 Hsp1). by split.
        - apply HP; [by right|done]. }
      split; [by eapply (staged_trans tmp tmp tmp)|]. split; [done|]. split.
      * intros u s' Hrun'. destruct (Hok' u s' Hrun') as (Hsub' & (P' & HP' & HP'') & Hres).
        split; [by etrans|]. split.
        -- exists P'. split; [done|]. intros sp' Hsp'.
           destruct (HP'' sp' Hsp') as [[->|?]%elem_of_cons|[? ?]].
           ++ right. split; [left|done].
           ++ by left.
           ++ right. split; [by right|done].
        -- intros sp' [->|Hsp']%elem_of_cons Hsp'e; [|by apply Hres].
           split; [by eapply lookup_weaken_is_Some|].
           split; [intros perm data Hl; eapply lookup_weaken; [by eapply Hfile|done]|].
           split; [intros Hrs t Hl Hf; eapply lookup_weaken; [by eapply Hlink|done]|].
           split; [intros Hrs perm data Hl; eapply lookup_weaken; [by eapply Hrsv|done]|].
           intros Hd. eapply lookup_weaken; [by apply Hdir|done].
      * intros Hplain. apply Htot'. intros sp' Hsp'. apply Hplain. by right.
    + split; [done|]. split; [done|]. split; [done|].
      intros Hplain. destruct (Hplain sp) as [data Hdata]; [left|done|].
      destruct (Htot data Hdata) as [s' ?]. congruence.
  - rewrite filter_cons_False by (by rewrite Hsrc). rewrite (Hskip eq_refl).
    rewrite (Hskip eq_refl) in Hfin.
    destruct (IH P sk Hinv Hall Hinc) as (Hfin' & Heq & Hok' & Htot').
    { intros sp1 sp2 Hsp1 Hsp2. apply HP; [by right|done]. }
    split; [done|]. split; [done|]. split.
    + intros u s' Hrun'. destruct (Hok' u s' Hrun') as (Hsub' & (P' & HP' & HP'') & Hres).
      split; [done|]. split.
      * exists P'. split; [done|]. intros sp' Hsp'.
        destruct (HP'' sp' Hsp') as [?|[? ?]]; [by left|]. right. split; [by right|done].
      * intros sp' [->|Hsp']%elem_of_cons Hsp'e; [congruence|by apply Hres].
    + intros Hplain. apply Htot'. intros sp' Hsp'. apply Hplain. by right.
Qed.
End staging.

(** ** The staging engine as a whole *)

Lemma prepare_staging_run (tmp source_dir : path) (sps : list path) (rs : bool)
    (s : fs) :
  vacant s tmp →
  prepare_staging tmp source_dir sps rs s =
  match for_each sps (prepare_staging_path source_dir tmp rs) (<[tmp := Dir]> s) with
  | Ok _ s' => Ok tmp s'
  | Raise e s' => Raise e s'
  end.
Proof.
  intros Hv. unfold prepare_staging, mkdtemp, mbind, M_bind.
  rewrite os_mkdir_vacant by done. simpl.
  by destruct (for_each sps _ _).
Qed.

Lemma staging_ready_run (tmp source_dir : path) (sps : list path) (rs : bool)
    (s : fs) :
  staging_ready s tmp source_dir sps →
  staging_inv s tmp [] (<[tmp := Dir]> s) ∧
  ∀ sp sp' : path, sp ∈ sps → sp' ∈ @nil path →
    ¬ sp `prefix_of` sp' ∧ ¬ sp' `prefix_of` sp.
Proof.
  intros (Hs & Hv & Hl & Hsrc & Hall & Hinc).
  split; [by apply staging_inv_init|]. by intros sp sp' _ ?%elem_of_nil.
Qed.

Lemma dotfiles_ready :
  staging_ready dotfiles ["tmp"; "ksync-0"] ["src"] dotfiles_sync_paths.
Proof.
  apply (bool_decide_unpack (staging_ready _ _ _ _)). vm_compute. exact I.
Qed.

(** X1.  [prepare_staging] writes below the staging directory only: whether
    it returns or raises, every entry of the file system that is not at or
    below the staging directory is as it was, and no entry is removed. *)
Theorem prepare_staging_frame (tmp source_dir : path) (sps : list path)
    (rs : bool) (s : fs) :
  staging_ready s tmp source_dir sps →
  s ⊆ final (prepare_staging tmp source_dir sps rs s) ∧
  ∀ q, ¬ tmp `prefix_of` q →
       final (prepare_staging tmp source_dir sps rs s) !! q = s !! q.
Proof.
  intros Hready. pose proof Hready as (Hs & Hv & Hl & Hsrc & Hall & Hinc).
  destruct (staging_ready_run tmp source_dir sps rs s Hready) as [Hinv HP].
  destruct (staging_run s tmp source_dir rs Hv Hl Hsrc sps [] _ Hinv Hall Hinc HP)
    as ([Hsub Hnew] & _).
  rewrite prepare_staging_run by done.
  assert (final (match for_each sps (prepare_staging_path source_dir tmp rs)
                         (<[tmp := Dir]> s) with
                 | Ok _ s' => Ok tmp s'
                 | Raise e s' => Raise e s'
                 end) =
          final (for_each sps (prepare_staging_path source_dir tmp rs)
                   (<[tmp := Dir]> s))) as ->.
  { by destruct (for_each sps _ _). }
  destruct Hinv as (Hsub0 & _).
  split; [by etrans|]. intros q Hq.
  destruct (s !! q) as [nd|] eqn:Hsq.
  { eapply lookup_weaken; [done|by etrans]. }
  destruct (final _ !! q) as [nd|] eqn:Hfq; [|done].
  destruct (Hnew q) as [[nd' Hq']|(Hpre & _)]; [by eauto| |done].
  destruct (decide (tmp = q)) as [<-|Hne]; [by destruct Hq|].
  rewrite lookup_insert_ne in Hq' by done. congruence.
Qed.

Lemma prepare_staging_frame_witness :
  dotfiles ⊆ final (prepare_staging ["tmp"; "ksync-0"] ["src"]
                      dotfiles_sync_paths true dotfiles) ∧
  ∀ q, ¬ ["tmp"; "ksync-0"] `prefix_of` q →
       final (prepare_staging ["tmp"; "ksync-0"] ["src"]
                dotfiles_sync_paths true dotfiles) !! q = dotfiles !! q.
Proof. apply prepare_staging_frame. exact dotfiles_ready. Defined.

(** X2.  A sync path that does not exist in the source directory is
    skipped: staging the listed sync paths is the same run, with the same
    result and the same final state, as staging those that exist. *)
Theorem prepare_staging_skips_missing (tmp source_dir : path)
    (sps : list path) (rs : bool) (s : fs) :
  staging_ready s tmp source_dir sps →
  prepare_staging tmp source_dir sps rs s =
  prepare_staging tmp source_dir
    (filter (λ sp, exists_ s (source_dir ++ sp) = true) sps) rs s.
Proof.
  intros Hready. pose proof Hready as (Hs & Hv & Hl & Hsrc & Hall & Hinc).
  destruct (staging_ready_run tmp source_dir sps rs s Hready) as [Hinv HP].
  destruct (staging_run s tmp source_dir rs Hv Hl Hsrc sps [] _ Hinv Hall Hinc HP)
    as (_ & Heq & _).
  rewrite !prepare_staging_run by done. by rewrite Heq.
Qed.

Lemma prepare_staging_skips_missing_witness :
  prepare_staging ["tmp"; "ksync-0"] ["src"] dotfiles_sync_paths false dotfiles =
  prepare_staging ["tmp"; "ksync-0"] ["src"]
    (filter (λ sp, exists_ dotfiles (["src"] ++ sp) = true) dotfiles_sync_paths)
    false dotfiles.
Proof. apply prepare_staging_skips_missing. exact dotfiles_ready. Defined.





(** X5.  [prepare_staging] returns (the staging directory) when every
    listed sync path that exists in the source directory leads to a
    readable regular file. *)
Theorem prepare_staging_files_succeeds (tmp source_dir : path)
    (sps : list path) (rs : bool) (s : fs) :
  staging_ready s tmp source_dir sps →
  (∀ sp, sp ∈ sps → exists_ s (source_dir ++ sp) = true →
     ∃ data, stat s (source_dir ++ sp) = Some (File true data)) →
  ∃ s', prepare_staging tmp source_dir sps rs s = Ok tmp s'.
Proof.
  intros Hready Hplain. pose proof Hready as (Hs & Hv & Hl & Hsrc & Hall & Hinc).
  destruct (staging_ready_run tmp source_dir sps rs s Hready) as [Hinv HP].
  destruct (staging_run s tmp source_dir rs Hv Hl Hsrc sps [] _ Hinv Hall Hinc HP)
    as (_ & _ & _ & Htot).
  destruct (Htot Hplain) as [s' Hrun].
  rewrite prepare_staging_run by done. rewrite Hrun. eauto.
Qed.

Lemma dotfiles_files_ready :
  staging_ready dotfiles ["tmp"; "ksync-0"] ["src"]
    [["CLAUDE.md"]; ["settings.json"]; ["agents"]].
Proof.
  apply (bool_decide_unpack (staging_ready _ _ _ _)). vm_compute. exact I.
Qed.

Lemma prepare_staging_files_succeeds_witness :
  ∃ s', prepare_staging ["tmp"; "ksync-0"] ["src"]
          [["CLAUDE.md"]; ["settings.json"]; ["agents"]] true dotfiles
        = Ok ["tmp"; "ksync-0"] s'.
Proof.
  apply prepare_staging_files_succeeds.
  - exact dotfiles_files_ready.
  - intros sp Hsp Hex.
    apply elem_of_cons in Hsp as [->|Hsp]; [by exists "# My Config"|].
    apply elem_of_cons in Hsp as [->|Hsp]; [by exists "{}"|].
    apply list_elem_of_singleton in Hsp as ->. by vm_compute in Hex.
Defined.

(** ** The install command *)

(** Removing the staging directory gives back the file system in which it
    was made. *)
Lemma rmtree_restores (s s1 : fs) (tmp : path) :
  vacant s tmp → s ⊆ s1 → real_dir s1 tmp →
  (∀ q, ¬ tmp `prefix_of` q → s1 !! q = s !! q) →
  rmtree_ignore_errors tmp s1 = Ok () s.
Proof.
  intros (Hne & Hst & Hpar & Hfree) Hsub Hreal Hnew.
  unfold rmtree_ignore_errors, rmtree.
  rewrite (proj2 (locate_real_dir s1 tmp Hreal Hst)).
  rewrite (real_dir_prefix s1 tmp tmp) by done. f_equal.
  apply map_eq. intros q. apply option_eq. intros nd.
  rewrite map_lookup_filter_Some. simpl. split.
  - intros [Hq Hpre]. by rewrite <-Hnew.
  - intros Hq. assert (¬ tmp `prefix_of` q) as Hpre.
    { intros Hpre. by rewrite (free_below_lookup s tmp q) in Hq. }
    split; [by rewrite Hnew|done].
Qed.






(** ** What the differ reports *)

Section diff_reports.
Variable splitlines : string → list string.
Variable unified_diff :
  list string → list string → string → string → list string.

(** X7.  What [diff_trees] reports, path by path: a record is emitted for
    a path exactly when its content differs between the two snapshots, a
    missing path counting as empty content, and the record is the
    local-only label when the path is not in the remote snapshot, the
    remote-only label when it is not in the local one, and otherwise the
    text of the unified diff, provided that text is not empty. *)
Theorem diff_records_iff (l r : dict) (p d : string) :
  (p, d) ∈ diff_records splitlines unified_diff l r ↔
  dict_get_default l p "" ≠ dict_get_default r p "" ∧
  match dict_get l p, dict_get r p with
  | Some _, None => d = "  + " +:+ p +:+ " (local only)"
  | None, Some _ => d = "  - " +:+ p +:+ " (remote only)"
  | Some lc, Some rc =>
      d = String.concat ""
            (unified_diff (splitlines rc) (splitlines lc)
                          ("remote/" +:+ p) ("local/" +:+ p)) ∧
      d ≠ ""
  | None, None => False
  end.
Proof.
  unfold diff_records. rewrite list_elem_of_omap. split.
  - intros (p' & Hp' & Hd). apply elem_of_all_paths in Hp'.
    unfold diff_path, dict_get_default, dict_contains in Hd.
    unfold dict_get_default.
    destruct (dict_get l p') as [lc|] eqn:Hl, (dict_get r p') as [rc|] eqn:Hr;
      simpl in Hd; try (by destruct Hp' as [[]|[]]);
      destruct (decide _) as [|Hne] in Hd; try done; simpl in Hd.
    + destruct (decide _) as [|Hne'] in Hd; [done|]. simpl in Hd.
      injection Hd as <- <-. by rewrite Hl, Hr.
    + injection Hd as <- <-. by rewrite Hl, Hr.
    + injection Hd as <- <-. by rewrite Hl, Hr.
  - intros [Hne Hd]. exists p. split.
    { apply elem_of_all_paths.
      destruct (dict_get l p), (dict_get r p); try done; eauto. }
    unfold diff_path, dict_contains. rewrite decide_False by done.
    unfold dict_get_default in *.
    destruct (dict_get l p) as [lc|] eqn:Hl, (dict_get r p) as [rc|] eqn:Hr;
      simpl in *; try done.
    + destruct Hd as [-> Hd]. by rewrite decide_False.
    + by rewrite Hd.
    + by rewrite Hd.
Qed.
End diff_reports.

(** ** Cleaning a target directory *)

Lemma stat_subseteq (s' s : fs) (p : path) (nd : node) :
  s' ⊆ s → stat s' p = Some nd → stat s p = Some nd.
Proof.
  intros Hsub. unfold stat, locate.
  destruct (walk MAXSYMLINKS s' true [] p) as [q| |] eqn:Hw; try done.
  rewrite (walk_subseteq _ _ _ _ _ _ _ Hsub Hw). simpl.
  intros Hq. by eapply lookup_weaken.
Qed.

Lemma lstat_subseteq (s' s : fs) (p : path) (nd : node) :
  s' ⊆ s → lstat s' p = Some nd → lstat s p = Some nd.
Proof.
  intros Hsub. unfold lstat, llocate.
  destruct (walk MAXSYMLINKS s' false [] p) as [q| |] eqn:Hw; try done.
  rewrite (walk_subseteq _ _ _ _ _ _ _ Hsub Hw). simpl.
  intros Hq. by eapply lookup_weaken.
Qed.

Lemma exists_subseteq (s' s : fs) (p : path) :
  s' ⊆ s → exists_ s p = false → exists_ s' p = false.
Proof.
  intros Hsub. unfold exists_.
  destruct (stat s' p) as [nd|] eqn:Hst; [|done].
  by rewrite (stat_subseteq s' s p nd Hsub Hst).
Qed.

(** [clean] of one sync path raises exactly on a symbolic link to a
    directory, which [shutil.rmtree] refuses. *)
Lemma clean_path_outcome (target sp : path) (s : fs) :
  (is_symlink s (target ++ sp) && is_dir s (target ++ sp) = true ∧
   clean_path target sp s = Raise OSError s) ∨
  (is_symlink s (target ++ sp) && is_dir s (target ++ sp) = false ∧
   ∃ s', clean_path target sp s = Ok () s').
Proof.
  unfold clean_path, is_symlink, is_dir, exists_, lstat, rmtree, unlink.
  destruct (stat s (target ++ sp)) as [nd|] eqn:Hst.
  2:{ right. rewrite andb_false_r. eauto. }
  destruct (stat_lstat s _ nd Hst) as (q & -> & Hq). simpl.
  destruct Hq as [[t Ht]|[_ Hq]].
  - rewrite Ht. destruct nd as [perm data|t'|]; simpl; eauto.
  - rewrite Hq. right. destruct nd as [perm data|t'|]; simpl; eauto.
Qed.

Lemma clean_subseteq (target : path) (sps : list path) (s : fs) :
  final (clean target sps s) ⊆ s.
Proof.
  unfold clean. revert s. induction sps as [|sp sps IH]; intros s; [done|].
  rewrite for_each_final_cons.
  destruct (clean_path_effect target sp s) as [Hsub _].
  destruct (clean_path target sp s) as [u s1|e s1]; simpl in Hsub; [|done].
  by trans s1.
Qed.

(** X8.  [LocalEnvironment.clean] either returns or raises [OSError], and it
    raises only when one of the listed sync paths is, in the target
    directory, a symbolic link to a directory. *)
Theorem clean_outcome (target : path) (sps : list path) (s : fs) :
  (∃ s', clean target sps s = Ok () s') ∨
  (∃ s' sp, clean target sps s = Raise OSError s' ∧ sp ∈ sps ∧
            is_symlink s (target ++ sp) = true ∧
            is_dir s (target ++ sp) = true).
Proof.
  unfold clean. revert s. induction sps as [|sp sps IH]; intros s.
  { left. by exists s. }
  simpl. unfold mbind, M_bind.
  destruct (clean_path_outcome target sp s) as [[Hl ->]|[_ (s1 & Hrun)]].
  { right. exists s, sp. apply andb_prop in Hl as [? ?].
    split; [done|]. split; [left|done]. }
  pose proof (clean_path_effect target sp s) as [Hsub _].
  rewrite Hrun in Hsub |- *. simpl in Hsub.
  destruct (IH s1) as [?|(s' & sp' & Hrun' & Hsp' & Hl & Hd)]; [by left|].
  right. exists s', sp'. split; [done|]. split; [by right|].
  unfold is_symlink, is_dir in *.
  destruct (lstat s1 (target ++ sp')) as [[| |]|] eqn:Hl1; try done.
  destruct (stat s1 (target ++ sp')) as [[| |]|] eqn:Hs1; try done.
  rewrite (lstat_subseteq s1 s _ _ Hsub Hl1).
  by rewrite (stat_subseteq s1 s _ _ Hsub Hs1).
Qed.

(** Once a symbolic link is removed, the paths that ended at it lead
    nowhere. *)
Lemma walk1_unlinked (s : fs) (q : path) (t : string) (cur rest : list string) :
  s !! q = Some (Link t) → link_free_chain s cur →
  match walk1 s false cur rest with
  | Stop (Found q') =>
      q' = q →
      ∃ r, walk1 (delete q s) true cur rest = Stop r ∧ ∀ p, r ≠ Found p
  | Stop _ => True
  | Jump c r =>
      link_free_chain s c ∧
      (walk1 (delete q s) true cur rest = Jump c r ∨
       ∃ r', walk1 (delete q s) true cur rest = Stop r' ∧ ∀ p, r' ≠ Found p)
  end.
Proof.
  intros Hq. revert cur. induction rest as [|c rest IH]; intros cur Hcur; simpl.
  - intros ->. by destruct (Hcur q (reflexivity _) t).
  - destruct (decide (c = "" ∨ c = ".")); [by apply IH|].
    destruct (decide (c = "..")).
    { apply IH. intros c' Hc'. apply Hcur. etrans; [done|apply prefix_parent]. }
    destruct (decide (cur ++ [c] = q)) as [Heq|Hne].
    + rewrite Heq, Hq, lookup_delete_eq.
      destruct rest as [|c' rest].
      * intros _. eexists. split; [done|done].
      * split.
        { destruct (is_absolute t); [|done].
          intros c0 ->%prefix_nil_inv. apply Hcur, prefix_nil. }
        right. eexists. split; [done|done].
    + rewrite lookup_delete_ne by done.
      destruct (s !! (cur ++ [c])) as [[perm data|t'|]|] eqn:Hlk.
      * destruct rest; [|done]. intros Heq. by destruct Hne.
      * destruct rest as [|c' rest]; [intros Heq; by destruct Hne|].
        split; [|by left].
        destruct (is_absolute t'); [|done].
        intros c0 ->%prefix_nil_inv. apply Hcur, prefix_nil.
      * apply IH. intros c0 Hc0 t0.
        destruct (decide (c0 = cur ++ [c])) as [->|Hne0]; [by rewrite Hlk|].
        apply Hcur. destruct Hc0 as [k Hk].
        destruct k as [|x k _] using rev_ind.
        { rewrite app_nil_r in Hk. by destruct Hne0. }
        rewrite app_assoc in Hk. apply app_inj_tail in Hk as [-> _].
        by apply prefix_app_r.
      * by destruct rest.
Qed.

Lemma walk_unlinked (fuel : nat) (s : fs) (q : path) (t : string)
    (cur rest : list string) :
  s !! q = Some (Link t) → link_free_chain s cur →
  walk fuel s false cur rest = Found q →
  ∀ p, walk fuel (delete q s) true cur rest ≠ Found p.
Proof.
  intros Hq. revert cur rest.
  induction fuel as [|fuel IH]; intros cur rest Hcur; simpl;
    pose proof (walk1_unlinked s q t cur rest Hq Hcur) as H1;
    destruct (walk1 s false cur rest) as [[q'|q'|e]|c r]; try done.
  - intros [= ->]. destruct (H1 eq_refl) as (r & -> & Hr). done.
  - intros [= ->]. destruct (H1 eq_refl) as (r & -> & Hr). done.
  - destruct H1 as [Hc [->|(r' & -> & Hr')]]; [|done]. by apply IH.
Qed.

Lemma clean_path_removes (target sp : path) (s : fs) (u : unit) (s' : fs) :
  (∀ t, s !! [] ≠ Some (Link t)) →
  clean_path target sp s = Ok u s' → exists_ s' (target ++ sp) = false.
Proof.
  intros Hroot. unfold clean_path.
  assert (∀ q s1, locate s (target ++ sp) = Found q → s1 ⊆ s → s1 !! q = None →
            exists_ s1 (target ++ sp) = false) as Hgone.
  { intros q s1 Hloc Hsub Hnone. unfold exists_, stat.
    destruct (locate s1 (target ++ sp)) as [r| |] eqn:Hloc1; try done.
    unfold locate in *. rewrite (walk_subseteq _ _ _ _ _ _ _ Hsub Hloc1) in Hloc.
    injection Hloc as ->. simpl. by rewrite Hnone. }
  destruct (is_dir s (target ++ sp)) eqn:Hdir.
  - unfold is_dir in Hdir.
    destruct (stat s (target ++ sp)) as [[| |]|] eqn:Hst; try done.
    destruct (stat_lstat s _ _ Hst) as (q & Hll & Hq). unfold rmtree. rewrite Hll.
    destruct Hq as [[t Ht]|[Hloc Hq]]; [by rewrite Ht|]. rewrite Hq.
    intros [= <- <-]. apply (Hgone q); [done|apply map_filter_subseteq|].
    apply map_lookup_filter_None. right. intros nd _. simpl. by intros [].
  - destruct (exists_ s (target ++ sp)) eqn:Hex; [|by intros [= <- <-]].
    unfold exists_ in Hex.
    destruct (stat s (target ++ sp)) as [nd|] eqn:Hst; [|done].
    destruct (stat_lstat s _ _ Hst) as (q & Hll & Hq). unfold unlink. rewrite Hll.
    destruct Hq as [[t Ht]|[Hloc Hq]].
    + rewrite Ht. intros [= <- <-]. unfold exists_, stat.
      destruct (locate (delete q s) (target ++ sp)) as [r| |] eqn:Hloc1; try done.
      destruct (walk_unlinked MAXSYMLINKS s q t [] (target ++ sp) Ht) with r;
        [|done|done].
      intros c ->%prefix_nil_inv. apply Hroot.
    + rewrite Hq. unfold is_dir in Hdir. rewrite Hst in Hdir.
      destruct nd as [perm data|t|]; try done; intros [= <- <-];
        (apply (Hgone q); [done|apply delete_subseteq|apply lookup_delete_eq]).
Qed.

(** X9.  After a [clean] that returns, none of the listed sync paths exists
    in the target directory (as [Path.exists] sees it: a symbolic link that
    leads nowhere is left in place), and cleaning once more returns and
    changes nothing. *)
Theorem clean_removes (target : path) (sps : list path) (s : fs) (u : unit)
    (s' : fs) :
  (∀ t, s !! [] ≠ Some (Link t)) →
  clean target sps s = Ok u s' →
  (∀ sp, sp ∈ sps → exists_ s' (target ++ sp) = false) ∧
  clean target sps s' = Ok () s'.
Proof.
  intros Hroot Hrun.
  assert (∀ sp, sp ∈ sps → exists_ s' (target ++ sp) = false) as Hgone.
  { revert s Hroot Hrun. unfold clean.
    induction sps as [|sp sps IH]; intros s Hroot Hrun sp' Hsp'.
    { by apply elem_of_nil in Hsp'. }
    simpl in Hrun. unfold mbind, M_bind in Hrun.
    destruct (clean_path target sp s) as [u1 s1|e s1] eqn:Hrun1; [|done].
    pose proof (clean_path_effect target sp s) as [Hsub1 _].
    rewrite Hrun1 in Hsub1. simpl in Hsub1.
    apply elem_of_cons in Hsp' as [->|Hsp'].
    - apply (exists_subseteq s' s1).
      + pose proof (clean_subseteq target sps s1) as Hsub.
        unfold clean in Hsub. by rewrite Hrun in Hsub.
      + by eapply clean_path_removes.
    - apply (IH s1); [|done..]. intros t Ht.
      apply (Hroot t). by eapply lookup_weaken. }
  split; [done|]. clear Hrun. unfold clean.
  induction sps as [|sp sps IH]; [done|].
  simpl. unfold mbind, M_bind.
  assert (clean_path target sp s' = Ok () s') as ->.
  { unfold clean_path. pose proof (Hgone sp ltac:(left)) as Hex.
    rewrite Hex. unfold is_dir. unfold exists_ in Hex.
    by destruct (stat s' (target ++ sp)). }
  apply IH. intros sp' Hsp'. apply Hgone. by right.
Qed.

Lemma clean_removes_witness :
  (∀ sp, sp ∈ [["commands"]; ["skills"]] →
     exists_ (final (clean ["home"] [["commands"]; ["skills"]] file_over_dir))
             (["home"] ++ sp) = false) ∧
  clean ["home"] [["commands"]; ["skills"]]
    (final (clean ["home"] [["commands"]; ["skills"]] file_over_dir))
  = Ok () (final (clean ["home"] [["commands"]; ["skills"]] file_over_dir)).
Proof.
  apply (clean_removes ["home"] [["commands"]; ["skills"]] file_over_dir ()).
  - intros t. by vm_compute.
  - vm_compute. reflexivity.
Defined.

(** ** The remote snapshot *)

Lemma string_app_assoc (a b c : string) : (a +:+ b) +:+ c = a +:+ b +:+ c.
Proof.
  induction a as [|x a IH]; [done|].
  change (String x ((a +:+ b) +:+ c) = String x (a +:+ b +:+ c)). by f_equal.
Qed.

Section remote_properties.
Variable list_files : string → list string.
Variable read_file : string → option string.
Variable target_dir : string.

Lemma remote_ok_set (sps : list string) (d : dict) (k c : string) :
  remote_ok list_files read_file target_dir sps d →
  read_file (target_dir +:+ "/" +:+ k) = Some c →
  (∃ sp, sp ∈ sps ∧
     (k = sp ∨ ∃ rel, rel ∈ list_files (target_dir +:+ "/" +:+ sp) ∧
                      k = sp +:+ "/" +:+ rel)) →
  remote_ok list_files read_file target_dir sps (dict_set k c d) ∧
  (∀ k' c', dict_get d k' = Some c' → dict_get (dict_set k c d) k' = Some c') ∧
  dict_get (dict_set k c d) k = Some c.
Proof.
  intros Hok Hread Hsp. split; [|split].
  - intros k' c'. rewrite dict_get_set.
    destruct (decide (k = k')) as [<-|]; [|apply Hok]. by intros [= <-].
  - intros k' c' Hk'. rewrite dict_get_set.
    destruct (decide (k = k')) as [<-|]; [|done].
    destruct (Hok k c' Hk') as [Hread' _]. congruence.
  - by rewrite dict_get_set, decide_True.
Qed.

Lemma collect_remote_listing (sps : list string) (sp : string)
    (rels : list string) (d : dict) :
  sp ∈ sps →
  (∀ rel, rel ∈ rels → rel ∈ list_files (target_dir +:+ "/" +:+ sp)) →
  remote_ok list_files read_file target_dir sps d →
  let d' :=
    foldl (λ remote_files rel,
             match read_file ((target_dir +:+ "/" +:+ sp) +:+ "/" +:+ rel) with
             | Some content => dict_set (sp +:+ "/" +:+ rel) content remote_files
             | None => remote_files
             end) d rels in
  remote_ok list_files read_file target_dir sps d' ∧
  (∀ k c, dict_get d k = Some c → dict_get d' k = Some c) ∧
  ∀ rel c, rel ∈ rels →
    read_file (target_dir +:+ "/" +:+ sp +:+ "/" +:+ rel) = Some c →
    dict_get d' (sp +:+ "/" +:+ rel) = Some c.
Proof.
  intros Hsp. revert d. induction rels as [|rel rels IH]; intros d Hrels Hok; simpl.
  { split; [done|]. split; [done|]. by intros ?? ?%elem_of_nil. }
  rewrite !string_app_assoc. simpl.
  assert (∀ rel', rel' ∈ rels → rel' ∈ list_files (target_dir +:+ "/" +:+ sp))
    as Hrels' by (intros ??; apply Hrels; by right).
  destruct (read_file (target_dir +:+ "/" +:+ sp +:+ "/" +:+ rel)) as [c|] eqn:Hread.
  - destruct (remote_ok_set sps d (sp +:+ "/" +:+ rel) c Hok Hread)
      as (Hok1 & Hmono1 & Hget1).
    { exists sp. split; [done|]. right. exists rel. split; [|done].
      apply Hrels. left. }
    destruct (IH _ Hrels' Hok1) as (Hok' & Hmono' & Hall').
    split; [done|]. split; [by intros ???; apply Hmono', Hmono1|].
    intros rel' c' [->|Hrel']%elem_of_cons Hread'; [|by apply Hall'].
    apply Hmono'. congruence.
  - destruct (IH _ Hrels' Hok) as (Hok' & Hmono' & Hall').
    split; [done|]. split; [done|].
    intros rel' c' [->|Hrel']%elem_of_cons Hread'; [congruence|by apply Hall'].
Qed.

Lemma remote_ok_mono (sps sps' : list string) (d : dict) :
  (∀ sp, sp ∈ sps → sp ∈ sps') →
  remote_ok list_files read_file target_dir sps d →
  remote_ok list_files read_file target_dir sps' d.
Proof.
  intros Hsub Hok k c Hk. destruct (Hok k c Hk) as (Hread & sp & Hsp & Hform).
  split; [done|]. exists sp. split; [by apply Hsub|done].
Qed.

Lemma collect_remote_path_ok (sps : list string) (sp : string) (d : dict) :
  sp ∈ sps →
  remote_ok list_files read_file target_dir sps d →
  let d' := collect_remote_path list_files read_file target_dir d sp in
  remote_ok list_files read_file target_dir sps d' ∧
  (∀ k c, dict_get d k = Some c → dict_get d' k = Some c) ∧
  (∀ c, read_file (target_dir +:+ "/" +:+ sp) = Some c →
        dict_get d' sp = Some c) ∧
  ∀ rel c, rel ∈ list_files (target_dir +:+ "/" +:+ sp) →
    read_file (target_dir +:+ "/" +:+ sp +:+ "/" +:+ rel) = Some c →
    dict_get d' (sp +:+ "/" +:+ rel) = Some c.
Proof.
  intros Hsp Hok. unfold collect_remote_path.
  destruct (collect_remote_listing sps sp
              (list_files (target_dir +:+ "/" +:+ sp)) d Hsp) as (Hok1 & Hmono1 & Hall1);
    [done..|].
  simpl in *. set (d1 := foldl _ d _) in *.
  destruct (read_file (target_dir +:+ "/" +:+ sp)) as [c|] eqn:Hread; [|done].
  unfold dict_contains. destruct (dict_get d1 sp) as [c1|] eqn:Hget; simpl.
  - split; [done|]. split; [done|]. split; [|done].
    intros c' [= <-]. destruct (Hok1 sp c1 Hget) as [Hread1 _]. congruence.
  - destruct (remote_ok_set sps d1 sp c Hok1 Hread) as (Hok2 & Hmono2 & Hget2).
    { exists sp. split; [done|by left]. }
    split; [done|]. split; [by intros ???; apply Hmono2, Hmono1|].
    split; [by intros c' [= <-]|].
    intros rel c' Hrel Hread'. by apply Hmono2, Hall1.
Qed.

Lemma collect_remote_get (sps : list string) (k c : string) :
  dict_get (collect_remote list_files read_file target_dir sps) k = Some c ↔
  read_file (target_dir +:+ "/" +:+ k) = Some c ∧
  ∃ sp, sp ∈ sps ∧
    (k = sp ∨ ∃ rel, rel ∈ list_files (target_dir +:+ "/" +:+ sp) ∧
                     k = sp +:+ "/" +:+ rel).
Proof.
  unfold collect_remote.
  assert (∀ done d, remote_ok list_files read_file target_dir (done ++ sps) d →
    let d' := foldl (collect_remote_path list_files read_file target_dir) d sps in
    remote_ok list_files read_file target_dir (done ++ sps) d' ∧
    (∀ k c, dict_get d k = Some c → dict_get d' k = Some c) ∧
    ∀ sp, sp ∈ sps →
      (∀ c, read_file (target_dir +:+ "/" +:+ sp) = Some c →
            dict_get d' sp = Some c) ∧
      ∀ rel c, rel ∈ list_files (target_dir +:+ "/" +:+ sp) →
        read_file (target_dir +:+ "/" +:+ sp +:+ "/" +:+ rel) = Some c →
        dict_get d' (sp +:+ "/" +:+ rel) = Some c) as Hloop.
  { induction sps as [|sp sps' IH]; intros done d Hok; simpl.
    { split; [done|]. split; [done|]. by intros ? ?%elem_of_nil. }
    destruct (collect_remote_path_ok (done ++ sp :: sps') sp d)
      as (Hok1 & Hmono1 & Hfile1 & Hrel1); [|done|].
    { apply elem_of_app. right. left. }
    destruct (IH (done ++ [sp])
                (collect_remote_path list_files read_file target_dir d sp))
      as (Hok' & Hmono' & Hall').
    { by rewrite <-app_assoc. }
    rewrite <-app_assoc in Hok'. simpl in Hok'.
    split; [done|]. split; [by intros ???; apply Hmono', Hmono1|].
    intros sp' [->|Hsp']%elem_of_cons; [|by apply Hall'].
    split; [by intros c' ?; apply Hmono', Hfile1|].
    intros rel c' ??. by apply Hmono', Hrel1. }
  destruct (Hloop [] []) as (Hok & _ & Hall); [done|]. simpl in Hok.
  split; [apply Hok|].
  intros (Hread & sp & Hsp & [->|(rel & Hrel & ->)]).
  - by apply (Hall sp Hsp).
  - by apply (Hall sp Hsp).
Qed.

(** X10.  The remote snapshot that [diff] collects holds, under a key,
    exactly what the adapter reads at [target_dir/key], and its keys are
    the sync paths that the adapter can read as a file and the paths
    [sp/rel] of the files [rel] that the adapter lists below a sync path
    [sp] and can read; a file that the adapter cannot read ([None]) has
    no entry. *)
Theorem collect_remote_spec (sps : list string) (k c : string) :
  dict_get (collect_remote list_files read_file target_dir sps) k = Some c ↔
  read_file (target_dir +:+ "/" +:+ k) = Some c ∧
  ∃ sp, sp ∈ sps ∧
    (k = sp ∨ ∃ rel, rel ∈ list_files (target_dir +:+ "/" +:+ sp) ∧
                     k = sp +:+ "/" +:+ rel).
Proof. apply collect_remote_get. Qed.
End remote_properties.

(** ** Listing the files of a remote environment *)

Lemma string_prefix_app (a b : string) : String.prefix a (a +:+ b) = true.
Proof.
  induction a as [|x a IH]; [by destruct b|].
  change (String.prefix (String x a) (String x (a +:+ b)) = true). simpl.
  by destruct (ascii_dec x x).
Qed.

Lemma string_prefix_inv (a l : string) :
  String.prefix a l = true → l = a +:+ string_drop (String.length a) l.
Proof.
  revert l. induction a as [|x a IH]; intros l; [done|].
  destruct l as [|y l]; [done|]. simpl.
  destruct (ascii_dec x y) as [->|]; [|done]. intros Hp.
  change (String y l = String y (a +:+ string_drop (String.length a) l)).
  f_equal. by apply IH.
Qed.

Lemma string_drop_app (a b : string) : string_drop (String.length a) (a +:+ b) = b.
Proof. induction a as [|x a IH]; [by destruct b|]. exact IH. Qed.

Lemma lstrip_slash_app (sep rel : string) :
  slashes sep → relative_name rel → lstrip_slash (sep +:+ rel) = rel.
Proof.
  unfold slashes. intros Hsep Hrel. induction sep as [|c sep IH].
  - destruct rel as [|c rel]; [done|]. simpl in *.
    by rewrite (proj2 (Ascii.eqb_neq _ _) Hrel).
  - change (lstrip_slash (String c (sep +:+ rel)) = rel). simpl in *.
    destruct (Ascii.eqb c "/"); [by apply IH|done].
Qed.

Lemma lstrip_slash_spec (s : string) :
  ∃ sep, slashes sep ∧ s = sep +:+ lstrip_slash s ∧
         (lstrip_slash s = "" ∨ relative_name (lstrip_slash s)).
Proof.
  induction s as [|c s (sep & Hsep & Heq & Hrel)].
  - exists "". split; [done|]. split; [done|]. by left.
  - simpl. destruct (Ascii.eqb c "/") eqn:Hc.
    + apply Ascii.eqb_eq in Hc as ->. exists (String "/" sep).
      split; [exact Hsep|]. split; [|done].
      change (String "/" s = String "/" (sep +:+ lstrip_slash s)). by f_equal.
    + exists "". split; [done|]. split; [done|]. right. simpl.
      by apply Ascii.eqb_neq.
Qed.

Lemma find_files_cons (path line : string) (lines : list string) :
  find_files path (line :: lines) =
  (if String.prefix path line then
     if decide (lstrip_slash (string_drop (String.length path) line) = "")
     then []
     else [lstrip_slash (string_drop (String.length path) line)]
   else []) ++ find_files path lines.
Proof.
  unfold find_files. simpl. destruct (String.prefix path line); [|done].
  by destruct (decide _).
Qed.

Lemma find_files_listing (path sep : string) (rels : list string) :
  slashes sep → Forall relative_name rels →
  find_files path ((λ rel, path +:+ sep +:+ rel) <$> rels) = rels.
Proof.
  intros Hsep. induction 1 as [|rel rels Hrel _ IH]; [done|].
  rewrite fmap_cons, find_files_cons, IH.
  rewrite string_prefix_app, string_drop_app.
  rewrite lstrip_slash_app by done.
  rewrite decide_False; [done|]. by destruct rel.
Qed.

Lemma string_drop_length (a : string) : string_drop (String.length a) a = "".
Proof. induction a as [|x a IH]; [done|]. exact IH. Qed.

Lemma string_prefix_refl (a : string) : String.prefix a a = true.
Proof.
  induction a as [|x a IH]; [done|]. simpl. by destruct (ascii_dec x x).
Qed.

Lemma elem_of_find_files (path : string) (lines : list string) (rel : string) :
  rel ∈ find_files path lines ↔
  relative_name rel ∧ ∃ sep, slashes sep ∧ path +:+ sep +:+ rel ∈ lines.
Proof.
  unfold find_files. rewrite list_elem_of_omap. split.
  - intros (line & Hline & Hrel).
    destruct (String.prefix path line) eqn:Hp; [|done].
    destruct (decide _) as [|Hne]; [done|]. injection Hrel as <-.
    apply string_prefix_inv in Hp.
    destruct (lstrip_slash_spec (string_drop (String.length path) line))
      as (sep & Hsep & Heq & [?|?]); [done|].
    split; [done|]. exists sep. split; [done|]. by rewrite <-Heq, <-Hp.
  - intros (Hrel & sep & Hsep & Hline). eexists. split; [done|]. simpl.
    rewrite string_prefix_app, string_drop_app.
    rewrite lstrip_slash_app by done.
    rewrite decide_False; [done|]. by destruct rel.
Qed.

Section remote_adapters_properties.
Variable subprocess_run : list string → CompletedProcess.
Variable strip : string → string.
Variable splitlines : string → list string.

(** X11.  [SshEnvironment.list_files] undoes what [find] prints: when the
    command succeeds and its lines are the path asked for followed by a
    run of slashes (one, or none when the path ends in a slash) and a
    relative name, the result is the sorted list of the relative names;
    when the only line is the path itself, as [find] prints for a path
    that is a regular file, the result is empty; when the command fails,
    the result is empty. *)
Theorem ssh_list_files_of_find (host path sep : string) (rels : list string) :
  slashes sep → Forall relative_name rels →
  let result := subprocess_run ["ssh"; host; "find"; path; "-type"; "f"] in
  (returncode result = 0%Z →
   splitlines (strip (stdout result)) = (λ rel, path +:+ sep +:+ rel) <$> rels →
   ssh_list_files subprocess_run strip splitlines host path
   = merge_sort str_le rels) ∧
  (returncode result = 0%Z →
   splitlines (strip (stdout result)) = [path] →
   ssh_list_files subprocess_run strip splitlines host path = []) ∧
  (returncode result ≠ 0%Z →
   ssh_list_files subprocess_run strip splitlines host path = []).
Proof.
  intros Hsep Hrels result. unfold ssh_list_files, ssh_run. simpl.
  fold result. split; [|split].
  - intros Hrc Hlines. destruct (decide _) as [Hne|_]; [by destruct Hne|].
    by rewrite Hlines, find_files_listing.
  - intros Hrc Hlines. destruct (decide _) as [Hne|_]; [by destruct Hne|].
    rewrite Hlines, find_files_cons, string_prefix_refl, string_drop_length.
    done.
  - intros Hrc. by rewrite decide_True.
Qed.

(** X12.  What [DockerEnvironment.list_files] returns: it raises when there
    is no container; otherwise the result is sorted, and every name in it
    is a relative name (not empty, no leading slash) for which [find],
    run in the container, printed a line that consists of the path asked
    for, a run of slashes and the name. *)
Theorem docker_list_files_sound (cid : option string) (path : string)
    (files : list string) :
  docker_list_files subprocess_run strip splitlines cid path = Some files →
  ∃ c, cid = Some c ∧ c ≠ "" ∧
    StronglySorted str_le files ∧
    ∀ rel, rel ∈ files →
      relative_name rel ∧
      returncode (subprocess_run ["docker"; "exec"; c; "find"; path; "-type"; "f"])
      = 0%Z ∧
      ∃ sep, slashes sep ∧
        path +:+ sep +:+ rel ∈
          splitlines (strip (stdout
            (subprocess_run ["docker"; "exec"; c; "find"; path; "-type"; "f"]))).
Proof.
  unfold docker_list_files, docker_run.
  destruct cid as [c|]; [|done]. destruct (decide (c = "")) as [->|Hc]; [done|].
  assert ((match c with "" => None | _ =>
             Some (subprocess_run (["docker"; "exec"; c] ++ ["find"; path; "-type"; "f"]))
           end) = Some (subprocess_run ["docker"; "exec"; c; "find"; path; "-type"; "f"]))
    as -> by (by destruct c).
  simpl. intros [= <-]. exists c. split; [done|]. split; [done|].
  destruct (decide _) as [Hne|Heq].
  { split; [constructor|]. by intros rel ?%elem_of_nil. }
  split; [apply StronglySorted_merge_sort; apply _|].
  intros rel Hrel. rewrite merge_sort_Permutation in Hrel.
  apply elem_of_find_files in Hrel as (Hrel & sep & Hsep & Hline).
  split; [done|]. split; [|by eauto].
  by destruct (decide (returncode
    (subprocess_run ["docker"; "exec"; c; "find"; path; "-type"; "f"]) = 0%Z)).
Qed.
End remote_adapters_properties.

Lemma ssh_list_files_of_find_witness :
  let run := λ _ : list string,
    {| returncode := 0; stdout := "/t/skills/b.md /t/skills/a/c.md";
       stderr := "" |} in
  let strip := λ s : string, s in
  let splitlines := λ _ : string, ["/t/skills/b.md"; "/t/skills/a/c.md"] in
  let result := run ["ssh"; "host"; "find"; "/t/skills"; "-type"; "f"] in
  (returncode result = 0%Z →
   splitlines (strip (stdout result))
   = (λ rel, "/t/skills" +:+ "/" +:+ rel) <$> ["b.md"; "a/c.md"] →
   ssh_list_files run strip splitlines "host" "/t/skills"
   = merge_sort str_le ["b.md"; "a/c.md"]) ∧
  (returncode result = 0%Z →
   splitlines (strip (stdout result)) = ["/t/skills"] →
   ssh_list_files run strip splitlines "host" "/t/skills" = []) ∧
  (returncode result ≠ 0%Z →
   ssh_list_files run strip splitlines "host" "/t/skills" = []).
Proof.
  intros run strip splitlines.
  apply (ssh_list_files_of_find run strip splitlines "host" "/t/skills" "/"
           ["b.md"; "a/c.md"]).
  - reflexivity.
  - apply (bool_decide_unpack (Forall relative_name _)). vm_compute. exact I.
Defined.

Lemma docker_list_files_sound_witness :
  let run := λ _ : list string,
    {| returncode := 0; stdout := "/t/skills/b.md /t/skills/a/c.md";
       stderr := "" |} in
  let strip := λ s : string, s in
  let splitlines := λ _ : string, ["/t/skills/b.md"; "/t/skills/a/c.md"] in
  ∃ c, Some "3f2a" = Some c ∧ c ≠ "" ∧
    StronglySorted str_le ["a/c.md"; "b.md"] ∧
    ∀ rel, rel ∈ ["a/c.md"; "b.md"] →
      relative_name rel ∧
      returncode (run ["docker"; "exec"; c; "find"; "/t/skills"; "-type"; "f"])
      = 0%Z ∧
      ∃ sep, slashes sep ∧
        "/t/skills" +:+ sep +:+ rel ∈
          splitlines (strip (stdout
            (run ["docker"; "exec"; c; "find"; "/t/skills"; "-type"; "f"]))).
Proof.
  intros run strip splitlines.
  apply (docker_list_files_sound run strip splitlines (Some "3f2a") "/t/skills").
  vm_compute. reflexivity.
Defined.

(** ** The git wrappers *)

Section git_properties.
Variable subprocess_run : list (list string) → list string → CompletedProcess.
Variable strip : string → string.
Variable splitlines : string → list string.

Lemma git_run_commands (check : bool) (cmd : list string)
    (log : list (list string)) :
  commands (git_run subprocess_run check cmd log) = log ++ [cmd].
Proof. unfold git_run. by destruct (_ && _). Qed.

Lemma git_run_unchecked (cmd : list string) (log : list (list string)) :
  git_run subprocess_run false cmd log
  = Returned (subprocess_run log cmd) (log ++ [cmd]).
Proof. done. Qed.

(** X13.  A dry run of [git_push] never commits and never pushes: whatever
    the commands answer, it runs [git add] on the sync paths, then, if
    that succeeded, [git diff --cached --name-only], then, if something
    is staged, [git reset HEAD] on the sync paths, and nothing else; and
    it reports staged files only after it has unstaged them. *)
Theorem git_push_dry_run (sync_paths : list string) (message : string)
    (log : list (list string)) :
  let add := ["git"; "add"; "--"] ++ sync_paths in
  let diff := ["git"; "diff"; "--cached"; "--name-only"] in
  let reset := ["git"; "reset"; "HEAD"; "--"] ++ sync_paths in
  match git_push subprocess_run strip splitlines sync_paths message true log with
  | Failed (CalledProcessError cmd rc) log' =>
      cmd = add ∧ rc ≠ 0%Z ∧ log' = log ++ [add]
  | Returned r log' =>
      (r = {| commit_hash := None; files_staged := [] |} ∧
       log' = log ++ [add; diff]) ∨
      (commit_hash r = Some "(dry-run)" ∧ files_staged r ≠ [] ∧
       log' = log ++ [add; diff; reset])
  end.
Proof.
  intros add diff reset. unfold git_push, mbind, G_mbind, G_bind.
  unfold git_run at 1. fold add.
  destruct (bool_decide (returncode (subprocess_run log add) ≠ 0%Z)) eqn:Hadd; simpl.
  { by apply bool_decide_eq_true in Hadd. }
  fold diff. destruct (decide _) as [Heq|Hne]; simpl.
  { left. by rewrite <-app_assoc. }
  fold reset. right. by rewrite <-!app_assoc.
Qed.

(** X14.  [git_push] without [dry_run] pushes only what it has committed:
    [git push] runs only after [git commit] returned 0, [git commit] runs
    only when something is staged, a failing [git add], [git commit] or
    [git push] raises and is the last command run, and a commit hash is
    returned only when all three succeeded. *)
Theorem git_push_commits_then_pushes (sync_paths : list string)
    (message : string) (log : list (list string)) :
  let add := ["git"; "add"; "--"] ++ sync_paths in
  let diff := ["git"; "diff"; "--cached"; "--name-only"] in
  let commit := ["git"; "commit"; "-m"; message] in
  let rev_parse := ["git"; "rev-parse"; "--short"; "HEAD"] in
  let push := ["git"; "push"] in
  match git_push subprocess_run strip splitlines sync_paths message false log with
  | Failed (CalledProcessError cmd rc) log' =>
      rc ≠ 0%Z ∧
      ((cmd = add ∧ log' = log ++ [add]) ∨
       (cmd = commit ∧ log' = log ++ [add; diff; commit]) ∨
       (cmd = push ∧ log' = log ++ [add; diff; commit; rev_parse; push] ∧
        returncode (subprocess_run (log ++ [add; diff]) commit) = 0%Z))
  | Returned r log' =>
      (r = {| commit_hash := None; files_staged := [] |} ∧
       log' = log ++ [add; diff]) ∨
      (is_Some (commit_hash r) ∧ files_staged r ≠ [] ∧
       log' = log ++ [add; diff; commit; rev_parse; push] ∧
       returncode (subprocess_run (log ++ [add; diff]) commit) = 0%Z ∧
       returncode (subprocess_run (log ++ [add; diff; commit; rev_parse]) push)
       = 0%Z)
  end.
Proof.
  intros add diff commit rev_parse push.
  unfold git_push, mbind, G_mbind, G_bind.
  unfold git_run at 1. fold add.
  destruct (bool_decide (returncode (subprocess_run log add) ≠ 0%Z)) eqn:Hadd; simpl.
  { apply bool_decide_eq_true in Hadd. split; [done|]. by left. }
  fold diff. destruct (decide _) as [Heq|Hne]; simpl.
  { left. by rewrite <-app_assoc. }
  fold commit. unfold git_run at 1. rewrite <-!app_assoc. simpl.
  destruct (bool_decide
    (returncode (subprocess_run (log ++ [add; diff]) commit) ≠ 0%Z)) eqn:Hc; simpl.
  { apply bool_decide_eq_true in Hc. split; [done|]. right. by left. }
  apply bool_decide_eq_false in Hc.
  assert (returncode (subprocess_run (log ++ [add; diff]) commit) = 0%Z) as Hc0.
  { by destruct (decide (returncode
      (subprocess_run (log ++ [add; diff]) commit) = 0%Z)). }
  fold rev_parse push. unfold git_run. rewrite <-!app_assoc. simpl.
  destruct (bool_decide (returncode
    (subprocess_run (log ++ [add; diff; commit; rev_parse]) push) ≠ 0%Z))
    eqn:Hp; simpl.
  { apply bool_decide_eq_true in Hp. split; [done|]. right. right. done. }
  apply bool_decide_eq_false in Hp. right.
  split; [by eauto|]. split; [done|]. split; [done|]. split; [done|].
  by destruct (decide (returncode
    (subprocess_run (log ++ [add; diff; commit; rev_parse]) push) = 0%Z)).
Qed.

(** X15.  [git_pull] runs one command: [git fetch --dry-run] in a dry run,
    which never raises, and [git pull] otherwise, which raises when the
    command fails; the message it returns is never empty. *)
Theorem git_pull_runs_one_command (dry_run : bool) (log : list (list string)) :
  let cmd := if dry_run then ["git"; "fetch"; "--dry-run"] else ["git"; "pull"] in
  commands (git_pull subprocess_run strip dry_run log) = log ++ [cmd] ∧
  match git_pull subprocess_run strip dry_run log with
  | Returned msg _ => msg ≠ ""
  | Failed (CalledProcessError cmd' rc) _ =>
      dry_run = false ∧ cmd' = cmd ∧ rc ≠ 0%Z ∧
      rc = returncode (subprocess_run log cmd)
  end.
Proof.
  destruct dry_run; simpl; unfold git_pull, mbind, G_mbind, G_bind, git_run; simpl.
  - split; [done|]. unfold str_or. by destruct (decide _).
  - destruct (bool_decide _) eqn:Hp; simpl.
    + apply bool_decide_eq_true in Hp. done.
    + split; [done|]. unfold str_or. by destruct (decide _).
Qed.
End git_properties.

(** ** The diff command as a whole *)

Section diff_command.
Variable splitlines : string → list string.
Variable unified_diff :
  list string → list string → string → string → list string.
Variable list_files : string → list string.
Variable read_file : string → option string.

(** X16.  What [diff] shows for a file that the adapter cannot read in the
    environment ([read_file] gives [None], as the local adapter does for a
    file that does not decode as text, for which [collect_files] records
    [<binary>] locally): whenever the local snapshot holds non-empty
    content for it, the file is reported as local only, whether or not it
    exists in the environment. *)
Theorem diff_unreadable_remote_is_local_only (local_files : dict)
    (target_dir : string) (sync_paths : list string) (k c : string) :
  dict_get local_files k = Some c → c ≠ "" →
  read_file (target_dir +:+ "/" +:+ k) = None →
  "  + " +:+ k +:+ " (local only)" ∈
    diff_trees splitlines unified_diff local_files
      (collect_remote list_files read_file target_dir sync_paths).
Proof.
  intros Hk Hc Hread.
  assert (dict_get (collect_remote list_files read_file target_dir sync_paths) k
          = None) as Hremote.
  { destruct (dict_get (collect_remote _ _ _ _) k) as [c'|] eqn:Hget; [|done].
    apply collect_remote_get in Hget as [Hread' _]. congruence. }
  unfold diff_trees. apply list_elem_of_omap. exists k. split.
  - apply elem_of_all_paths. left. eauto.
  - by eapply diff_path_local_only.
Qed.
End diff_command.

Lemma diff_unreadable_remote_is_local_only_witness :
  let sl := λ _ : string, @nil string in
  let ud := λ (_ _ : list string) (_ _ : string), @nil string in
  let list_files := λ _ : string, ["logo.bin"] in
  let read_file := λ _ : string, @None string in
  "  + " +:+ "commands/logo.bin" +:+ " (local only)" ∈
    diff_trees sl ud [("commands/logo.bin", "<binary>")]
      (collect_remote list_files read_file "/home" ["commands"]).
Proof.
  intros sl ud list_files read_file.
  apply (diff_unreadable_remote_is_local_only sl ud list_files read_file
           [("commands/logo.bin", "<binary>")] "/home" ["commands"]
           "commands/logo.bin" "<binary>"); done.
Defined.

(** ** The collector holds nothing else *)

Section collect_sound.
Variable decode : string → option string.
Variable s : fs.
Variable base_dir : path.

Lemma records_sound_set (sps : list path) (files : dict) (sp rel : path) :
  records_sound decode s base_dir sps files →
  sp ∈ sps → sp `prefix_of` rel → is_file s (base_dir ++ rel) = true →
  records_sound decode s base_dir sps
    (dict_set (str rel) (expected_record decode s (base_dir ++ rel)) files).
Proof.
  intros Hok Hsp Hpre Hfile k v. rewrite dict_get_set.
  destruct (decide (str rel = k)) as [<-|]; [|apply Hok].
  intros [= <-]. exists sp, rel. eauto.
Qed.

Lemma collect_dir_sound (sps : list path) (sp : path) (l : list path)
    (files : dict) :
  sp ∈ sps →
  records_sound decode s base_dir sps files →
  (∀ f, f ∈ l → ∃ r, f = base_dir ++ sp ++ r) →
  ∃ files',
    fold_each l
      (λ files f, (λ s,
         if is_file s f then
           let rel := str (default [] (strip base_dir f)) in
           (c ← read_or_binary decode f; mret (dict_set rel c files)) s
         else Ok files s) : M dict)
      files s = Ok files' s ∧
    records_sound decode s base_dir sps files'.
Proof.
  intros Hsp. revert files. induction l as [|f l IH]; intros files Hok Hl; simpl.
  { by exists files. }
  destruct (Hl f) as [r ->]; [left|].
  assert (strip base_dir (base_dir ++ sp ++ r) = Some (sp ++ r)) as Hstrip.
  { apply strip_app. }
  unfold mbind at 1, M_bind at 1.
  destruct (is_file s (base_dir ++ sp ++ r)) eqn:Hfile.
  - unfold mbind, M_bind. rewrite read_or_binary_file by done.
    simpl. rewrite Hstrip. simpl. apply IH.
    + apply (records_sound_set sps files sp); [done..|by apply prefix_app_r|done].
    + intros f' Hf'. apply Hl. by right.
  - apply IH; [done|]. intros f' Hf'. apply Hl. by right.
Qed.

Lemma collect_path_sound (sps : list path) (files : dict) (sp : path) :
  sp ∈ sps →
  records_sound decode s base_dir sps files →
  ∃ files',
    collect_path_open decode base_dir files sp s = Ok files' s ∧
    records_sound decode s base_dir sps files'.
Proof.
  intros Hsp Hok. unfold collect_path_open.
  destruct (exists_ s (base_dir ++ sp)); simpl; [|by eauto].
  destruct (is_file s (base_dir ++ sp)) eqn:Hfile.
  { unfold mbind, M_bind. rewrite read_or_binary_file by done. simpl.
    eexists. split; [done|]. by apply (records_sound_set sps files sp). }
  destruct (is_dir s (base_dir ++ sp)); [|by eauto].
  apply (collect_dir_sound sps sp); [done..|].
  intros f Hf. rewrite merge_sort_Permutation in Hf.
  apply elem_of_rglob in Hf as (d & n & r & _ & -> & _).
  exists (n :: r). by rewrite <-app_assoc.
Qed.

Lemma collect_open_sound (sps : list path) :
  ∃ files,
    collect_files_open decode base_dir sps s = Ok files s ∧
    ∀ k v, dict_get files k = Some v →
      ∃ sp rel, sp ∈ sps ∧ sp `prefix_of` rel ∧ k = str rel ∧
                is_file s (base_dir ++ rel) = true ∧
                v = expected_record decode s (base_dir ++ rel).
Proof.
  unfold collect_files_open.
  assert (∀ done files0,
    records_sound decode s base_dir (done ++ sps) files0 →
    ∃ files,
      fold_each sps (collect_path_open decode base_dir) files0 s = Ok files s ∧
      records_sound decode s base_dir (done ++ sps) files) as Hfold.
  { induction sps as [|sp sps' IH]; intros done files0 Hok; simpl.
    { by exists files0. }
    destruct (collect_path_sound (done ++ sp :: sps') files0 sp)
      as (files1 & Hrun1 & Hok1); [|done|].
    { apply elem_of_app. right. left. }
    unfold mbind, M_bind. rewrite Hrun1.
    destruct (IH (done ++ [sp]) files1) as (files & Hrun & Hok').
    { by rewrite <-app_assoc. }
    exists files. split; [done|]. by rewrite <-app_assoc in Hok'. }
  destruct (Hfold [] []) as (files & Hrun & Hok); [done|].
  by exists files.
Qed.
End collect_sound.

(** ** Copying a directory into the staging area *)

(** X18.  [_copy_dir] writes at or below its destination only: when the
    ancestors of the destination exist as real directories down to [a]
    and nothing exists at [a/x], then, whether the copy returns or
    raises, no existing entry is removed or changed, every entry that is
    not at or below [a/x] is as it was, and when the copy returns the
    destination is a directory. *)
Theorem copy_dir_writes_below_destination (src a : path) (x : string)
    (b : path) (rs : bool) (s : fs) :
  simple_fs s → simple (a ++ x :: b) → real_dir s a → free_below s (a ++ [x]) →
  s ⊆ final (_copy_dir recursion_limit src (a ++ x :: b) rs s) ∧
  (∀ q, ¬ a ++ [x] `prefix_of` q →
        final (_copy_dir recursion_limit src (a ++ x :: b) rs s) !! q = s !! q) ∧
  (∀ u s', _copy_dir recursion_limit src (a ++ x :: b) rs s = Ok u s' →
           s' !! (a ++ x :: b) = Some Dir).
Proof.
  intros Hs Hsd Ha Hf.
  destruct (copy_dir_staged recursion_limit src a x b rs s Hs Hsd Ha Hf)
    as ([Hsub Hnew] & _ & Hok).
  split; [done|]. split; [|done]. intros q Hq.
  destruct (s !! q) as [nd|] eqn:Hsq; [by eapply lookup_weaken|].
  destruct (final _ !! q) as [nd|] eqn:Hfq; [|done].
  destruct (Hnew q) as [[nd' Hq']|(Hpre & _)]; [by eauto|congruence|done].
Qed.

Lemma copy_dir_writes_below_destination_witness :
  dotfiles ⊆ final (_copy_dir recursion_limit ["src"; "commands"]
                      (["tmp"] ++ "out" :: ["commands"]) true dotfiles) ∧
  (∀ q, ¬ ["tmp"] ++ ["out"] `prefix_of` q →
        final (_copy_dir recursion_limit ["src"; "commands"]
                 (["tmp"] ++ "out" :: ["commands"]) true dotfiles) !! q
        = dotfiles !! q) ∧
  (∀ u s', _copy_dir recursion_limit ["src"; "commands"]
             (["tmp"] ++ "out" :: ["commands"]) true dotfiles = Ok u s' →
           s' !! (["tmp"] ++ "out" :: ["commands"]) = Some Dir).
Proof.
  apply (copy_dir_writes_below_destination ["src"; "commands"] ["tmp"] "out"
           ["commands"] true dotfiles).
  - apply (bool_decide_unpack (simple_fs _)). vm_compute. exact I.
  - apply (bool_decide_unpack (simple _)). vm_compute. exact I.
  - apply (bool_decide_unpack (real_dir _ _)). vm_compute. exact I.
  - apply (bool_decide_unpack (free_below _ _)). vm_compute. exact I.
Defined.

(** ** Installing when nothing matches *)

Lemma exists_below_free (s : fs) (d : path) (x : string) (rest : path) :
  real_dir s d → simple d → simple_name x → s !! (d ++ [x]) = None →
  exists_ s (d ++ x :: rest) = false.
Proof.
  intros Hd Hsd Hx Hnone. unfold exists_, stat.
  destruct rest as [|y rest].
  - rewrite locate_child; [|done..|by rewrite Hnone]. by rewrite Hnone.
  - unfold locate. by rewrite (walk_missing MAXSYMLINKS s true d x y rest).
Qed.

Lemma install_target_nothing_to_plate (adapter : Environment) (dry_run : bool)
    (t : target_config) (s : fs) :
  staging_ready s (tmp_name t) (local_path t) (sync_paths t) →
  (∀ sp, sp ∈ sync_paths t → exists_ s (local_path t ++ sp) = false) →
  install_target adapter dry_run t s = Ok () s.
Proof.
  intros Hready Hmiss. pose proof Hready as (Hs & Hv & Hl & Hsrc & Hall & Hinc).
  destruct (staging_ready_run _ _ _ (resolve_symlinks t) s Hready) as [Hinv HP].
  destruct (staging_run s _ _ (resolve_symlinks t) Hv Hl Hsrc _ [] _
              Hinv Hall Hinc HP) as (_ & Heq & _).
  assert (filter (λ sp, exists_ s (local_path t ++ sp) = true) (sync_paths t) = [])
    as Hnil.
  { clear -Hmiss. induction (sync_paths t) as [|sp sps IH]; [done|].
    rewrite filter_cons_False.
    - apply IH. intros sp' Hsp'. apply Hmiss. by right.
    - rewrite Hmiss; [done|left]. }
  rewrite Hnil in Heq. simpl in Heq.
  unfold install_target, mbind, M_bind, gets.
  destruct (exists_ s (local_path t)); [|done]. simpl.
  rewrite prepare_staging_run by done. rewrite Heq. simpl.
  pose proof (staged_insert s (tmp_name t) Dir Hv) as [Hsub _].
  destruct Hinv as (_ & _ & Hreal & _).
  assert (filter (λ sp, exists_ (<[tmp_name t := Dir]> s) (tmp_name t ++ sp) = true)
            (sync_paths t) = []) as ->.
  { clear -Hall Hv Hreal. pose proof Hv as (_ & Hst & _ & Hfree).
    induction Hall as [|sp sps (Hne & Hsp & _) _ IH]; [done|].
    rewrite filter_cons_False; [done|].
    destruct sp as [|x rest]; [done|]. apply Forall_cons in Hsp as [Hx _].
    rewrite exists_below_free; [done|done|done|done|].
    rewrite lookup_insert_ne.
    - apply (free_below_lookup s (tmp_name t)); [done|by apply prefix_app_r].
    - intros Heq. apply (f_equal length) in Heq.
      rewrite length_app in Heq. simpl in Heq. lia. }
  apply rmtree_restores; [done..|].
  intros q Hq. apply lookup_insert_ne. by intros <-.
Qed.

(** X19.  When none of the sync paths of any target exists in its source
    directory, [install] has nothing to deploy: with or without
    [--dry-run] and whatever the adapter, it returns, the adapter's
    [clean] and [deploy] are not called, and the file system is exactly as
    it was before (the empty staging directories are removed again). *)
Theorem install_nothing_to_plate (adapter : Environment) (dry_run : bool)
    (targets : list target_config) (s : fs) (available : bool) :
  is_available adapter s = Ok available s →
  Forall (λ t,
    staging_ready s (tmp_name t) (local_path t) (sync_paths t) ∧
    ∀ sp, sp ∈ sync_paths t → exists_ s (local_path t ++ sp) = false)
    targets →
  install adapter dry_run targets s = Ok () s.
Proof.
  intros Hav Hall. unfold install, mbind, M_bind. rewrite Hav.
  destruct available; [|done]. simpl.
  induction Hall as [|t targets [Hready Hmiss] _ IH]; [done|].
  simpl. unfold mbind, M_bind. by rewrite install_target_nothing_to_plate.
Qed.

Lemma install_nothing_to_plate_witness :
  install LocalEnvironment false
    [{| local_path := ["src"]; sync_paths := [["agents"]; ["scripts"]];
        target_dir := ["home"]; resolve_symlinks := true;
        tmp_name := ["tmp"; "ksync-0"] |}] dotfiles
  = Ok () dotfiles.
Proof.
  apply (install_nothing_to_plate LocalEnvironment false _ dotfiles true);
    [done|].
  apply Forall_cons. split; [|by apply Forall_nil]. split.
  - apply (bool_decide_unpack (staging_ready _ _ _ _)). vm_compute. exact I.
  - intros sp Hsp. simpl in Hsp.
    apply elem_of_cons in Hsp as [->|Hsp]; [by vm_compute|].
    apply list_elem_of_singleton in Hsp as ->. by vm_compute.
Defined.

(** ** Deploying to the local file system *)

Lemma deploy_path_reports (staging target : path) (deployed : list path)
    (sp : path) (s : fs) (deployed' : list path) (s' : fs) :
  deploy_path staging target deployed sp s = Ok deployed' s' →
  deployed' = deployed ∨ deployed' = deployed ++ [sp].
Proof.
  unfold deploy_path.
  destruct (exists_ s (staging ++ sp)); simpl; [|intros [= <- <-]; by left].
  unfold mbind, M_bind.
  match goal with |- match ?m with _ => _ end = _ → _ =>
    destruct m as [u s1|e s1]; [|done] end.
  intros [= <- <-]. by right.
Qed.

(** X20.  What [LocalEnvironment.deploy] reports as deployed is a
    sub-list of the sync paths it was given, in their order. *)
Theorem deploy_reports_sublist (staging target : path) (sps : list path)
    (s : fs) (deployed : list path) (s' : fs) :
  deploy staging target sps s = Ok deployed s' → deployed `sublist_of` sps.
Proof.
  unfold deploy, mbind, M_bind.
  destruct (mkdir_parents target s) as [u s1|e s1]; [|done].
  assert (∀ acc s1, fold_each sps (deploy_path staging target) acc s1
                    = Ok deployed s' →
            ∃ new, deployed = acc ++ new ∧ new `sublist_of` sps) as Hfold.
  { clear. induction sps as [|sp sps IH]; intros acc s1; simpl.
    { intros [= <- <-]. exists []. by rewrite app_nil_r. }
    unfold mbind, M_bind.
    destruct (deploy_path staging target acc sp s1) as [acc' s2|e s2] eqn:Hsp;
      [|done].
    intros Hrun. destruct (IH acc' s2 Hrun) as (new & -> & Hsub).
    destruct (deploy_path_reports _ _ _ _ _ _ _ Hsp) as [->| ->].
    - exists new. split; [done|]. by apply sublist_cons.
    - exists (sp :: new). rewrite <-app_assoc. split; [done|].
      by apply sublist_skip. }
  intros Hrun. by destruct (Hfold [] s1 Hrun) as (new & -> & Hsub).
Qed.

Lemma deploy_reports_sublist_witness :
  [["commands"]] `sublist_of` [["missing"]; ["commands"]].
Proof.
  apply (deploy_reports_sublist ["tmp"; "staging"] ["home"]
           [["missing"]; ["commands"]] file_over_dir [["commands"]]
           (final (deploy ["tmp"; "staging"] ["home"]
                     [["missing"]; ["commands"]] file_over_dir))).
  vm_compute. reflexivity.
Defined.

(** X21.  [LocalEnvironment.deploy] of a sync path that is a readable
    regular file in the staging directory, to a destination below which
    nothing exists yet ([a] is a real directory, [a/x] is free, the
    destination is [a/x/b]): the missing parent directories are made, the
    destination becomes a regular file with the staged content, the sync
    path is reported as deployed, and nothing outside [a/x] changes. *)
Theorem deploy_file_to_fresh_destination (staging target : path)
    (deployed : list path) (sp a : path) (x : string) (b : path)
    (data : string) (s : fs) :
  target ++ sp = a ++ x :: b → simple (a ++ x :: b) →
  real_dir s a → free_below s (a ++ [x]) →
  stat s (staging ++ sp) = Some (File true data) →
  ∃ s', deploy_path staging target deployed sp s = Ok (deployed ++ [sp]) s' ∧
        s' !! (target ++ sp) = Some (File true data) ∧
        real_dir s' (parent (target ++ sp)) ∧
        s ⊆ s' ∧ ∀ q, ¬ a ++ [x] `prefix_of` q → s' !! q = s !! q.
Proof.
  intros Hdst Hsd Ha Hf Hst. unfold deploy_path, exists_, is_dir.
  rewrite Hst. simpl. rewrite Hdst.
  destruct (mkdir_parent_vacant a x b s Hsd Ha Hf) as (s1 & Hrun & Hv & Hst1 & _).
  unfold mbind, M_bind. rewrite Hrun.
  rewrite copy2_vacant by done.
  rewrite (stat_subseteq s s1 _ _ (proj1 Hst1) Hst). simpl.
  pose proof (staged_insert s1 (a ++ x :: b) (File true data) Hv) as Hst2.
  assert (staged (a ++ [x]) s (<[a ++ x :: b := File true data]> s1))
    as [Hsub Hnew].
  { eapply (staged_trans (a ++ [x]) (a ++ [x]) (a ++ x :: b)); [done| |done..].
    apply prefix_app, prefix_cons, prefix_nil. }
  eexists. split; [done|]. split; [apply lookup_insert_eq|].
  split.
  { eapply real_dir_mono; [apply Hst2|]. apply Hv. }
  split; [done|]. intros q Hq.
  destruct (s !! q) as [nd|] eqn:Hsq; [by eapply lookup_weaken|].
  destruct (<[a ++ x :: b := File true data]> s1 !! q) as [nd|] eqn:Hfq; [|done].
  destruct (Hnew q) as [[nd' Hq']|(Hpre & _)]; [by eauto|congruence|done].
Qed.

Lemma deploy_file_to_fresh_destination_witness :
  ∃ s', deploy_path ["src"] ["home"] [] ["CLAUDE.md"] dotfiles
        = Ok ([] ++ [["CLAUDE.md"]]) s' ∧
        s' !! (["home"] ++ ["CLAUDE.md"]) = Some (File true "# My Config") ∧
        real_dir s' (parent (["home"] ++ ["CLAUDE.md"])) ∧
        dotfiles ⊆ s' ∧ ∀ q, ¬ [] ++ ["home"] `prefix_of` q → s' !! q = dotfiles !! q.
Proof.
  apply (deploy_file_to_fresh_destination ["src"] ["home"] [] ["CLAUDE.md"]
           [] "home" ["CLAUDE.md"] "# My Config" dotfiles).
  - reflexivity.
  - apply (bool_decide_unpack (simple _)). vm_compute. exact I.
  - apply (bool_decide_unpack (real_dir _ _)). vm_compute. exact I.
  - apply (bool_decide_unpack (free_below _ _)). vm_compute. exact I.
  - vm_compute. reflexivity.
Defined.

(** ** Reading the local environment *)

(** X22.  [LocalEnvironment.read_file] never raises and leaves the file
    system as it is: it returns the decoded text of a path that leads to a
    readable regular file, and [None] for a path that does not exist, is
    a directory, may not be read or does not decode. *)
Theorem local_read_file_spec (decode : string → option string) (p : path)
    (s : fs) :
  local_read_file decode p s =
  Ok (match stat s p with
      | Some (File true data) => decode data
      | _ => None
      end) s.
Proof.
  unfold local_read_file, exists_, is_file, read_text, stat.
  destruct (locate s p) as [q| |]; simpl; try done.
  by destruct (s !! q) as [[[] data|t|]|].
Qed.

(** X23.  [LocalEnvironment.list_files] never raises and leaves the file
    system as it is; for a path that does not exist the list is empty, and
    otherwise it holds exactly the paths, relative to the path asked for,
    of the regular files that [rglob] finds below it. *)
Theorem local_list_files_spec (base : path) (s : fs) :
  ∃ files, local_list_files base s = Ok files s ∧
    (exists_ s base = false → files = []) ∧
    ∀ k, k ∈ files ↔
      ∃ rel, k = str rel ∧ base ++ rel ∈ rglob s base ∧
             is_file s (base ++ rel) = true.
Proof.
  unfold local_list_files. destruct (exists_ s base) eqn:Hex; simpl.
  - eexists. split; [done|]. split; [done|]. intros k.
    rewrite list_elem_of_omap. split.
    + intros (f & Hf & Hk). rewrite merge_sort_Permutation in Hf.
      destruct (is_file s f) eqn:Hfile; [|done]. injection Hk as <-.
      pose proof Hf as Hf'.
      apply elem_of_rglob in Hf' as (d & n & r & _ & -> & _).
      exists (n :: r). by rewrite strip_app.
    + intros (rel & -> & Hf & Hfile). exists (base ++ rel).
      rewrite merge_sort_Permutation. split; [done|].
      by rewrite Hfile, strip_app.
  - exists []. split; [done|]. split; [done|]. intros k. split.
    + by intros ?%elem_of_nil.
    + intros (rel & _ & Hf & _). unfold rglob in Hf. unfold exists_, stat in Hex.
      destruct (locate s base) as [d| |]; try by apply elem_of_nil in Hf.
      simpl in Hex. apply list_elem_of_omap in Hf as (q & Hq & Hf).
      destruct (strip d q) as [[|n r]|] eqn:Hs; try done.
      destruct (forallb _ _) eqn:Hall; [|done].
      simpl in Hall. apply andb_prop in Hall as [Hd _].
      apply bool_decide_eq_true in Hd. rewrite app_nil_r in Hd.
      by rewrite Hd in Hex.
Qed.

(** ** The configuration file *)

Lemma config_lookup_set {V} (k k' : string) (v : V) (d : list (string * V)) :
  config.lookup_key k' (config.set_key k v d) =
  if decide (k = k') then Some v else config.lookup_key k' d.
Proof.
  induction d as [|[k0 v0] d IH]; simpl.
  - done.
  - destruct (decide (k0 = k)) as [->|Hne]; simpl.
    + by destruct (decide (k = k')).
    + rewrite IH. destruct (decide (k0 = k')) as [->|]; [|done].
      by rewrite decide_False.
Qed.

Lemma config_set_fresh {V} (k : string) (v : V) (d : list (string * V)) :
  k ∉ d.*1 → config.set_key k v d = d ++ [(k, v)].
Proof.
  induction d as [|[k0 v0] d IH]; simpl; [done|].
  intros Hk. apply not_elem_of_cons in Hk as [Hne Hk].
  rewrite decide_False by done. by rewrite IH.
Qed.

Lemma config_fold_set {V W} (f : V → W) (l acc : list (string * V))
    (acc' : list (string * W)) :
  NoDup (acc.*1 ++ l.*1) → acc'.*1 = acc.*1 →
  foldl (λ a '(k, v), config.set_key k (f v) a) acc' l
  = acc' ++ (prod_map id f <$> l).
Proof.
  revert acc acc'. induction l as [|[k v] l IH]; intros acc acc' Hnd Hkeys; simpl.
  { by rewrite app_nil_r. }
  rewrite config_set_fresh.
  2:{ rewrite Hkeys. apply NoDup_app in Hnd as (_ & Hdisj & _).
      intros Hk. apply (Hdisj k Hk). left. }
  rewrite (IH (acc ++ [(k, v)])).
  - by rewrite <-app_assoc.
  - by rewrite fmap_app, <-app_assoc.
  - rewrite !fmap_app. by rewrite Hkeys.
Qed.

Lemma config_load_target (t : config.TargetConfig) :
  config.storable_target t →
  config.getitem (config.save_target t) "name" = Some (config.name t) ∧
  config.getitem (config.save_target t) "profile" = Some (config.profile t) ∧
  config.getitem (config.save_target t) "repo" = Some (config.repo t) ∧
  config.getitem (config.save_target t) "local_dir" = Some (config.local_dir t) ∧
  config.get (config.save_target t) "sync_paths" (config.JArr [])
  = Some (config.sync_paths t) ∧
  config.get (config.save_target t) "git_env" (config.JObj [])
  = Some (config.git_env t).
Proof.
  intros Hst. unfold config.save_target, config.storable_target in *.
  destruct (config.truthy (config.git_env t)); simpl.
  - repeat split; reflexivity.
  - rewrite Hst by done. repeat split; reflexivity.
Qed.

Lemma config_load_targets (ts acc : list config.TargetConfig) :
  Forall config.storable_target ts →
  foldl (λ acc t,
           targets ← acc;
           n ← config.getitem t "name";
           p ← config.getitem t "profile";
           r ← config.getitem t "repo";
           l ← config.getitem t "local_dir";
           sp ← config.get t "sync_paths" (config.JArr []);
           ge ← config.get t "git_env" (config.JObj []);
           Some (targets ++ [{| config.name := n; config.profile := p;
                                config.repo := r; config.local_dir := l;
                                config.sync_paths := sp;
                                config.git_env := ge |}]))
        (Some acc) (config.save_target <$> ts)
  = Some (acc ++ ts).
Proof.
  intros Hall. revert acc. induction Hall as [|t ts Ht _ IH]; intros acc.
  { by rewrite app_nil_r. }
  rewrite fmap_cons. cbn [foldl].
  destruct (config_load_target t Ht) as (-> & -> & -> & -> & -> & ->).
  cbn [mbind option_bind]. rewrite IH, <-app_assoc. by destruct t.
Qed.

Lemma config_load_env_target (tc : config.EnvTargetConfig) :
  config._env_target_from_dict (config.save_env_target tc) = Some tc.
Proof.
  unfold config._env_target_from_dict, config.save_env_target.
  destruct tc as [td rs]. simpl.
  destruct rs as [|[]| | | |]; reflexivity.
Qed.

Lemma config_load_env_targets (l acc : list (string * config.EnvTargetConfig)) :
  NoDup (acc.*1 ++ l.*1) →
  foldl (λ acc '(tname, tconf),
           targets ← acc;
           t ← config._env_target_from_dict tconf;
           Some (config.set_key tname t targets))
        (Some acc) (prod_map id config.save_env_target <$> l)
  = Some (acc ++ l).
Proof.
  revert acc. induction l as [|[k tc] l IH]; intros acc Hnd.
  { by rewrite app_nil_r. }
  rewrite fmap_cons. cbn [foldl prod_map fst snd id].
  cbn [mbind option_bind]. rewrite config_load_env_target. cbn [mbind option_bind].
  rewrite config_set_fresh.
  2:{ apply NoDup_app in Hnd as (_ & Hdisj & _).
      intros Hk. apply (Hdisj k Hk). left. }
  rewrite IH; [by rewrite <-app_assoc|].
  by rewrite fmap_app, <-app_assoc.
Qed.

Lemma config_load_environment (ename : string) (env : config.EnvironmentConfig) :
  config.storable_environment ename env →
  config._environment_from_dict ename (config.save_environment env) = Some env.
Proof.
  intros (Hname & Himg & Hhost & Hnd).
  unfold config._environment_from_dict, config.save_environment.
  rewrite (config_fold_set config.save_env_target (config.env_targets env) [] [])
    by done.
  rewrite app_nil_l.
  destruct env as [en ty tg img hst]. simpl in Hname, Himg, Hhost, Hnd. subst en.
  cbn [config.env_targets config.image config.host config.type].
  destruct (config.truthy img) eqn:Hi, (config.truthy hst) eqn:Hh;
    rewrite ?Himg, ?Hhost by done; simpl;
    rewrite (config_load_env_targets tg []) by done; reflexivity.
Qed.

Lemma config_load_environments
    (l acc : list (string * config.EnvironmentConfig)) :
  NoDup (acc.*1 ++ l.*1) →
  Forall (λ kv, config.storable_environment kv.1 kv.2) l →
  foldl (λ acc '(ename, econf),
           environments ← acc;
           e ← config._environment_from_dict ename econf;
           Some (config.set_key ename e environments))
        (Some acc) (prod_map id config.save_environment <$> l)
  = Some (acc ++ l).
Proof.
  intros Hnd Hall. revert acc Hnd.
  induction Hall as [|[k env] l Henv _ IH]; intros acc Hnd.
  { by rewrite app_nil_r. }
  rewrite fmap_cons. cbn [foldl prod_map fst snd id].
  cbn [mbind option_bind]. rewrite config_load_environment by done.
  cbn [mbind option_bind].
  rewrite config_set_fresh.
  2:{ apply NoDup_app in Hnd as (_ & Hdisj & _).
      intros Hk. apply (Hdisj k Hk). left. }
  rewrite IH; [by rewrite <-app_assoc|].
  by rewrite fmap_app, <-app_assoc.
Qed.

(** X24.  Saving a configuration and loading it again gives the same
    configuration, provided it is one that the file can hold as it is:
    every empty [git_env] is the empty dictionary, an image or host that
    is not set is [None] (an empty string is not written and comes back as
    [None]), every environment carries the name it is filed under, and the
    keys of the dictionaries are distinct. *)
Theorem config_save_load (c : config.Config) :
  config.storable c →
  config.load_config (config.save_config c) = Some c.
Proof.
  intros (Hts & Hes & Hnd).
  unfold config.load_config, config.save_config.
  rewrite (config_fold_set config.save_environment (config.environments c) [] [])
    by done.
  rewrite app_nil_l. simpl.
  rewrite (config_load_targets _ [] Hts). simpl.
  rewrite (config_load_environments _ [] Hnd Hes). simpl. by destruct c.
Qed.

(** ** The collector on a tree whose directories may all be entered *)

Lemma walk1_errors (s : fs) follow cur rest e :
  walk1 s follow cur rest = Stop (Missing e) →
  e = FileNotFoundError ∨ e = NotADirectoryError.
Proof.
  revert cur. induction rest as [|c rest IH]; intros cur; simpl; [done|].
  destruct (decide (c = "" ∨ c = ".")); [apply IH|].
  destruct (decide (c = "..")); [apply IH|].
  destruct (s !! (cur ++ [c])) as [[perm data|t|]|].
  - destruct rest; intros [= <-]; auto.
  - destruct rest, follow; done.
  - apply IH.
  - destruct rest; intros [= <-]; auto.
Qed.

Lemma walk_errors (n : nat) (s : fs) follow cur rest e :
  walk n s follow cur rest = Missing e →
  e = FileNotFoundError ∨ e = NotADirectoryError ∨ e = OSError.
Proof.
  revert cur rest. induction n as [|n IH]; intros cur rest; simpl;
    destruct (walk1 s follow cur rest) as [r|c r] eqn:Hw.
  - intros ->. destruct (walk1_errors _ _ _ _ _ Hw); auto.
  - intros [= <-]. auto.
  - intros ->. destruct (walk1_errors _ _ _ _ _ Hw); auto.
  - apply IH.
Qed.

Lemma pwalk1_unlocked (s : fs) follow cur rest :
  Forall short_name rest →
  pwalk1 ∅ s follow cur rest = walk1 s follow cur rest.
Proof.
  intros Hrest. revert cur.
  induction Hrest as [|c rest Hc Hrest IH]; intros cur; simpl; [done|].
  destruct (decide (c = "")) as [->|Hne].
  { rewrite decide_True by auto. apply IH. }
  rewrite (decide_False (P := cur ∈ ∅)) by set_solver.
  destruct (decide (c = ".")) as [->|Hnd].
  { rewrite decide_True by auto. apply IH. }
  rewrite (decide_False (P := c = "" ∨ c = ".")) by (by intros [|]).
  destruct (decide (c = "..")); [apply IH|].
  rewrite decide_False by (unfold short_name in Hc; lia).
  destruct (s !! (cur ++ [c])) as [[perm data|t|]|]; done.
Qed.

Lemma walk1_jump_short (s : fs) follow cur rest c r :
  map_Forall (λ _ nd, link_target_short nd) s → Forall short_name rest →
  walk1 s follow cur rest = Jump c r → Forall short_name r.
Proof.
  intros Hs Hrest. revert cur.
  induction Hrest as [|x rest Hx Hrest IH]; intros cur; simpl; [done|].
  destruct (decide (x = "" ∨ x = ".")); [apply IH|].
  destruct (decide (x = "..")); [apply IH|].
  destruct (s !! (cur ++ [x])) as [[perm data|t|]|] eqn:Hq; try done.
  - pose proof (Hs _ _ Hq) as Ht. simpl in Ht.
    destruct rest, follow; try done; intros [= <- <-];
      apply Forall_app; by split.
  - apply IH.
Qed.

Lemma pwalk_unlocked (n : nat) (s : fs) follow cur rest :
  map_Forall (λ _ nd, link_target_short nd) s → Forall short_name rest →
  pwalk n ∅ s follow cur rest = walk n s follow cur rest.
Proof.
  intros Hs. revert cur rest.
  induction n as [|n IH]; intros cur rest Hrest; simpl;
    rewrite pwalk1_unlocked by done; [done|].
  destruct (walk1 s follow cur rest) as [r|c r] eqn:Hw; [done|].
  apply IH. by eapply walk1_jump_short.
Qed.

Lemma plocate_unlocked (s : fs) (p : path) :
  map_Forall (λ _ nd, link_target_short nd) s → Forall short_name p →
  path_length p < PATH_MAX → plocate ∅ s p = locate s p.
Proof.
  intros Hs Hp Hlen. unfold plocate, locate.
  rewrite decide_False by lia. by apply pwalk_unlocked.
Qed.

Lemma path_test_unlocked (test : option node → bool) (s : fs) (p : path) :
  map_Forall (λ _ nd, link_target_short nd) s → Forall short_name p →
  path_length p < PATH_MAX →
  path_test test ∅ p s = Ok (test (stat s p)) s.
Proof.
  intros Hs Hp Hlen. unfold path_test, stat.
  rewrite plocate_unlocked by done. unfold locate.
  destruct (walk MAXSYMLINKS s true [] p) as [q|q|e] eqn:Hw; try done.
  by destruct (walk_errors _ _ _ _ _ _ Hw) as [->|[->| ->]].
Qed.

Lemma path_read_text_unlocked (decode : string → option string) (s : fs) (p : path) :
  map_Forall (λ _ nd, link_target_short nd) s → Forall short_name p →
  path_length p < PATH_MAX →
  path_read_text decode ∅ p s = read_text decode p s.
Proof.
  intros Hs Hp Hlen. unfold path_read_text, read_text.
  rewrite plocate_unlocked by done. unfold locate.
  destruct (walk MAXSYMLINKS s true [] p) as [q|q|e] eqn:Hw; try done.
  by destruct (walk_errors _ _ _ _ _ _ Hw) as [->|[->| ->]].
Qed.

Lemma path_length_app (p q : path) :
  path_length (p ++ q) = path_length p + path_length q.
Proof. induction p as [|c p IH]; simpl; [done|]. rewrite IH. lia. Qed.

(** *** The parts of a path string *)

Lemma split_slash_no_slash (sp c : string) :
  c ∈ split_slash sp → has_slash c = false.
Proof.
  revert c. induction sp as [|a sp IH]; intros c; simpl.
  - intros Hc. apply list_elem_of_singleton in Hc. by subst.
  - destruct (Ascii.eqb a "/") eqn:Ha.
    + intros Hc. apply elem_of_cons in Hc as [->|Hc]; [done|]. by apply IH.
    + destruct (split_slash sp) as [|w ws].
      * intros Hc. apply list_elem_of_singleton in Hc. subst. simpl.
        by rewrite Ha.
      * intros Hc. apply elem_of_cons in Hc as [->|Hc].
        -- simpl. rewrite Ha. apply IH. left.
        -- apply IH. by right.
Qed.

Lemma split_slash_plain (x : string) :
  has_slash x = false → split_slash x = [x].
Proof.
  induction x as [|c x IH]; simpl; [done|]. intros Hx.
  apply orb_false_iff in Hx as [Hc Hx]. rewrite Hc, IH; done.
Qed.

Lemma split_slash_app (x rest : string) :
  has_slash x = false →
  split_slash (x +:+ String "/" rest) = x :: split_slash rest.
Proof.
  induction x as [|c x IH]; simpl; [done|]. intros Hx.
  apply orb_false_iff in Hx as [Hc Hx]. rewrite Hc, IH; done.
Qed.

Lemma split_slash_str (p : path) :
  Forall (λ c, has_slash c = false) p → p ≠ [] → split_slash (str p) = p.
Proof.
  induction 1 as [|x p Hx Hp IH]; [done|]. intros _.
  destruct p as [|y p].
  - unfold str. simpl. by apply split_slash_plain.
  - rewrite str_cons_cons, split_slash_app by done. f_equal. by apply IH.
Qed.

Lemma sync_parts_part (sp : string) : Forall part (sync_parts sp).
Proof.
  apply Forall_forall. intros c Hc. unfold sync_parts in Hc.
  apply list_elem_of_filter in Hc as [Hc Hin]. split; [done|].
  by eapply split_slash_no_slash.
Qed.

Lemma sync_parts_str (p : path) : Forall part p → sync_parts (str p) = p.
Proof.
  intros Hp. destruct (decide (p = [])) as [->|Hne]; [done|].
  unfold sync_parts. rewrite split_slash_str; [|by eapply Forall_impl; [done|intros ? []]|done].
  induction Hp as [|c p [Hc _] Hp IH]; [done|].
  rewrite filter_cons_True by done. f_equal.
  destruct (decide (p = [])) as [->|Hp']; [done|]. by apply IH.
Qed.

Lemma part_of_name (c : string) : valid_name c → simple_name c → part c.
Proof. intros [? ?] (_ & ? & _). by repeat split. Qed.

(** *** The listing *)

Lemma elem_of_entries_below (s : fs) (d rel : path) :
  rel ∈ entries_below ∅ s d ↔
  rel ≠ [] ∧ is_Some (s !! (d ++ rel)) ∧
  ∀ k, k < length rel → s !! (d ++ take k rel) = Some Dir.
Proof.
  unfold entries_below. rewrite list_elem_of_omap. split.
  - intros (q & Hq & Hrel).
    destruct (strip d q) as [[|n r]|] eqn:Hs; try done.
    destruct (forallb _ _) eqn:Hall; [|done]. injection Hrel as <-.
    apply strip_Some in Hs. subst q.
    apply list_elem_of_fmap in Hq as ([q' nd] & Heq & Hq). simpl in Heq. subst q'.
    apply elem_of_map_to_list in Hq. split; [done|]. split; [eauto|].
    intros k Hk. rewrite forallb_forall in Hall.
    specialize (Hall k). rewrite in_seq in Hall.
    apply andb_true_iff in Hall as [Hall _]; [|lia].
    by apply bool_decide_eq_true in Hall.
  - intros (Hne & [nd Hnd] & Hdirs). exists (d ++ rel). split.
    + apply list_elem_of_fmap. exists (d ++ rel, nd). split; [done|].
      by apply elem_of_map_to_list.
    + rewrite strip_app. destruct rel as [|n r]; [done|].
      rewrite (proj2 (forallb_forall _ _)); [done|].
      intros k Hk. apply in_seq in Hk. apply andb_true_iff. split.
      * apply bool_decide_eq_true. apply Hdirs. lia.
      * apply bool_decide_eq_true. set_solver.
Qed.

(** *** Resolution below a resolved directory *)

Lemma walk1_descend (s : fs) follow cur p (rel : path) :
  rel ≠ [] →
  match walk1 s true cur p with
  | Stop (Found d) =>
      s !! d = Some Dir → walk1 s follow cur (p ++ rel) = walk1 s follow d rel
  | Jump c r => walk1 s follow cur (p ++ rel) = Jump c (r ++ rel)
  | Stop _ => True
  end.
Proof.
  intros Hrel. revert cur. induction p as [|c p IH]; intros cur; simpl; [done|].
  destruct (decide (c = "" ∨ c = ".")); [apply IH|].
  destruct (decide (c = "..")); [apply IH|].
  destruct (s !! (cur ++ [c])) as [[perm data|t|]|] eqn:Hq.
  - destruct p; [|done]. intros Hd. congruence.
  - destruct p as [|y p]; simpl.
    + destruct rel; [done|]. by rewrite app_nil_r.
    + by rewrite <-app_assoc.
  - apply IH.
  - by destruct p.
Qed.

Lemma walk_descend (n : nat) (s : fs) follow cur p (d rel : path) r :
  rel ≠ [] → walk n s true cur p = Found d → s !! d = Some Dir →
  walk1 s follow d rel = Stop r →
  walk n s follow cur (p ++ rel) = r.
Proof.
  intros Hrel. revert cur p.
  induction n as [|n IH]; intros cur p; simpl;
    pose proof (walk1_descend s follow cur p rel Hrel) as H1;
    destruct (walk1 s true cur p) as [[q|q|e]|c' r'] eqn:Hw; try done.
  - intros [= ->] Hd Hr. by rewrite H1, Hr.
  - intros [= ->] Hd Hr. by rewrite H1, Hr.
  - rewrite H1. apply IH.
Qed.

Lemma walk1_entry (s : fs) follow (d rel : path) perm data :
  simple rel →
  (∀ k, k < length rel → s !! (d ++ take k rel) = Some Dir) →
  s !! (d ++ rel) = Some (File perm data) →
  walk1 s follow d rel = Stop (Found (d ++ rel)).
Proof.
  intros Hs Hdirs Hfile.
  destruct rel as [|c pre _] using rev_ind.
  { simpl. by rewrite app_nil_r. }
  apply Forall_app in Hs as [Hpre Hc]. rewrite Forall_singleton in Hc.
  rewrite walk1_dirs; [|done|].
  2:{ intros k Hk. rewrite <-(take_app_le pre [c]) by lia.
      apply Hdirs. rewrite length_app. simpl. lia. }
  simpl. destruct Hc as (? & ? & ?).
  rewrite decide_False by (by intros [|]). rewrite decide_False by done.
  rewrite <-app_assoc. by rewrite Hfile.
Qed.

Lemma stat_entry (s : fs) (src d rel : path) perm data :
  locate s src = Found d → rel ≠ [] → simple rel →
  (∀ k, k < length rel → s !! (d ++ take k rel) = Some Dir) →
  s !! (d ++ rel) = Some (File perm data) →
  stat s (src ++ rel) = Some (File perm data).
Proof.
  intros Hloc Hne Hs Hdirs Hfile. unfold stat, locate.
  rewrite (walk_descend MAXSYMLINKS s true [] src d rel (Found (d ++ rel)));
    try done.
  - specialize (Hdirs 0). rewrite take_0, app_nil_r in Hdirs. apply Hdirs.
    destruct rel; [done|simpl; lia].
  - by eapply walk1_entry.
Qed.

(** *** The calls of the collector *)

Lemma path_exists_unlocked (s : fs) (p : path) :
  map_Forall (λ _ nd, link_target_short nd) s → Forall short_name p →
  path_length p < PATH_MAX → path_exists ∅ p s = Ok (exists_ s p) s.
Proof. apply path_test_unlocked. Qed.

Lemma path_is_file_unlocked (s : fs) (p : path) :
  map_Forall (λ _ nd, link_target_short nd) s → Forall short_name p →
  path_length p < PATH_MAX → path_is_file ∅ p s = Ok (is_file s p) s.
Proof. apply path_test_unlocked. Qed.

Lemma path_is_dir_unlocked (s : fs) (p : path) :
  map_Forall (λ _ nd, link_target_short nd) s → Forall short_name p →
  path_length p < PATH_MAX → path_is_dir ∅ p s = Ok (is_dir s p) s.
Proof. apply path_test_unlocked. Qed.

Lemma path_read_or_binary_unlocked (decode : string → option string)
    (s : fs) (p : path) :
  map_Forall (λ _ nd, link_target_short nd) s → Forall short_name p →
  path_length p < PATH_MAX → is_file s p = true →
  path_read_or_binary decode ∅ p s = Ok (expected_record decode s p) s.
Proof.
  intros Hs Hp Hlen Hfile. rewrite <-(read_or_binary_file decode s p Hfile).
  unfold path_read_or_binary, read_or_binary, mbind, M_bind.
  by rewrite path_read_text_unlocked.
Qed.

Lemma path_rglob_unlocked (s : fs) (src d : path) :
  map_Forall (λ _ nd, link_target_short nd) s → Forall short_name src →
  path_length src < PATH_MAX →
  (∀ q nd, s !! q = Some nd →
     Forall short_name q ∧ length q < rglob_depth ∧
     path_length (src ++ q) < PATH_MAX) →
  locate s src = Found d → s !! d = Some Dir →
  path_rglob ∅ src s = Ok ((src ++.) <$> entries_below ∅ s d) s.
Proof.
  intros Hs Hsrc Hlen Hq Hloc Hd. unfold path_rglob, mbind, M_bind.
  rewrite path_is_dir_unlocked by done.
  unfold is_dir, stat. rewrite Hloc. simpl. rewrite Hd.
  rewrite plocate_unlocked, Hloc by done.
  assert (∀ rel, In rel (entries_below ∅ s d) →
    Forall short_name rel ∧ length rel < rglob_depth ∧
    path_length (src ++ rel) < PATH_MAX) as Hrel.
  { intros rel Hin. apply list_elem_of_In, elem_of_entries_below in Hin
      as (_ & [nd Hnd] & _).
    destruct (Hq _ _ Hnd) as (Hshort & Hdepth & Hpath).
    apply Forall_app in Hshort as [_ Hshort]. split; [done|].
    rewrite length_app in Hdepth. rewrite !path_length_app in Hpath.
    rewrite path_length_app. split; lia. }
  destruct (existsb _ _) eqn:Hdeep.
  { apply existsb_exists in Hdeep as (rel & Hin & Htest).
    apply andb_true_iff in Htest as [_ Htest].
    apply bool_decide_eq_true in Htest.
    destruct (Hrel rel Hin) as (_ & ? & _). lia. }
  match goal with
  | |- context [existsb ?f ?l] => destruct (existsb f l) eqn:Hlong; [|done]
  end.
  apply existsb_exists in Hlong as (rel & Hin & Htest).
  destruct (Hrel rel Hin) as (Hshort & _ & Hpath).
  rewrite plocate_unlocked in Htest; [|done|by apply Forall_app|done].
  unfold locate in Htest.
  destruct (walk MAXSYMLINKS s true [] (src ++ rel)) as [q|q|e] eqn:Hw;
    try by destruct (s !! (d ++ rel)) as [[]|].
  destruct (walk_errors _ _ _ _ _ _ Hw) as [->|[->| ->]];
    by destruct (s !! (d ++ rel)) as [[]|].
Qed.

Section collect_files_properties.
Variable decode : string → option string.
Variable s : fs.
Variable base_dir : path.
Hypothesis s_links : map_Forall (λ _ nd, link_target_short nd) s.

Lemma records_fit_set (files : dict) (k : string) :
  records_fit decode s base_dir files →
  is_file s (base_dir ++ sync_parts k) = true →
  records_fit decode s base_dir
    (dict_set k (expected_record decode s (base_dir ++ sync_parts k)) files).
Proof.
  intros Hok Hfile k' v. rewrite dict_get_set.
  destruct (decide (k = k')) as [<-|]; [|apply Hok]. by intros [= <-].
Qed.

Lemma collect_entries (l : list path) (files : dict) :
  records_fit decode s base_dir files →
  (∀ f, f ∈ l → ∃ rel, f = base_dir ++ rel ∧ Forall part rel ∧
                       Forall short_name f ∧ path_length f < PATH_MAX) →
  ∃ files',
    fold_each l
      (λ files f,
         isf ← path_is_file ∅ f;
         if isf : bool then
           match strip base_dir f with
           | Some rel =>
               c ← path_read_or_binary decode ∅ f;
               mret (dict_set (str rel) c files)
           | None => raise ValueError
           end
         else mret files)
      files s = Ok files' s ∧
    records_fit decode s base_dir files' ∧
    (∀ k, is_Some (dict_get files k) → is_Some (dict_get files' k)) ∧
    (∀ rel, base_dir ++ rel ∈ l → is_file s (base_dir ++ rel) = true →
       is_Some (dict_get files' (str rel))).
Proof.
  revert files. induction l as [|f l IH]; intros files Hok Hl; simpl.
  - exists files. split; [done|]. split; [done|]. split; [done|].
    intros rel Hf. by apply elem_of_nil in Hf.
  - destruct (Hl f) as (rel & Hf & Hrel & Hshort & Hlen); [left|].
    assert (strip base_dir f = Some rel) as Hstrip.
    { rewrite Hf. apply strip_app. }
    unfold mbind at 1, M_bind at 1.
    unfold mbind at 1, M_bind at 1.
    rewrite path_is_file_unlocked by done.
    destruct (is_file s f) eqn:Hfile.
    + rewrite Hstrip. unfold mbind at 1, M_bind at 1.
      rewrite path_read_or_binary_unlocked by done.
      unfold mret at 1, M_ret at 1.
      destruct (IH (dict_set (str rel) (expected_record decode s f) files))
        as (files' & Hrun & Hok' & Hmono & Hrec).
      { rewrite Hf. rewrite <-(sync_parts_str rel Hrel) at 2.
        apply records_fit_set; [done|]. by rewrite sync_parts_str, <-Hf. }
      { intros f' Hf'. apply Hl. by right. }
      exists files'. split; [done|]. split; [done|]. split.
      * intros k Hk. by apply Hmono, dict_set_keeps.
      * intros rel' Hf' Hfile'.
        apply elem_of_cons in Hf' as [Heq|Hf']; [|by apply Hrec].
        rewrite Hf in Heq. apply app_inv_head in Heq. subst rel'.
        apply Hmono. rewrite dict_get_set, decide_True by done. eauto.
    + unfold mret at 1, M_ret at 1.
      destruct (IH files) as (files' & Hrun & Hok' & Hmono & Hrec); [done|..].
      { intros f' Hf'. apply Hl. by right. }
      exists files'. split; [done|]. split; [done|]. split; [done|].
      intros rel' Hf' Hfile'.
      apply elem_of_cons in Hf' as [Heq|Hf']; [|by apply Hrec].
      rewrite <-Heq in Hfile. congruence.
Qed.
End collect_files_properties.

Section collect_files_run.
Variable decode : string → option string.
Variable s : fs.
Variable base_dir : path.
Hypothesis s_valid : valid_fs s.
Hypothesis s_simple : simple_fs s.

(** What one sync path adds to the records. *)
Lemma collect_path_spec (sps : list string) (files : dict) (sp : string) :
  within_limits s base_dir sps → sp ∈ sps → is_absolute sp = false →
  records_fit decode s base_dir files →
  ∃ files',
    collect_path decode ∅ base_dir files sp s = Ok files' s ∧
    records_fit decode s base_dir files' ∧
    (∀ k, is_Some (dict_get files k) → is_Some (dict_get files' k)) ∧
    (is_file s (base_dir ++ sync_parts sp) = true →
     is_Some (dict_get files' sp)) ∧
    (∀ d rel perm data,
       locate s (base_dir ++ sync_parts sp) = Found d → rel ≠ [] →
       (∀ k, k < length rel → s !! (d ++ take k rel) = Some Dir) →
       s !! (d ++ rel) = Some (File perm data) →
       is_Some (dict_get files' (str (sync_parts sp ++ rel)))).
Proof.
  intros [Hsps Hs] Hsp Hrel Hok.
  rewrite Forall_forall in Hsps. destruct (Hsps sp Hsp) as [Hshort Hlen].
  assert (map_Forall (λ _ nd, link_target_short nd) s) as Hlinks.
  { intros q nd Hq. by destruct (Hs q nd Hq) as (_ & ? & _). }
  assert (∀ q nd, s !! q = Some nd →
     Forall short_name q ∧ length q < rglob_depth ∧
     path_length ((base_dir ++ sync_parts sp) ++ q) < PATH_MAX) as Hq.
  { intros q nd Hq. destruct (Hs q nd Hq) as (? & _ & ? & Hall).
    rewrite Forall_forall in Hall. rewrite <-app_assoc. auto. }
  assert (∀ d rel, locate s (base_dir ++ sync_parts sp) = Found d →
     rel ≠ [] → (∀ k, k < length rel → s !! (d ++ take k rel) = Some Dir) →
     stat s (base_dir ++ sync_parts sp) = Some Dir) as Hdir.
  { intros d rel Hloc Hne Hdirs. unfold stat. rewrite Hloc. simpl.
    specialize (Hdirs 0). rewrite take_0, app_nil_r in Hdirs. apply Hdirs.
    destruct rel; [done|simpl; lia]. }
  unfold collect_path. rewrite Hrel.
  unfold mbind at 1, M_bind at 1. rewrite path_exists_unlocked by done.
  unfold exists_, is_file.
  destruct (stat s (base_dir ++ sync_parts sp)) as [[perm data|t|]|] eqn:Hst;
    simpl.
  - unfold mbind at 1, M_bind at 1. rewrite path_is_file_unlocked by done.
    unfold is_file. rewrite Hst.
    unfold mbind at 1, M_bind at 1.
    rewrite path_read_or_binary_unlocked; [|done..|by unfold is_file; rewrite Hst].
    eexists. split; [done|].
    split; [by apply records_fit_set; [|unfold is_file; rewrite Hst]|].
    split; [intros k; apply dict_set_keeps|]. split.
    + intros _. rewrite dict_get_set, decide_True by done. eauto.
    + intros d rel perm' data' Hloc Hne Hdirs _.
      by specialize (Hdir d rel Hloc Hne Hdirs).
  - exists files. split.
    { unfold mbind at 1, M_bind at 1. rewrite path_is_file_unlocked by done.
      unfold is_file. rewrite Hst.
      unfold mbind at 1, M_bind at 1. rewrite path_is_dir_unlocked by done.
      unfold is_dir. by rewrite Hst. }
    split; [done|]. split; [done|]. split; [done|].
    intros d rel perm' data' Hloc Hne Hdirs _.
    by specialize (Hdir d rel Hloc Hne Hdirs).
  - unfold stat in Hst.
    destruct (locate s (base_dir ++ sync_parts sp)) as [d| |] eqn:Hloc; try done.
    simpl in Hst.
    destruct (collect_entries decode s base_dir Hlinks
                (merge_sort path_leb
                   ((app (base_dir ++ sync_parts sp)) <$> entries_below ∅ s d))
                files Hok)
      as (files' & Hrun & Hok' & Hmono & Hrec).
    { intros f Hf. rewrite merge_sort_Permutation in Hf.
      apply list_elem_of_fmap in Hf as (rel & -> & Hin).
      apply elem_of_entries_below in Hin as (_ & [nd Hnd] & _).
      exists (sync_parts sp ++ rel). split; [by rewrite <-app_assoc|].
      destruct (Hq _ _ Hnd) as (Hshort' & _ & Hpath).
      apply Forall_app in Hshort' as [_ Hshort'].
      split; [|split].
      - apply Forall_app. split; [apply sync_parts_part|].
        pose proof (s_valid _ _ Hnd) as Hv. pose proof (s_simple _ _ Hnd) as Hsi.
        apply Forall_app in Hv as [_ Hv]. apply Forall_app in Hsi as [_ Hsi].
        apply Forall_forall. intros c Hc. apply part_of_name.
        + by apply (proj1 (Forall_forall _ _) Hv).
        + by apply (proj1 (Forall_forall _ _) Hsi).
      - apply Forall_app. by split.
      - rewrite !path_length_app in Hpath. rewrite !path_length_app. lia. }
    exists files'. split.
    { unfold mbind at 1, M_bind at 1. rewrite path_is_file_unlocked by done.
      unfold is_file, stat. rewrite Hloc. simpl. rewrite Hst.
      unfold mbind at 1, M_bind at 1. rewrite path_is_dir_unlocked by done.
      unfold is_dir, stat. rewrite Hloc. simpl. rewrite Hst.
      unfold mbind at 1, M_bind at 1.
      rewrite (path_rglob_unlocked s _ d) by done. exact Hrun. }
    split; [done|]. split; [done|]. split; [done|].
    intros d' rel perm data [= <-] Hne Hdirs Hfile.
    assert (simple rel) as Hsimple.
    { pose proof (s_simple _ _ Hfile) as Hsi. by apply Forall_app in Hsi as [_ ?]. }
    apply Hrec.
    + rewrite merge_sort_Permutation, app_assoc.
      apply list_elem_of_fmap_2, elem_of_entries_below. eauto.
    + rewrite app_assoc. unfold is_file.
      by rewrite (stat_entry s _ d rel perm data).
  - exists files. split.
    { done. }
    split; [done|]. split; [done|]. split; [done|].
    intros d rel perm' data' Hloc Hne Hdirs _.
    by specialize (Hdir d rel Hloc Hne Hdirs).
Qed.

(** The run of the collector: it returns, every record fits the file that
    its key names, and the files of the sync paths have records. *)
Lemma collect_files_run (sps : list string) :
  within_limits s base_dir sps →
  Forall (λ sp, is_absolute sp = false) sps →
  ∃ files,
    collect_files decode ∅ base_dir sps s = Ok files s ∧
    records_fit decode s base_dir files ∧
    ∀ sp, sp ∈ sps →
      (is_file s (base_dir ++ sync_parts sp) = true →
       is_Some (dict_get files sp)) ∧
      (∀ d rel perm data,
         locate s (base_dir ++ sync_parts sp) = Found d → rel ≠ [] →
         (∀ k, k < length rel → s !! (d ++ take k rel) = Some Dir) →
         s !! (d ++ rel) = Some (File perm data) →
         is_Some (dict_get files (str (sync_parts sp ++ rel)))).
Proof.
  intros Hlim Hrel. unfold collect_files.
  assert (∀ l files0, l ⊆ sps → records_fit decode s base_dir files0 →
    ∃ files,
      fold_each l (collect_path decode ∅ base_dir) files0 s = Ok files s ∧
      records_fit decode s base_dir files ∧
      (∀ k, is_Some (dict_get files0 k) → is_Some (dict_get files k)) ∧
      ∀ sp, sp ∈ l →
        (is_file s (base_dir ++ sync_parts sp) = true →
         is_Some (dict_get files sp)) ∧
        (∀ d rel perm data,
           locate s (base_dir ++ sync_parts sp) = Found d → rel ≠ [] →
           (∀ k, k < length rel → s !! (d ++ take k rel) = Some Dir) →
           s !! (d ++ rel) = Some (File perm data) →
           is_Some (dict_get files (str (sync_parts sp ++ rel))))) as Hfold.
  { induction l as [|sp l IH]; intros files0 Hsub Hok0; simpl.
    - exists files0. split; [done|]. split; [done|]. split; [done|].
      intros sp Hsp. by apply elem_of_nil in Hsp.
    - assert (sp ∈ sps) as Hsp by (apply Hsub; left).
      destruct (collect_path_spec sps files0 sp Hlim Hsp) as
        (files1 & Hrun1 & Hok1 & Hmono1 & Hfile1 & Hdir1); [|done|].
      { by apply (proj1 (Forall_forall _ _) Hrel). }
      unfold mbind, M_bind. rewrite Hrun1.
      destruct (IH files1) as (files & Hrun & Hok & Hmono & Hrec); [|done|].
      { intros x Hx. apply Hsub. by right. }
      exists files. split; [done|]. split; [done|].
      split; [by intros k Hk; apply Hmono, Hmono1|].
      intros sp' Hsp'. apply elem_of_cons in Hsp' as [->|Hsp']; [|by apply Hrec].
      split; [by intros ?; apply Hmono, Hfile1|].
      intros d rel perm data Hloc Hne Hdirs Hfile. by eapply Hmono, Hdir1. }
  destruct (Hfold sps []) as (files & Hrun & Hok & _ & Hrec); [done|by intros k v|].
  eauto.
Qed.
End collect_files_run.

Lemma mixed_tree_simple : simple_fs mixed_tree.
Proof. apply (bool_decide_unpack (simple_fs mixed_tree)). vm_compute. exact I. Qed.



(** X17.  Under the same conditions every record that [collect_files]
    returns belongs to a regular file: its key, read as a path relative
    to the base directory, leads to a regular file, and the record is the
    text of that file, or the sentinel when the file may not be read or
    does not decode.  Nothing else is recorded. *)
Theorem collect_files_sound (decode : string → option string) (s : fs)
    (base_dir : path) (sync_paths : list string) :
  valid_fs s → simple_fs s → within_limits s base_dir sync_paths →
  Forall (λ sp, is_absolute sp = false) sync_paths →
  ∃ files,
    collect_files decode ∅ base_dir sync_paths s = Ok files s ∧
    ∀ k v, dict_get files k = Some v →
      ∃ perm data,
        stat s (base_dir ++ sync_parts k) = Some (File perm data) ∧
        v = record decode perm data.
Proof.
  intros Hv Hs Hlim Hrel.
  destruct (collect_files_run decode s base_dir Hv Hs sync_paths Hlim Hrel)
    as (files & Hrun & Hok & _).
  exists files. split; [done|]. intros k v Hget.
  destruct (Hok _ _ Hget) as [Hfile ->]. unfold is_file in Hfile.
  unfold expected_record.
  destruct (stat s (base_dir ++ sync_parts k)) as [[perm data| |]|]; try done.
  exists perm, data. split; [done|]. by destruct perm.
Qed.

Lemma collect_files_sound_witness :
  ∃ files,
    collect_files decode_ascii ∅ ["src"] ["commands"; "CLAUDE.md"] mixed_tree
    = Ok files mixed_tree ∧
    ∀ k v, dict_get files k = Some v →
      ∃ perm data,
        stat mixed_tree (["src"] ++ sync_parts k) = Some (File perm data) ∧
        v = record decode_ascii perm data.
Proof.
  apply (collect_files_sound decode_ascii mixed_tree ["src"]
           ["commands"; "CLAUDE.md"]).
  - exact mixed_tree_valid.
  - exact mixed_tree_simple.
  - apply (bool_decide_unpack (within_limits _ _ _)). vm_compute. exact I.
  - apply (bool_decide_unpack (Forall _ _)). vm_compute. exact I.
Defined.

(** The records of the mixed tree: the text, and the sentinel for the
    file that does not decode and for the file that may not be read. *)
Example collect_files_mixed_tree :
  collect_files decode_ascii ∅ ["src"] ["CLAUDE.md"; "commands"] mixed_tree
  = Ok [("CLAUDE.md", "# My Config"); ("commands/logo.bin", "<binary>");
        ("commands/secret.md", "<binary>")] mixed_tree.
Proof. vm_compute. reflexivity. Qed.

(** C9, as stated, fails where a directory may not be entered: the sync
    path of a file below the locked directory makes [collect_files] raise
    [PermissionError], and for the locked directory as a sync path the
    file below it is left out without a record. *)
Lemma collect_files_locked_directory :
  collect_files decode_ascii vault_locked ["src"] ["notes.md"; "vault/key.txt"]
    vault_tree = Raise PermissionError vault_tree ∧
  collect_files decode_ascii vault_locked ["src"] ["vault"] vault_tree
  = Ok [] vault_tree.
Proof. split; vm_compute; reflexivity. Qed.
